(** * swollencandle: candles from trades, upscaling, merging, and the
      cosevalues row codec they are persisted with.

    A shallow embedding of [include/swollencandle/swollencandle.hpp] and of
    [thirdparty/include/cosevalues/cosevalues.hpp].

    Conventions.
    - [std::uint64_t], [std::uint32_t] and [std::size_t] values are [Z]; where
      the source can wrap, the reduction modulo [2^64] is written out.
    - [double] is Rocq's primitive binary64 [float]: [+], [*], [/], [<], [==]
      are the IEEE operations the C++ code performs.  [float] has one NaN:
      the sign and the payload of a NaN are not part of the embedding.
    - A text buffer is a [list ascii].  A [char const*] into the buffer is the
      suffix of the buffer that starts there, so [*p] is the head of the
      suffix (or NUL at the end of the buffer, the terminator that
      [std::string::data] guarantees) and [++p] is the tail.
    - [std::from_chars] and [std::to_chars] belong to the C++ standard
      library; they are modelled from the wording of [charconv] in the
      standard.
    - An integer division or remainder whose divisor is zero, and an index
      outside a vector, are undefined behaviour in C++; the embedding makes
      them explicit outcomes.
    - Opening, reading and writing a file is left to the byte source and
      sink: the readers take the text of the file and the writers return the
      bytes they hand over.  The overloads [read], [write] and [upscale] are
      told apart by a suffix ([read_candles], [read_trades], ...). *)

From Stdlib Require Import ZArith List Ascii String Floats Lia Bool.
From stdpp Require Import base option list gmap sorting.

Set Default Proof Using "Type".

(** ** Characters *)

Definition NUL : ascii := "000"%char.
Definition TAB : ascii := "009"%char.
Definition LF : ascii := "010"%char.
Definition CR : ascii := "013"%char.
Definition SPACE : ascii := " "%char.
Definition DQUOTE : ascii := "034"%char.
Definition COMMA : ascii := ","%char.
Definition MINUS : ascii := "-"%char.
Definition PLUS : ascii := "+"%char.
Definition DOT : ascii := "."%char.

Definition chars (s : string) : list ascii := list_ascii_of_string s.

Definition code (a : ascii) : Z := Z.of_N (N_of_ascii a).

Definition is_digit (a : ascii) : bool :=
  ((48 <=? code a) && (code a <=? 57))%Z.

Definition digit_value (a : ascii) : Z := (code a - 48)%Z.

Definition digit_char (d : Z) : ascii := ascii_of_N (Z.to_N (48 + d)).

(** Value of a run of decimal digits read left to right, starting from
    [acc]. *)
Fixpoint digits_value (acc : Z) (ds : list ascii) : Z :=
  match ds with
  | [] => acc
  | d :: ds' => digits_value (10 * acc + digit_value d)%Z ds'
  end.

(** Longest prefix whose characters satisfy [p], and what follows it. *)
Fixpoint span_while (p : ascii -> bool) (s : list ascii)
  : list ascii * list ascii :=
  match s with
  | [] => ([], [])
  | a :: s' =>
      if p a
      then let '(ds, rest) := span_while p s' in (a :: ds, rest)
      else ([], s)
  end.

Definition span_digits : list ascii -> list ascii * list ascii :=
  span_while is_digit.

(** Unsigned 64-bit wrap-around. *)
Definition wrap64 (z : Z) : Z := (z mod 2 ^ 64)%Z.

(** ** [std::from_chars] *)

Module Charconv.

(** [std::errc] as far as [from_chars] and [to_chars] use it. *)
Inductive errc : Type :=
| errc_ok
| invalid_argument
| result_out_of_range
| value_too_large.

(** [std::from_chars_result], with the value that was stored through the
    reference argument ([None] when the argument was left alone).  [ptr] is
    the unparsed rest of the range. *)
Record from_chars_result (A : Type) : Type := FromChars {
  ptr : list ascii;
  ec : errc;
  parsed : option A
}.
Arguments FromChars {A} _ _ _.
Arguments ptr {A} _.
Arguments ec {A} _.
Arguments parsed {A} _.

(** Integers, base 10.  The pattern is an optional minus sign (signed types
    only) and a non-empty run of digits; no plus sign, no white space.  No
    match: [invalid_argument] with [ptr = first].  A match whose value does
    not fit [lo .. hi]: [result_out_of_range] with [ptr] after the digits. *)
Definition from_chars_int (signed : bool) (lo hi : Z) (s : list ascii)
  : from_chars_result Z :=
  let '(neg, body) :=
    match s with
    | a :: s' => if signed && Ascii.eqb a MINUS then (true, s') else (false, s)
    | [] => (false, s)
    end in
  let '(ds, rest) := span_digits body in
  match ds with
  | [] => FromChars s invalid_argument None
  | _ :: _ =>
      let v := if neg then (- digits_value 0 ds)%Z else digits_value 0 ds in
      if ((lo <=? v) && (v <=? hi))%Z
      then FromChars rest errc_ok (Some v)
      else FromChars rest result_out_of_range None
  end.

(** Floating point, [chars_format::general].  The pattern is the subject
    sequence of [strtod] in the C locale, without leading white space,
    without a plus sign and without a hexadecimal prefix: an optional minus
    sign, then [inf] or [infinity], or [nan] with an optional parenthesised
    character sequence (all ignoring case), or a non-empty run of digits
    that may contain one radix point, followed by an optional exponent
    part.  The exponent part counts only when it has a digit. *)
Inductive float_lexeme : Type :=
| LexInf (neg : bool)
| LexNan
| LexDecimal (neg : bool) (mantissa : Z) (exp10 : Z).

Definition lower (a : ascii) : ascii :=
  if ((65 <=? code a) && (code a <=? 90))%Z
  then ascii_of_N (Z.to_N (code a + 32))
  else a.

Definition is_nchar (a : ascii) : bool :=
  is_digit a
  || ((97 <=? code (lower a)) && (code (lower a) <=? 122))%Z
  || Ascii.eqb a "_"%char.

(** The rest of [s] after the lower-case literal [lit], when [s] starts
    with it in any case. *)
Fixpoint strip_prefix_ci (lit s : list ascii) : option (list ascii) :=
  match lit, s with
  | [], _ => Some s
  | l :: lit', a :: s' =>
      if Ascii.eqb l (lower a) then strip_prefix_ci lit' s' else None
  | _ :: _, [] => None
  end.

Definition lex_sign (s : list ascii) : bool * list ascii :=
  match s with
  | a :: s' => if Ascii.eqb a MINUS then (true, s') else (false, s)
  | [] => (false, s)
  end.

Definition lex_exponent (s : list ascii) : Z * list ascii :=
  match s with
  | a :: t =>
      if Ascii.eqb (lower a) "e"%char then
        let '(eneg, t1) :=
          match t with
          | b :: t' =>
              if Ascii.eqb b MINUS then (true, t')
              else if Ascii.eqb b PLUS then (false, t')
              else (false, t)
          | [] => (false, t)
          end in
        let '(ed, t2) := span_digits t1 in
        match ed with
        | [] => (0%Z, s)
        | _ :: _ =>
            ((if eneg then - digits_value 0 ed else digits_value 0 ed)%Z, t2)
        end
      else (0%Z, s)
  | [] => (0%Z, s)
  end.

Definition lex_decimal (neg : bool) (body : list ascii)
  : option (float_lexeme * list ascii) :=
  let '(ip, r1) := span_digits body in
  let '(fp, r2) :=
    match r1 with
    | a :: t => if Ascii.eqb a DOT then span_digits t else ([], r1)
    | [] => ([], r1)
    end in
  match ip ++ fp with
  | [] => None
  | _ :: _ =>
      let '(ex, r3) := lex_exponent r2 in
      Some (LexDecimal neg (digits_value 0 (ip ++ fp))
              (ex - Z.of_nat (length fp)), r3)
  end.

Definition lex_float (s : list ascii) : option (float_lexeme * list ascii) :=
  let '(neg, body) := lex_sign s in
  match strip_prefix_ci (chars "inf") body with
  | Some r =>
      Some (LexInf neg,
            match strip_prefix_ci (chars "inity") r with
            | Some r' => r'
            | None => r
            end)
  | None =>
      match strip_prefix_ci (chars "nan") body with
      | Some r =>
          Some (LexNan,
                match r with
                | a :: t =>
                    if Ascii.eqb a "("%char then
                      match snd (span_while is_nchar t) with
                      | b :: t' => if Ascii.eqb b ")"%char then t' else r
                      | [] => r
                      end
                    else r
                | [] => r
                end)
      | None => lex_decimal neg body
      end
  end.

(** The binary floating-point number nearest to [± m * 10^e10] (ties to
    even), in the format with [prec] bits of precision and infinities at
    exponent [emax]. *)
Definition decimal_to_SF (prec emax : Z) (neg : bool) (m e10 : Z)
  : spec_float :=
  match m with
  | Zpos p =>
      if (0 <=? e10)%Z
      then binary_round prec emax neg (p * Z.to_pos (10 ^ e10)) 0
      else SFdiv prec emax (S754_finite neg p 0)
                 (S754_finite false (Z.to_pos (10 ^ (- e10))) 0)
  | _ => S754_zero neg
  end.

(** A decimal that rounds to an infinity, or a non-zero decimal that rounds
    to zero, is out of range. *)
Definition from_chars_float (prec emax : Z) (s : list ascii)
  : from_chars_result float :=
  match lex_float s with
  | None => FromChars s invalid_argument None
  | Some (LexInf neg, rest) =>
      FromChars rest errc_ok (Some (if neg then neg_infinity else infinity))
  | Some (LexNan, rest) => FromChars rest errc_ok (Some nan)
  | Some (LexDecimal neg m e10, rest) =>
      match decimal_to_SF prec emax neg m e10 with
      | S754_infinity _ | S754_nan => FromChars rest result_out_of_range None
      | S754_zero sg =>
          if (m =? 0)%Z
          then FromChars rest errc_ok (Some (SF2Prim (S754_zero sg)))
          else FromChars rest result_out_of_range None
      | S754_finite sg mm ee =>
          FromChars rest errc_ok (Some (SF2Prim (S754_finite sg mm ee)))
      end
  end.

Definition from_chars_double : list ascii -> from_chars_result float :=
  from_chars_float 53 1024.

Definition from_chars_single : list ascii -> from_chars_result float :=
  from_chars_float 24 128.

(** *** [std::to_chars] *)

(** Decimal digits of a non-negative integer, most significant first. *)
Fixpoint decimal_fuel (fuel : nat) (v : Z) (acc : list ascii) : list ascii :=
  match fuel with
  | O => acc
  | S fuel' =>
      let acc' := digit_char (v mod 10) :: acc in
      if (v <? 10)%Z then acc' else decimal_fuel fuel' (v / 10) acc'
  end.

Definition decimal (v : Z) : list ascii :=
  decimal_fuel (S (Z.to_nat (Z.log2 v))) v [].

(** The characters [to_chars] produces for an integer: the digits, after a
    minus sign for a negative value. *)
Definition integer_text (v : Z) : list ascii :=
  if (v <? 0)%Z then MINUS :: decimal (- v) else decimal v.

(** The plain floating-point overload writes the shortest text, in the
    style of [printf]'s [%f] or [%e], that [from_chars] reads back as the
    same value; among the shortest the one nearest to the value, and [%f]
    when both styles are as short.

    A finite positive value is the fraction [num / den]. *)
Section Shortest.
Variables (prec emax : Z) (v : float) (num den : Z).

(** Is [10^x <= num / den]? *)
Definition pow10_le (x : Z) : bool :=
  (if 0 <=? x then 10 ^ x * den <=? num else den <=? num * 10 ^ (- x))%Z.

(** [floor (log10 (num / den))], searched around an estimate from the
    binary logarithms. *)
Definition floor_log10 : Z :=
  let x0 := ((Z.log2 num - Z.log2 den) * 30103 / 100000)%Z in
  if pow10_le (x0 + 2) then (x0 + 2)%Z
  else if pow10_le (x0 + 1) then (x0 + 1)%Z
  else if pow10_le x0 then x0
  else if pow10_le (x0 - 1) then (x0 - 1)%Z
  else (x0 - 2)%Z.

(** Does the decimal [s * 10^(-k)] read back as [v]? *)
Definition reads_back (s k : Z) : bool :=
  match decimal_to_SF prec emax false s (- k) with
  | S754_finite sg m e => PrimFloat.eqb (SF2Prim (S754_finite sg m e)) v
  | _ => false
  end.

(** The integer [s] nearest to [num / den * 10^k] with [s * 10^(-k)]
    reading back as [v], if one of the two neighbours does. *)
Definition best_at_scale (k : Z) : option Z :=
  let '(n, d) :=
    (if 0 <=? k then (num * 10 ^ k, den) else (num, den * 10 ^ (- k)))%Z in
  let lo := (n / d)%Z in
  let hi := (if n mod d =? 0 then lo else lo + 1)%Z in
  match reads_back lo k, reads_back hi k with
  | true, true =>
      match (2 * n ?= (lo + hi) * d)%Z with
      | Lt => Some lo
      | Gt => Some hi
      | Eq => Some (if Z.even lo then lo else hi)
      end
  | true, false => Some lo
  | false, true => Some hi
  | false, false => None
  end.

(** [%e] with [p] digits after the point, for the least [p] that reads
    back, trying [p], [p + 1], ... *)
Fixpoint scientific_text (fuel : nat) (x p : Z) : option (list ascii) :=
  match fuel with
  | O => None
  | S fuel' =>
      match best_at_scale (p - x) with
      | Some s =>
          let '(s, x) :=
            (if s =? 10 ^ (p + 1) then (10 ^ p, x + 1) else (s, x))%Z in
          let ds := decimal s in
          let ex := decimal (Z.abs x) in
          Some (take 1 ds
                  ++ (if (p =? 0)%Z then [] else DOT :: drop 1 ds)
                  ++ "e"%char :: (if (x <? 0)%Z then MINUS else PLUS)
                  :: (if (Z.abs x <? 10)%Z then "0"%char :: ex else ex))
      | None => scientific_text fuel' x (p + 1)%Z
      end
  end.

(** [%f] with [p] digits after the point, likewise. *)
Fixpoint fixed_text (fuel : nat) (p : Z) : option (list ascii) :=
  match fuel with
  | O => None
  | S fuel' =>
      match best_at_scale p with
      | Some s =>
          let frac := decimal (s mod 10 ^ p) in
          Some (decimal (s / 10 ^ p)
                  ++ (if (p =? 0)%Z then []
                      else DOT :: replicate (Z.to_nat p - length frac) "0"%char
                               ++ frac))
      | None => fixed_text fuel' (p + 1)%Z
      end
  end.

Definition shortest_text : list ascii :=
  match scientific_text 18 floor_log10 0, fixed_text 25 0 with
  | Some e, Some f => if (length f <=? length e)%nat then f else e
  | Some e, None => e
  | None, Some f => f
  | None, None => []
  end.
End Shortest.

(** Of a NaN [to_chars] writes the sign as well, [nan] or [-nan].  [float]
    has one NaN, without a sign bit: its text here is that of a NaN whose
    sign bit is clear. *)
Definition float_text (prec emax : Z) (v : float) : list ascii :=
  match Prim2SF v with
  | S754_nan => chars "nan"
  | S754_infinity sg => if sg then chars "-inf" else chars "inf"
  | S754_zero sg => if sg then chars "-0" else chars "0"
  | S754_finite sg m e =>
      let '(num, den) :=
        (if 0 <=? e then (Zpos m * 2 ^ e, 1) else (Zpos m, 2 ^ (- e)))%Z in
      (if sg then [MINUS] else [])
        ++ shortest_text prec emax (PrimFloat.abs v) num den
  end.

Definition double_text : float -> list ascii := float_text 53 1024.
Definition single_text : float -> list ascii := float_text 24 128.

End Charconv.

(** ** cosevalues: rows and the reader *)

Module Cosevalues.

Import Charconv.

(** [row::cursor_] *)
Definition cursor : Type := list ascii.

(** [*cursor_] *)
Definition peek (c : cursor) : ascii :=
  match c with
  | [] => NUL
  | a :: _ => a
  end.

(** [++cursor_] *)
Definition advance (c : cursor) : cursor := tl c.

(** [mark == cursor_] for two pointers into the same buffer. *)
Definition same_position (mark c : cursor) : bool :=
  (length mark =? length c)%nat.

(** The characters of [[mark, c)], for [c] reached from [mark]. *)
Definition span_between (mark c : cursor) : list ascii :=
  take (length mark - length c) mark.

(** [row::skip_line] *)
Fixpoint skip_line (c : cursor) : cursor :=
  match c with
  | [] => []
  | a :: c' =>
      if Ascii.eqb a LF then c'
      else if Ascii.eqb a NUL then c
      else skip_line c'
  end.

Definition is_whitespace (a : ascii) : bool :=
  Ascii.eqb a SPACE || Ascii.eqb a TAB || Ascii.eqb a CR.

(** [row::skip_whitespaces] *)
Fixpoint skip_whitespaces (c : cursor) : cursor :=
  match c with
  | [] => []
  | a :: c' => if is_whitespace a then skip_whitespaces c' else c
  end.

(** The loop of [row::scan_quoted], entered after the opening quote was
    stepped over.  [None] is the [false] return; otherwise the cursor is
    left on the closing quote. *)
Fixpoint scan_quoted_loop (c : cursor) (has_inner_quotes : bool)
  : option (cursor * bool) :=
  match c with
  | [] => None
  | a :: c' =>
      if Ascii.eqb a LF || Ascii.eqb a NUL then None
      else if Ascii.eqb a DQUOTE then
        match c' with
        | b :: c'' =>
            if Ascii.eqb b DQUOTE
            then scan_quoted_loop c'' true
            else Some (c, has_inner_quotes)
        | [] => Some (c, has_inner_quotes)
        end
      else scan_quoted_loop c' has_inner_quotes
  end.

(** [row::scan_quoted] *)
Definition scan_quoted (c : cursor) (has_inner_quotes : bool)
  : option (cursor * bool) :=
  scan_quoted_loop (advance c) has_inner_quotes.

Definition ends_token (a : ascii) : bool :=
  Ascii.eqb a TAB || Ascii.eqb a CR || Ascii.eqb a LF || Ascii.eqb a NUL
  || Ascii.eqb a COMMA.

(** [row::scan_token] *)
Fixpoint scan_token (c : cursor) : cursor :=
  match c with
  | [] => []
  | a :: c' => if ends_token a then c else scan_token c'
  end.

(** The argument types [row::parse_arg] accepts, and their values. *)
Inductive kind : Type :=
| KInt32 | KUInt32 | KInt64 | KUInt64 | KFloat | KDouble | KString.

Inductive value : Type :=
| VInt (z : Z)
| VFloat (f : float)
| VString (s : list ascii).

Definition is_numeric (k : kind) : bool :=
  match k with
  | KString => false
  | _ => true
  end.

(** What [std::from_chars] is called with for each numeric type.  (There is
    no call for [std::string]; that case is there to make the function
    total and [try_parse] does not reach it.) *)
Definition from_chars (k : kind) (s : list ascii) : from_chars_result value :=
  let int_result (r : from_chars_result Z) :=
    FromChars (ptr r) (ec r) (VInt <$> parsed r) in
  let float_result (r : from_chars_result float) :=
    FromChars (ptr r) (ec r) (VFloat <$> parsed r) in
  match k with
  | KInt32 => int_result (from_chars_int true (- 2 ^ 31) (2 ^ 31 - 1) s)
  | KUInt32 => int_result (from_chars_int false 0 (2 ^ 32 - 1) s)
  | KInt64 => int_result (from_chars_int true (- 2 ^ 63) (2 ^ 63 - 1) s)
  | KUInt64 => int_result (from_chars_int false 0 (2 ^ 64 - 1) s)
  | KFloat => float_result (from_chars_single s)
  | KDouble => float_result (from_chars_double s)
  | KString => FromChars [] errc_ok (Some (VString s))
  end%Z.

(** The [row::try_parse] overloads: the numeric ones return
    [converted.ec == std::errc{}] and never look at [converted.ptr]; the
    [std::string] one copies the range. *)
Definition try_parse (k : kind) (s : list ascii) : option value :=
  match k with
  | KString => Some (VString s)
  | _ =>
      let converted := from_chars k s in
      match ec converted with
      | errc_ok => parsed converted
      | _ => None
      end
  end.

(** The copy loop of [row::try_parse_quoted]: a quote is stepped over and
    the character after it is kept.  [scan_quoted] only lets doubled quotes
    through, so the range never ends on a lone quote. *)
Fixpoint unescape (s : list ascii) : list ascii :=
  match s with
  | [] => []
  | a :: s' =>
      if Ascii.eqb a DQUOTE then
        match s' with
        | b :: s'' => b :: unescape s''
        | [] => []
        end
      else a :: unescape s'
  end.

Definition try_parse_quoted (s : list ascii) : option value :=
  Some (VString (unescape s)).

(** [row::parse_arg].  [None] is the [false] return; the cursor a failed
    parse leaves behind is not modelled, every caller stops at the failure. *)
Definition parse_arg (k : kind) (c : cursor) : option (value * cursor) :=
  if Ascii.eqb (peek c) DQUOTE then
    let mark := advance c in
    match scan_quoted c false with
    | None => None
    | Some (c', has_inner_quotes) =>
        let converted :=
          match k with
          | KString =>
              if has_inner_quotes
              then try_parse_quoted (span_between mark c')
              else try_parse k (span_between mark c')
          | _ => try_parse k (span_between mark c')
          end in
        match converted with
        | None => None
        | Some v => Some (v, advance c')
        end
    end
  else
    let mark := c in
    let c' := scan_token c in
    if same_position mark c' then None
    else
      match try_parse k (span_between mark c') with
      | None => None
      | Some v => Some (v, c')
      end.

(** [row::parse_args<I>], the argument pack as the list of its kinds. *)
Fixpoint parse_args (ks : list kind) (c : cursor)
  : option (list value * cursor) :=
  match ks with
  | [] => None
  | k :: ks' =>
      match parse_arg k c with
      | None => None
      | Some (v, c1) =>
          match ks' with
          | [] =>
              let c2 := skip_whitespaces c1 in
              if Ascii.eqb (peek c2) LF || Ascii.eqb (peek c2) NUL
              then Some ([v], c2)
              else None
          | _ :: _ =>
              let c2 := skip_whitespaces c1 in
              if negb (Ascii.eqb (peek c2) COMMA) then None
              else
                let c3 := skip_whitespaces (advance c2) in
                match parse_args ks' c3 with
                | None => None
                | Some (vs, c4) => Some (v :: vs, c4)
                end
          end
      end
  end.

(** [row::parse] *)
Definition parse (ks : list kind) (c : cursor) : option (list value * cursor) :=
  parse_args ks c.

(** [reader::const_iterator]: the constructor and [operator++]. *)
Definition make_iterator (c : cursor) : cursor := skip_whitespaces c.

Definition next_row (c : cursor) : cursor :=
  skip_whitespaces (skip_line c).

(** [reader::first_to_last_rows] and [reader::second_to_last_rows]: the
    [begin] iterator of the range.  The [end] iterator sits on the
    terminator of the buffer, the empty suffix, and [it != end] compares
    positions. *)
Definition first_to_last_rows (source_ : list ascii) : cursor :=
  make_iterator source_.

Definition second_to_last_rows (source_ : list ascii) : cursor :=
  let second_line := make_iterator source_ in
  if same_position second_line [] then [] else next_row second_line.

Definition at_end (c : cursor) : bool := same_position c [].

(** *** The writer *)

(** [writer::buffer_]: the characters of the [std::string] and its
    capacity.  How far a [std::string] over-allocates is left to the
    implementation; here it allocates what is asked for. *)
Record writer : Type := Writer {
  buffer_ : list ascii;
  capacity_ : Z
}.

Definition empty_writer : writer := Writer [] 0.

Definition buffer_size (w : writer) : Z := Z.of_nat (length (buffer_ w)).

(** [buffer_.resize(n)]: cut, or fill up with [char()]. *)
Definition string_resize (n : Z) (w : writer) : writer :=
  Writer (take (Z.to_nat n) (buffer_ w)
            ++ replicate (Z.to_nat n - length (buffer_ w)) NUL)
         (Z.max (capacity_ w) n).

(** [buffer_.push_back(c)] *)
Definition push_back (a : ascii) (w : writer) : writer :=
  Writer (buffer_ w ++ [a]) (Z.max (capacity_ w) (buffer_size w + 1)).

(** [writer::nearest_power_of_2], on [uint64_t]. *)
Definition nearest_power_of_2 (n : Z) : Z :=
  if (n <? 2)%Z then 2%Z
  else
    let n := wrap64 (n - 1) in
    let n := Z.lor n (Z.shiftr n 1) in
    let n := Z.lor n (Z.shiftr n 2) in
    let n := Z.lor n (Z.shiftr n 4) in
    let n := Z.lor n (Z.shiftr n 8) in
    let n := Z.lor n (Z.shiftr n 16) in
    let n := Z.lor n (Z.shiftr n 32) in
    wrap64 (n + 1).

(** [writer::reserve] *)
Definition reserve (n : Z) (w : writer) : writer :=
  Writer (buffer_ w) (Z.max (capacity_ w) (nearest_power_of_2 n)).

(** [writer::to_string] *)
Definition to_string (w : writer) : list ascii := buffer_ w.

(** [writer::allocate]: the returned [char*] is [buffer_.data() + n], kept
    as the offset [n]. *)
Definition allocate (sz : Z) (w : writer) : Z * writer :=
  let n := buffer_size w in
  let new_size := wrap64 (buffer_size w + sz) in
  (n, if (capacity_ w <? new_size)%Z
      then string_resize (nearest_power_of_2 new_size) w
      else string_resize new_size w).

(** [writer::free] *)
Definition free (end_ : Z) (w : writer) : writer :=
  string_resize end_ w.

(** Writing [text] through a [char*] at offset [p].  A write that leaves
    the string is undefined behaviour; [allocate] has made room before
    every write (see [store_allocate]), so that case is left inert. *)
Definition store (p : Z) (text : list ascii) (w : writer) : writer :=
  if ((0 <=? p) && (p + Z.of_nat (length text) <=? buffer_size w))%Z
  then Writer (take (Z.to_nat p) (buffer_ w) ++ text
                 ++ drop (Z.to_nat p + length text) (buffer_ w))
              (capacity_ w)
  else w.

(** [std::to_chars(first, last, value)] for a floating-point value whose
    characters are [text], and the step of the integer overloads that
    writes the digits: when the characters do not fit, nothing is written
    and the result is [{last, value_too_large}].  (The standard leaves the
    range unspecified in that case; the implementations compare the length
    first.) *)
Definition to_chars (first last : Z) (text : list ascii) (w : writer)
  : Z * errc * writer :=
  if (last - first <? Z.of_nat (length text))%Z
  then (last, value_too_large, w)
  else ((first + Z.of_nat (length text))%Z, errc_ok, store first text w).

(** [std::to_chars(first, last, value)] for an integer.  An empty range is
    too small.  The minus sign of a negative value is stored and stepped
    over before the length of the digits is compared with the room that is
    left, so a negative value that does not fit leaves its sign in the
    range.  (This is what the implementations do where the standard leaves
    the range unspecified.  A value of an unsigned type is never
    negative.) *)
Definition to_chars_int (first last : Z) (value : Z) (w : writer)
  : Z * errc * writer :=
  if (first =? last)%Z then (last, value_too_large, w)
  else if (value <? 0)%Z
       then to_chars (first + 1) last (decimal (- value))
                     (store first [MINUS] w)
       else to_chars first last (decimal value) w.

(** What [writer::format] is given. *)
Inductive argument : Type :=
| AText (s : list ascii)
| AInt32 (z : Z)
| AUInt32 (z : Z)
| AInt64 (z : Z)
| AUInt64 (z : Z)
| AFloat (f : float)
| ADouble (f : float).

(** [format_arg(char const (&arg)[N])]: [arg] without its terminator, so
    [N] is its length plus one. *)
Definition format_arg_array (arg : list ascii) (w : writer) : writer :=
  let N := (Z.of_nat (length arg) + 1)%Z in
  let '(p, w) := allocate (N + 2) w in
  let w := store p [DQUOTE] w in
  let p := (p + 1)%Z in
  let w := store p arg w in
  let p := (p + (N - 1))%Z in
  let w := store p [DQUOTE] w in
  let p := (p + 1)%Z in
  free p w.

(** The [char const*] overload of [format_arg], for a pointer that is not
    null.  This is the
    overload a string literal selects: the array-to-pointer conversion
    ranks as an exact match, and a function is preferred to a template. *)
Definition format_arg_pointer (arg : list ascii) (w : writer) : writer :=
  let n := Z.of_nat (length arg) in
  let '(p, w) := allocate (n + 2) w in
  let w := store p [DQUOTE] w in
  let p := (p + 1)%Z in
  let w := store p arg w in
  let p := (p + n)%Z in
  let w := store p [DQUOTE] w in
  let p := (p + 1)%Z in
  free p w.

(** The numeric overloads: room for [digits] characters, [to_chars] into
    it, and the string is cut at [converted.ptr].  First the floating-point
    ones, for a value whose characters are [text], then the integer ones. *)
Definition format_arg_number (digits : Z) (text : list ascii) (w : writer)
  : writer :=
  let '(p, w) := allocate digits w in
  let '(converted_ptr, _, w) := to_chars p (p + digits) text w in
  free converted_ptr w.

Definition format_arg_integer (digits : Z) (value : Z) (w : writer)
  : writer :=
  let '(p, w) := allocate digits w in
  let '(converted_ptr, _, w) := to_chars_int p (p + digits) value w in
  free converted_ptr w.

Definition int32_digits : Z := 11.
Definition uint32_digits : Z := 10.
Definition int64_digits : Z := 19.
Definition uint64_digits : Z := 18.
Definition float_digits : Z := 16.
Definition double_digits : Z := 32.

(** [writer::format_arg] *)
Definition format_arg (a : argument) (w : writer) : writer :=
  match a with
  | AText s => format_arg_pointer s w
  | AInt32 z => format_arg_integer int32_digits z w
  | AUInt32 z => format_arg_integer uint32_digits z w
  | AInt64 z => format_arg_integer int64_digits z w
  | AUInt64 z => format_arg_integer uint64_digits z w
  | AFloat f => format_arg_number float_digits (single_text f) w
  | ADouble f => format_arg_number double_digits (double_text f) w
  end.

(** [writer::format_args<I>] *)
Fixpoint format_args (args : list argument) (w : writer) : writer :=
  match args with
  | [] => w
  | a :: args' =>
      let w := format_arg a w in
      match args' with
      | [] => push_back LF w
      | _ :: _ => format_args args' (push_back COMMA w)
      end
  end.

(** [writer::format] *)
Definition format (args : list argument) (w : writer) : writer :=
  format_args args w.

End Cosevalues.

(** ** swollencandle *)

Module Swollencandle.

Import Cosevalues.

Record candle : Type := Candle {
  time : Z;
  period : Z;
  count : Z;
  volume : float;
  vwap_price : float;
  open_price : float;
  high_price : float;
  low_price : float;
  close_price : float
}.

(** The defaulted [operator==] of [candle]: member by member, the
    [double]s by IEEE equality. *)
Definition candle_eqb (a b : candle) : bool :=
  (time a =? time b)%Z && (period a =? period b)%Z && (count a =? count b)%Z
  && PrimFloat.eqb (volume a) (volume b)
  && PrimFloat.eqb (vwap_price a) (vwap_price b)
  && PrimFloat.eqb (open_price a) (open_price b)
  && PrimFloat.eqb (high_price a) (high_price b)
  && PrimFloat.eqb (low_price a) (low_price b)
  && PrimFloat.eqb (close_price a) (close_price b).

(** [candle{}], what [std::vector::resize] fills new slots with. *)
Definition zero_candle : candle := Candle 0 0 0 0 0 0 0 0 0.

Inductive upscale_period : Type := minute | hour | day | month | year.

Definition seconds_in (up : upscale_period) : Z :=
  match up with
  | minute => 60
  | hour => 3600
  | day => 86400
  | month => 2592000
  | year => 31104000
  end.

(** [parse_upscale_period]: the [switch] on the length, then the
    comparisons. *)
Definition parse_upscale_period (text : list ascii) : option upscale_period :=
  let same (name : string) := String.eqb (string_of_list_ascii text) name in
  match length text with
  | 3 => if same "day"%string then Some day else None
  | 4 => if same "hour"%string then Some hour
         else if same "year"%string then Some year else None
  | 5 => if same "month"%string then Some month else None
  | 6 => if same "minute"%string then Some minute else None
  | _ => None
  end.

Record trade : Type := Trade {
  trade_time : Z;
  amount : float;
  price : float
}.

Inductive error : Type :=
| ok
| non_constant_period
| invalid_upscale_period
| merging_periods_mismatch
| duplicated_candle
| mismatched_candles
| invalid_candle_fields
| invalid_trade_fields.

(** What a call does: it returns, or it runs into undefined behaviour. *)
Inductive undefined : Type := division_by_zero | index_out_of_range.

Inductive outcome (A : Type) : Type :=
| Returns (a : A)
| Undefined (why : undefined).
Arguments Returns {A} _.
Arguments Undefined {A} _.

#[global] Instance outcome_ret : MRet outcome := fun A a => Returns a.

#[global] Instance outcome_bind : MBind outcome := fun A B f m =>
  match m with
  | Returns a => f a
  | Undefined why => Undefined why
  end.

(** Unsigned [a / b] and [a % b]. *)
Definition udiv (a b : Z) : outcome Z :=
  if (b =? 0)%Z then Undefined division_by_zero else Returns (a / b)%Z.

Definition umod (a b : Z) : outcome Z :=
  if (b =? 0)%Z then Undefined division_by_zero else Returns (a mod b)%Z.

(** [v[i]] on a [std::vector]. *)
Definition at_index {A : Type} (v : list A) (i : nat) : outcome A :=
  match v !! i with
  | Some a => Returns a
  | None => Undefined index_out_of_range
  end.

(** [v.resize(n)] on a [std::vector<candle>]. *)
Definition vector_resize (n : nat) (v : list candle) : list candle :=
  take n v ++ replicate (n - length v) zero_candle.

(** [detail::failed] *)
Definition failed (ec errc : error) : bool * error := (false, errc).

(** The loop of [detail::check_integrity], over the elements after the
    first. *)
Fixpoint check_integrity_loop (period0 : Z) (rest : list candle) (ec : error)
  : bool * error :=
  match rest with
  | [] => (true, ec)
  | each :: rest' =>
      if negb (period each =? period0)%Z
      then failed ec non_constant_period
      else check_integrity_loop period0 rest' ec
  end.

(** [detail::check_integrity] *)
Definition check_integrity (candles : list candle) (ec : error) : bool * error :=
  match candles with
  | [] => (true, ec)
  | front :: rest => check_integrity_loop (period front) rest ec
  end.

(** The running values of one group in [upscale]. *)
Record group : Type := Group {
  g_count : Z;
  g_volume : float;
  g_turnover : float;
  g_high_price : float;
  g_low_price : float
}.

(** The body of the inner loop, for [source[k]]. *)
Definition group_add (g : group) (c : candle) : group :=
  Group (wrap64 (g_count g + count c))
        (g_volume g + volume c)
        (g_turnover g + volume c * vwap_price c)
        (if PrimFloat.ltb (g_high_price g) (high_price c)
         then high_price c else g_high_price g)
        (if PrimFloat.ltb (low_price c) (g_low_price g)
         then low_price c else g_low_price g).

(** The inner loop, [k] running over [ks]. *)
Fixpoint group_loop (source : list candle) (ks : list nat) (g : group)
  : outcome group :=
  match ks with
  | [] => Returns g
  | k :: ks' =>
      c ← at_index source k;
      group_loop source ks' (group_add g c)
  end.

(** One turn of the outer loop: [result[i]] for the group that starts at
    [source[j]]. *)
Definition upscale_group (source : list candle) (period_in_seconds : Z)
    (candles_to_fit j : nat) : outcome candle :=
  first ← at_index source j;
  g ← group_loop source (seq (j + 1) (candles_to_fit - 1))
         (Group (count first) (volume first)
                (vwap_price first * volume first)
                (high_price first) (low_price first));
  q ← udiv (time first) period_in_seconds;
  last ← at_index source (j + candles_to_fit - 1);
  Returns (Candle (q * period_in_seconds) period_in_seconds
                  (g_count g) (g_volume g)
                  (g_turnover g / g_volume g)
                  (open_price first) (g_high_price g) (g_low_price g)
                  (close_price last)).

(** The outer loop, [i] running over [indices] with [j = i * candles_to_fit]. *)
Fixpoint upscale_loop (source : list candle) (period_in_seconds : Z)
    (candles_to_fit : nat) (indices : list nat) (result : list candle)
  : outcome (list candle) :=
  match indices with
  | [] => Returns result
  | i :: indices' =>
      c ← upscale_group source period_in_seconds candles_to_fit
             (i * candles_to_fit);
      upscale_loop source period_in_seconds candles_to_fit indices'
                   (<[i := c]> result)
  end.

(** [upscale] for candles.  The result is the returned [bool], the
    [result] vector and [ec] as the call leaves them. *)
Definition upscale (source result : list candle) (up : upscale_period)
    (ec : error) : outcome (bool * list candle * error) :=
  match source with
  | [] => Returns (true, result, ec)
  | front :: _ =>
      let '(intact, ec) := check_integrity source ec in
      if negb intact then Returns (false, result, ec)
      else
        let period := period front in
        let period_in_seconds := seconds_in up in
        r ← umod period_in_seconds period;
        if negb (r =? 0)%Z
        then Returns (false, result, snd (failed ec invalid_upscale_period))
        else if (period_in_seconds =? period)%Z
        then Returns (true, source, ec)
        else
          candles_to_fit ← udiv period_in_seconds period;
          n ← udiv (Z.of_nat (length source)) candles_to_fit;
          let result := vector_resize (Z.to_nat n) result in
          result ← upscale_loop source period_in_seconds
                      (Z.to_nat candles_to_fit)
                      (seq 0 (length result)) result;
          Returns (true, result, ec)
  end.

(** [indexed.try_emplace(key, ptr)]: the element now under [key], and
    whether it was put there by this call.  The map holds pointers to
    candles of [x] and [y], which nothing changes meanwhile; it is kept as a
    map to the candles. *)
Definition try_emplace (key : Z) (c : candle) (indexed : gmap Z candle)
  : candle * bool * gmap Z candle :=
  match indexed !! key with
  | Some existing => (existing, false, indexed)
  | None => (c, true, <[key := c]> indexed)
  end.

(** The first loop of [merge]; [None] is the return with
    [duplicated_candle]. *)
Fixpoint merge_insert_x (x : list candle) (indexed : gmap Z candle)
  : option (gmap Z candle) :=
  match x with
  | [] => Some indexed
  | each :: x' =>
      let '(_, placed, indexed) := try_emplace (time each) each indexed in
      if negb placed then None else merge_insert_x x' indexed
  end.

(** The second loop; [None] is the return with [mismatched_candles]. *)
Fixpoint merge_insert_y (y : list candle) (indexed : gmap Z candle)
  : option (gmap Z candle) :=
  match y with
  | [] => Some indexed
  | each :: y' =>
      let '(existing, placed, indexed) := try_emplace (time each) each indexed in
      if negb placed && negb (candle_eqb existing each) then None
      else merge_insert_y y' indexed
  end.

(** [std::sort] of the (time, candle) pairs by time.  The times are the
    keys of a map, so no two are equal and the order is determined. *)
Definition by_time (a b : Z * candle) : Prop := (a.1 <= b.1)%Z.

#[global] Instance by_time_dec a b : Decision (by_time a b).
Proof. unfold by_time. apply _. Defined.

Definition sort_by_time (l : list (Z * candle)) : list (Z * candle) :=
  merge_sort by_time l.

(** [merge].  [z] is resized to the number of keys and every slot is
    assigned. *)
Definition merge (x y z : list candle) (ec : error)
  : bool * list candle * error :=
  if match x, y with
     | fx :: _, fy :: _ => negb (period fx =? period fy)%Z
     | _, _ => false
     end
  then (false, z, snd (failed ec merging_periods_mismatch))
  else
    match merge_insert_x x ∅ with
    | None => (false, z, snd (failed ec duplicated_candle))
    | Some indexed =>
        match merge_insert_y y indexed with
        | None => (false, z, snd (failed ec mismatched_candles))
        | Some indexed =>
            let sorted := sort_by_time (map_to_list indexed) in
            (true, snd <$> sorted, ec)
        end
    end.

(** [upscale] for trades.  The loop carries the candle being filled, the
    turnover and [result]. *)
Definition flush (c : candle) (turnover : float) : candle :=
  Candle (time c) (period c) (count c) (volume c)
         (turnover / volume c)
         (open_price c) (high_price c) (low_price c) (close_price c).

Fixpoint upscale_trades_loop (rest : list trade) (period_in_seconds : Z)
    (c : candle) (turnover : float) (result : list candle)
  : outcome (list candle) :=
  match rest with
  | [] => Returns (result ++ [flush c turnover])
  | each_trade :: rest' =>
      if (wrap64 (time c + period_in_seconds) <=? trade_time each_trade)%Z
      then
        let c := flush c turnover in
        let result := result ++ [c] in
        q ← udiv (trade_time each_trade) period_in_seconds;
        upscale_trades_loop rest' period_in_seconds
          (Candle (q * period_in_seconds) period_in_seconds 1
                  (amount each_trade) (vwap_price c)
                  (price each_trade) (price each_trade)
                  (price each_trade) (price each_trade))
          (amount each_trade * price each_trade)
          result
      else
        upscale_trades_loop rest' period_in_seconds
          (Candle (time c) (period c) (wrap64 (count c + 1))
                  (volume c + amount each_trade) (vwap_price c)
                  (open_price c)
                  (if PrimFloat.ltb (high_price c) (price each_trade)
                   then price each_trade else high_price c)
                  (if PrimFloat.ltb (high_price c) (price each_trade)
                   then low_price c
                   else if PrimFloat.ltb (price each_trade) (low_price c)
                        then price each_trade else low_price c)
                  (price each_trade))
          (turnover + price each_trade * amount each_trade)
          result
  end.

(** The candle being filled is declared without an initialiser; its
    [vwap_price] is assigned before every [push_back], so the value it
    starts with is never read and is taken to be zero. *)
Definition upscale_trades (trades : list trade) (result : list candle)
    (up : upscale_period) (ec : error)
  : outcome (bool * list candle * error) :=
  match trades with
  | [] => Returns (true, result, ec)
  | first_trade :: rest =>
      let period_in_seconds := seconds_in up in
      q ← udiv (trade_time first_trade) period_in_seconds;
      result ← upscale_trades_loop rest period_in_seconds
                 (Candle (q * period_in_seconds) period_in_seconds 1
                         (amount first_trade) 0
                         (price first_trade) (price first_trade)
                         (price first_trade) (price first_trade))
                 (amount first_trade * price first_trade)
                 result;
      Returns (true, result, ec)
  end.

(** *** Reading and writing.  The file is the byte sequence it holds. *)

(** The range-for loop over the rows of a reader.  [fuel] bounds the number
    of turns; [None] says it ran out.  Every turn that goes on has taken at
    least one character, so the length of the text is enough
    (see [read_rows_returns]). *)
Fixpoint read_rows {A : Type} (parse_row : cursor -> option (A * cursor))
    (fuel : nat) (it : cursor) (entries : list A) : option (bool * list A) :=
  match fuel with
  | O => None
  | S fuel' =>
      if at_end it then Some (true, entries)
      else
        match parse_row it with
        | None => Some (false, entries)
        | Some (entry, row) =>
            read_rows parse_row fuel' (next_row row) (entries ++ [entry])
        end
  end.

Definition candle_columns : list kind :=
  [KUInt64; KUInt32; KUInt64;
   KDouble; KDouble; KDouble; KDouble; KDouble; KDouble].

(** [row.parse(candle.time, candle.period, ...)] *)
Definition parse_candle (row : cursor) : option (candle * cursor) :=
  match parse candle_columns row with
  | Some ([VInt t; VInt p; VInt n; VFloat v; VFloat w;
           VFloat o; VFloat h; VFloat l; VFloat c], row') =>
      Some (Candle t p n v w o h l c, row')
  | _ => None
  end.

(** [read] for candles, on the text of the file. *)
Definition read_candles (text : list ascii) (candles : list candle)
    (ec : error) : option (bool * list candle * error) :=
  let candles : list candle := [] in
  match read_rows parse_candle (S (length text))
                  (second_to_last_rows text) candles with
  | None => None
  | Some (true, candles) => Some (true, candles, ec)
  | Some (false, candles) => Some (false, candles, invalid_candle_fields)
  end.

Definition trade_columns : list kind := [KUInt64; KDouble; KDouble].

(** [row.parse(trade.time, trade.price, trade.amount)] *)
Definition parse_trade (row : cursor) : option (trade * cursor) :=
  match parse trade_columns row with
  | Some ([VInt t; VFloat p; VFloat a], row') => Some (Trade t a p, row')
  | _ => None
  end.

(** [read] for trades. *)
Definition read_trades (text : list ascii) (trades : list trade)
    (ec : error) : option (bool * list trade * error) :=
  let trades : list trade := [] in
  match read_rows parse_trade (S (length text))
                  (first_to_last_rows text) trades with
  | None => None
  | Some (true, trades) => Some (true, trades, ec)
  | Some (false, trades) => Some (false, trades, invalid_trade_fields)
  end.

Definition line_estimation : Z := 72.

Definition candle_header : list argument :=
  AText <$> (chars <$> ["time"; "period"; "trades"; "volume"; "vwap_price";
                        "open_price"; "high_price"; "low_price";
                        "close_price"]%string).

Definition candle_row (c : candle) : list argument :=
  [AUInt64 (time c); AUInt32 (period c); AUInt64 (count c);
   ADouble (volume c); ADouble (vwap_price c); ADouble (open_price c);
   ADouble (high_price c); ADouble (low_price c); ADouble (close_price c)].

(** [write] for candles: the bytes handed to [writer::to_file]. *)
Definition write_candles (candles : list candle) : list ascii :=
  let writer := empty_writer in
  let writer :=
    reserve (wrap64 (Z.of_nat (length candles) * line_estimation)) writer in
  let writer := format candle_header writer in
  let writer :=
    fold_left (fun writer c => format (candle_row c) writer) candles writer in
  to_string writer.

Definition trade_row (t : trade) : list argument :=
  [AUInt64 (trade_time t); ADouble (price t); ADouble (amount t)].

(** [write] for trades. *)
Definition write_trades (trades : list trade) : list ascii :=
  let writer := empty_writer in
  let writer :=
    reserve (wrap64 (Z.of_nat (length trades) * line_estimation)) writer in
  let writer :=
    fold_left (fun writer t => format (trade_row t) writer) trades writer in
  to_string writer.

End Swollencandle.

(** ** What the operations are expected to compute *)

Module Spec.

Import Cosevalues Swollencandle.

(** *** Upscaling *)

(** A sequence has one constant period. *)
Definition constant_period (p : Z) (l : list candle) : Prop :=
  Forall (fun c => period c = p) l.

(** The number of trades that the candles count together. *)
Definition total_count (l : list candle) : Z :=
  foldr (fun c n => (count c + n)%Z) 0%Z l.

(** The sum of [x] and the numbers of [l], the greatest and the least of
    them, each taken from the left: a floating-point sum depends on the
    order, and so does an extreme when a NaN is among the numbers. *)
Definition float_sum (x : float) (l : list float) : float :=
  foldl PrimFloat.add x l.

Definition highest (x : float) (l : list float) : float :=
  foldl (fun m y => if PrimFloat.ltb m y then y else m) x l.

Definition lowest (x : float) (l : list float) : float :=
  foldl (fun m y => if PrimFloat.ltb y m then y else m) x l.

(** The candle that the consecutive source candles [first :: rest] are
    aggregated into, at the start of the target period: the counts summed
    (as a [uint64_t]), the volumes summed, the price weighted by volume
    (the turnovers [volume * vwap_price] summed, over the volume), the
    highest high and the lowest low, the open of the first and the close
    of the last. *)
Definition aggregate (period_in_seconds : Z) (first : candle)
    (rest : list candle) : candle :=
  let volume_sum := float_sum (volume first) (volume <$> rest) in
  let turnover :=
    float_sum (vwap_price first * volume first)
              ((fun c => volume c * vwap_price c)%float <$> rest) in
  Candle (time first / period_in_seconds * period_in_seconds)
         period_in_seconds
         (wrap64 (total_count (first :: rest)))
         volume_sum (turnover / volume_sum)
         (open_price first)
         (highest (high_price first) (high_price <$> rest))
         (lowest (low_price first) (low_price <$> rest))
         (close_price (List.last rest first)).

(** The [i]-th run of [k] consecutive elements. *)
Definition run {A : Type} (k i : nat) (l : list A) : list A :=
  take k (drop (i * k) l).

(** The candle of the [i]-th group of [k]. *)
Definition group_candle (pis : Z) (k : nat) (source : list candle) (i : nat)
  : candle :=
  match run k i source with
  | first :: rest => aggregate pis first rest
  | [] => zero_candle
  end.

(** *** Merging *)

(** Both inputs of [merge] have candles, and the first periods differ. *)
Definition merging_periods_differ (x y : list candle) : bool :=
  match x, y with
  | fx :: _, fy :: _ => negb (period fx =? period fy)%Z
  | _, _ => false
  end.

(** *** What the writer appends *)

(** What a floating-point [format_arg] leaves in the buffer: the text when
    it fits the room, the untouched room otherwise. *)
Definition number_text (digits : Z) (text : list ascii) : list ascii :=
  if (Z.of_nat (length text) <=? digits)%Z then text
  else replicate (Z.to_nat digits) NUL.

(** What an integer [format_arg] leaves in the buffer: the text when it
    fits the room; otherwise the room, untouched but for the minus sign of
    a negative value at its front. *)
Definition integer_field (digits : Z) (v : Z) : list ascii :=
  if (Z.of_nat (length (Charconv.integer_text v)) <=? digits)%Z
  then Charconv.integer_text v
  else if (v <? 0)%Z then MINUS :: replicate (Z.to_nat digits - 1) NUL
       else replicate (Z.to_nat digits) NUL.

Definition quoted (s : list ascii) : list ascii := DQUOTE :: s ++ [DQUOTE].

Definition argument_text (a : argument) : list ascii :=
  match a with
  | AText s => quoted s
  | AInt32 z => integer_field int32_digits z
  | AUInt32 z => integer_field uint32_digits z
  | AInt64 z => integer_field int64_digits z
  | AUInt64 z => integer_field uint64_digits z
  | AFloat f => number_text float_digits (Charconv.single_text f)
  | ADouble f => number_text double_digits (Charconv.double_text f)
  end.

(** A floating-point argument that is a NaN.  [to_chars] writes a NaN
    with its sign, [nan] or [-nan], and [float] has one NaN and no sign
    for it. *)
Definition nan_argument (a : argument) : bool :=
  match a with
  | AFloat f | ADouble f => PrimFloat.is_nan f
  | _ => false
  end.

(** The room [format_arg] asks [allocate] for. *)
Definition argument_room (a : argument) : Z :=
  match a with
  | AText s => Z.of_nat (length s) + 2
  | AInt32 _ => int32_digits
  | AUInt32 _ => uint32_digits
  | AInt64 _ => int64_digits
  | AUInt64 _ => uint64_digits
  | AFloat _ => float_digits
  | ADouble _ => double_digits
  end.

(** A row: the fields joined by commas, then a newline. *)
Fixpoint row_text (args : list argument) : list ascii :=
  match args with
  | [] => []
  | a :: args' =>
      argument_text a
        ++ match args' with
           | [] => [LF]
           | _ :: _ => COMMA :: row_text args'
           end
  end.

Definition row_room (args : list argument) : Z :=
  foldr (fun a r => argument_room a + 1 + r)%Z 0%Z args.

(** Fields joined by commas, closed by a newline. *)
Fixpoint fields_text (texts : list (list ascii)) : list ascii :=
  match texts with
  | [] => []
  | t :: texts' =>
      t ++ match texts' with
           | [] => [LF]
           | _ :: _ => COMMA :: fields_text texts'
           end
  end.

(** The header line the candle writer starts with, and the line without
    the quotes. *)
Definition quoted_header_line : list ascii :=
  quoted (chars "time") ++ COMMA :: quoted (chars "period")
    ++ COMMA :: quoted (chars "trades") ++ COMMA :: quoted (chars "volume")
    ++ COMMA :: quoted (chars "vwap_price")
    ++ COMMA :: quoted (chars "open_price")
    ++ COMMA :: quoted (chars "high_price")
    ++ COMMA :: quoted (chars "low_price")
    ++ COMMA :: quoted (chars "close_price") ++ [LF].

Definition plain_header_line : list ascii :=
  chars "time,period,trades,volume,vwap_price,open_price,high_price,low_price,close_price"
    ++ [LF].

(** [ds] is the decimal representation of [v] without leading zeros. *)
Definition minimal_decimal (v : Z) (ds : list ascii) : Prop :=
  ds <> []
  /\ Forall (fun d => is_digit d = true) ds
  /\ digits_value 0 ds = v
  /\ (hd NUL ds = "0"%char -> ds = ["0"%char]).

(** *** Rows and numeric fields of a text *)

(** [c'] is reached from [c] over characters of the same line only. *)
Definition within_line (a : ascii) : Prop := a <> LF /\ a <> NUL.

Definition consumed (c c' : cursor) : Prop :=
  exists used : list ascii, c = used ++ c' /\ Forall within_line used.

(** A row parser that stays on the line of the row and takes at least one
    character. *)
Definition line_local {A : Type} (parse_row : cursor -> option (A * cursor))
  : Prop :=
  forall c entry c',
    parse_row c = Some (entry, c') ->
    consumed c c' /\ (length c' < length c)%nat.

(** The rows of a text as the positions where they start: each row starts
    where the line after the previous one does, after white space.  A position
    on a NUL character inside the text has no next row. *)
Fixpoint rows_from (fuel : nat) (it : cursor) : list cursor :=
  match fuel with
  | O => []
  | S fuel' =>
      if at_end it then []
      else it :: (if same_position (next_row it) it then []
                  else rows_from fuel' (next_row it))
  end.

Definition all_rows (text : list ascii) : list cursor :=
  rows_from (S (length text)) (first_to_last_rows text).

Definition rows_after_header (text : list ascii) : list cursor :=
  rows_from (S (length text)) (second_to_last_rows text).

(** The entries of the rows in front of the first row that fails, and
    whether none failed. *)
Fixpoint collect {A : Type} (parse_row : cursor -> option (A * cursor))
    (rows : list cursor) (entries : list A) : bool * list A :=
  match rows with
  | [] => (true, entries)
  | r :: rows' =>
      match parse_row r with
      | None => (false, entries)
      | Some (entry, _) => collect parse_row rows' (entries ++ [entry])
      end
  end.

(** [entries] are what the rows [good] parse to, in order. *)
Definition parsed_from {A : Type} (parse_row : cursor -> option (A * cursor))
    (good : list cursor) (entries : list A) : Prop :=
  Forall2 (fun r entry => exists c', parse_row r = Some (entry, c'))
          good entries.

(** Some row of [rows] does not parse. *)
Definition some_row_fails {A : Type}
    (parse_row : cursor -> option (A * cursor)) (rows : list cursor) : Prop :=
  exists r, r ∈ rows /\ parse_row r = None.

(** The values of the integer types. *)
Definition int_range (k : kind) : option (Z * Z) :=
  match k with
  | KInt32 => Some (- 2 ^ 31, 2 ^ 31 - 1)
  | KUInt32 => Some (0, 2 ^ 32 - 1)
  | KInt64 => Some (- 2 ^ 63, 2 ^ 63 - 1)
  | KUInt64 => Some (0, 2 ^ 64 - 1)
  | _ => None
  end%Z.

(** Precision and infinity exponent of the floating-point types. *)
Definition float_format (k : kind) : option (Z * Z) :=
  match k with
  | KFloat => Some (24, 128)
  | KDouble => Some (53, 1024)
  | _ => None
  end%Z.

(** A non-empty run of decimal digits. *)
Definition is_digits (ds : list ascii) : Prop :=
  ds <> [] /\ Forall (fun d => is_digit d = true) ds.

(** *** Numerals *)

Definition all_digits (ds : list ascii) : Prop :=
  Forall (fun d => is_digit d = true) ds.

(** The sign in front of a numeral: a minus sign or nothing.  No numeral
    has a plus sign. *)
Definition sign_text (neg : bool) : list ascii :=
  if neg then [MINUS] else [].

(** The types whose numerals may have a minus sign. *)
Definition is_signed (k : kind) : bool :=
  match k with
  | KInt32 | KInt64 | KFloat | KDouble => true
  | _ => false
  end.

(** A text starts an integer numeral: with a digit, or for a signed type
    with a minus sign and a digit. *)
Definition starts_int_numeral (signed : bool) (s : list ascii) : Prop :=
  is_digit (peek s) = true
  \/ (signed = true /\ exists t, s = MINUS :: t /\ is_digit (peek t) = true).

(** A text starts a floating-point numeral: behind the sign, if there is
    one, with a digit, with a point and a digit, or with [inf] or [nan] in
    letters of any case. *)
Definition starts_float_numeral (s : list ascii) : Prop :=
  exists (neg : bool) (body : list ascii),
    s = sign_text neg ++ body
    /\ (is_digit (peek body) = true
        \/ (exists t, body = DOT :: t /\ is_digit (peek t) = true)
        \/ Charconv.lower <$> take 3 body = chars "inf"
        \/ Charconv.lower <$> take 3 body = chars "nan").

Definition starts_numeral (k : kind) (s : list ascii) : Prop :=
  match k with
  | KFloat | KDouble => starts_float_numeral s
  | KString => False
  | _ => starts_int_numeral (is_signed k) s
  end.

(** The sign of an exponent. *)
Inductive exponent_sign : Type := no_sign | plus_sign | minus_sign.

Definition exponent_sign_text (sg : exponent_sign) : list ascii :=
  match sg with
  | no_sign => []
  | plus_sign => [PLUS]
  | minus_sign => [MINUS]
  end.

(** The parts of a decimal floating-point numeral: the sign, the digits in
    front of the point, the digits behind the point when there is a point,
    and the letter, the sign and the digits of the exponent when there is
    an exponent. *)
Record decimal_numeral : Type := DecimalNumeral {
  negative : bool;
  integer_digits : list ascii;
  fraction : option (list ascii);
  exponent : option (ascii * exponent_sign * list ascii)
}.

Definition fraction_digits (n : decimal_numeral) : list ascii :=
  default [] (fraction n).

Definition numeral_text (n : decimal_numeral) : list ascii :=
  sign_text (negative n) ++ integer_digits n
    ++ match fraction n with
       | None => []
       | Some fp => DOT :: fp
       end
    ++ match exponent n with
       | None => []
       | Some (e, sg, ed) => e :: exponent_sign_text sg ++ ed
       end.

(** There is a digit in front of the point or behind it, the exponent is
    written with [e] or [E] and has a digit. *)
Definition well_formed (n : decimal_numeral) : Prop :=
  all_digits (integer_digits n) /\ all_digits (fraction_digits n)
  /\ integer_digits n ++ fraction_digits n <> []
  /\ match exponent n with
     | None => True
     | Some (e, _, ed) => Charconv.lower e = "e"%char /\ is_digits ed
     end.

(** The numeral stands for [numeral_mantissa * 10 ^ numeral_exponent], with
    its sign. *)
Definition numeral_mantissa (n : decimal_numeral) : Z :=
  digits_value 0 (integer_digits n ++ fraction_digits n).

Definition numeral_exponent (n : decimal_numeral) : Z :=
  (match exponent n with
   | None => 0
   | Some (_, minus_sign, ed) => - digits_value 0 ed
   | Some (_, _, ed) => digits_value 0 ed
   end - Z.of_nat (length (fraction_digits n)))%Z.

(** [junk] starts as an exponent does: [e] or [E], a sign or none, and a
    digit. *)
Definition starts_exponent (junk : list ascii) : bool :=
  match junk with
  | a :: t =>
      Ascii.eqb (Charconv.lower a) "e"%char
      && (is_digit (peek t)
          || ((Ascii.eqb (peek t) PLUS || Ascii.eqb (peek t) MINUS)
              && is_digit (peek (advance t))))
  | [] => false
  end.

(** What follows the numeral does not make it longer: no digit follows, no
    point follows a numeral that has neither point nor exponent, and no
    exponent follows a numeral without one. *)
Definition numeral_ends (n : decimal_numeral) (junk : list ascii) : Prop :=
  is_digit (peek junk) = false
  /\ (fraction n = None -> exponent n = None -> peek junk <> DOT)
  /\ (exponent n = None -> starts_exponent junk = false).

(** The value of the decimal [m * 10 ^ e10] with its sign in a
    floating-point type: the nearest number of the type.  A decimal that
    rounds to an infinity is out of range, and so is one that is not zero
    and rounds to zero. *)
Definition decimal_value (prec emax : Z) (neg : bool) (m e10 : Z)
  : option float :=
  match Charconv.decimal_to_SF prec emax neg m e10 with
  | S754_finite sg mm ee => Some (SF2Prim (S754_finite sg mm ee))
  | S754_zero sg => if (m =? 0)%Z then Some (SF2Prim (S754_zero sg)) else None
  | _ => None
  end.

(** The value of the integer [v] in an integer type. *)
Definition integer_value (lo hi v : Z) : option Z :=
  if ((lo <=? v) && (v <=? hi))%Z then Some v else None.

(** [field] is what [scan_token] takes in front of [rest]. *)
Definition bare_field (field rest : list ascii) : Prop :=
  Forall (fun a => ends_token a = false) field
  /\ match rest with
     | [] => True
     | a :: _ => ends_token a = true
     end.

(** *** Candles that are written and read back *)

(** The invariants of a candle that can be told from the candle alone (how
    [vwap_price] relates to the trades folded into it cannot), and the ranges
    of its integer fields. *)
Definition valid_candle (c : candle) : Prop :=
  (0 <= time c < 2 ^ 64)%Z /\ (0 < period c < 2 ^ 32)%Z
  /\ (1 <= count c < 2 ^ 64)%Z
  /\ (time c mod period c = 0)%Z
  /\ PrimFloat.leb 0 (volume c) = true
  /\ PrimFloat.leb (low_price c) (open_price c) = true
  /\ PrimFloat.leb (low_price c) (close_price c) = true
  /\ PrimFloat.leb (low_price c) (high_price c) = true
  /\ PrimFloat.leb (open_price c) (high_price c) = true
  /\ PrimFloat.leb (close_price c) (high_price c) = true.

(** [text] is a bare field that parses to [v] as a field of kind [k]: it
    starts a token, holds nothing that ends one, and converts to [v]. *)
Definition good_field (k : kind) (text : list ascii) (v : value) : Prop :=
  is_whitespace (hd NUL text) = false
  /\ hd NUL text <> DQUOTE
  /\ text <> []
  /\ Forall (fun a => ends_token a = false) text
  /\ try_parse k text = Some v.

(** The [double] is written in at most 32 characters that read back as the
    same [double].  The C++ standard promises this of [to_chars] and
    [from_chars] for every finite value; for a given value it is checked by
    evaluation. *)
Definition double_round_trips (f : float) : Prop :=
  (length (Charconv.double_text f) <= 32)%nat
  /\ good_field KDouble (Charconv.double_text f) (VFloat f).

(** A candle whose integer fields fit the room the writer gives them and
    whose [double]s round-trip. *)
Definition round_trip_candle (c : candle) : Prop :=
  (0 <= time c < 10 ^ 18)%Z /\ (0 <= period c < 2 ^ 32)%Z
  /\ (0 <= count c < 10 ^ 18)%Z
  /\ double_round_trips (volume c) /\ double_round_trips (vwap_price c)
  /\ double_round_trips (open_price c) /\ double_round_trips (high_price c)
  /\ double_round_trips (low_price c) /\ double_round_trips (close_price c).

(** *** What a successful [upscale] returns *)

(** The source itself when it has the target period already, the candles
    of its whole groups otherwise. *)
Definition upscaled (source : list candle) (up : upscale_period)
  : list candle :=
  match source with
  | [] => []
  | front :: _ =>
      if (seconds_in up =? period front)%Z then source
      else group_candle (seconds_in up)
             (Z.to_nat (seconds_in up / period front)) source
           <$> seq 0 (length source / Z.to_nat (seconds_in up / period front))
  end.

(** The names of the periods, and their order from fine to coarse. *)
Definition period_name (up : upscale_period) : string :=
  match up with
  | minute => "minute"
  | hour => "hour"
  | day => "day"
  | month => "month"
  | year => "year"
  end.

Definition period_rank (up : upscale_period) : nat :=
  match up with
  | minute => 0
  | hour => 1
  | day => 2
  | month => 3
  | year => 4
  end.

(** *** Candles from trades *)

(** The start of the period of [s] seconds that holds the time [t]. *)
Definition period_start (s t : Z) : Z := (t / s * s)%Z.

(** The candle that the first trade of a period opens, and the turnover
    that goes with it: what [upscale] sets up in front of its loop, and
    again where the period changes.  ([vwap_price] is assigned when the
    candle is pushed.) *)
Definition open_candle (s : Z) (t : trade) : candle * float :=
  (Candle (period_start s (trade_time t)) s 1 (amount t) 0
          (price t) (price t) (price t) (price t),
   (amount t * price t)%float).

(** One more trade in the candle: the [else] branch of the loop. *)
Definition add_trade (st : candle * float) (t : trade) : candle * float :=
  let '(c, turnover) := st in
  (Candle (time c) (period c) (wrap64 (count c + 1))
          (volume c + amount t)%float (vwap_price c) (open_price c)
          (if PrimFloat.ltb (high_price c) (price t)
           then price t else high_price c)
          (if PrimFloat.ltb (high_price c) (price t) then low_price c
           else if PrimFloat.ltb (price t) (low_price c)
                then price t else low_price c)
          (price t),
   (turnover + price t * amount t)%float).

(** The candle of the trades [first :: rest], taken in this order. *)
Definition trades_candle (s : Z) (first : trade) (rest : list trade)
  : candle :=
  let '(c, turnover) := foldl add_trade (open_candle s first) rest in
  flush c turnover.

(** The time of the trade lies in the period of the candle. *)
Definition in_period (c : candle) (t : trade) : Prop :=
  (time c <= trade_time t < time c + period c)%Z.

#[global] Instance in_period_dec c t : Decision (in_period c t).
Proof. unfold in_period. apply _. Defined.

(** Trades in the order of their times. *)
Definition time_ordered (trades : list trade) : Prop :=
  StronglySorted (fun a b => (trade_time a <= trade_time b)%Z) trades.

(** All times are [uint64_t] values below [bound]. *)
Definition trade_times_below (bound : Z) (trades : list trade) : Prop :=
  Forall (fun t => (0 <= trade_time t < bound)%Z) trades.

(** Candles that differ in [vwap_price] at most. *)
Definition alike (c c' : candle) : Prop :=
  forall turnover, flush c turnover = flush c' turnover.

(** *** What [merge] keeps *)

(** The first candle of [l] at the time [t]. *)
Definition first_at (t : Z) (l : list candle) : option candle :=
  head (filter (fun c => time c = t) l).

(** Every candle of [y] is equal, by [operator==], to the candle that is
    first at its time among [x] and the candles of [y] in front of it, when
    there is one. *)
Definition agrees_with_earlier (x y : list candle) : Prop :=
  forall (i : nat) (c c' : candle),
    y !! i = Some c -> first_at (time c) (x ++ take i y) = Some c' ->
    candle_eqb c' c = true.

(** Where [x] and [y] have a candle at the same time, the two are equal by
    [operator==]. *)
Definition agree_at_shared_times (x y : list candle) : Prop :=
  forall cx cy : candle,
    cx ∈ x -> cy ∈ y -> time cx = time cy -> candle_eqb cx cy = true.

(** *** Text fields *)

(** The text with every double quote doubled, as it stands between the
    quotes of a quoted field. *)
Fixpoint escape (s : list ascii) : list ascii :=
  match s with
  | [] => []
  | a :: s' =>
      if Ascii.eqb a DQUOTE then DQUOTE :: DQUOTE :: escape s'
      else a :: escape s'
  end.

(** The text with a carriage return in front of every newline. *)
Fixpoint crlf (s : list ascii) : list ascii :=
  match s with
  | [] => []
  | a :: s' =>
      if Ascii.eqb a LF then CR :: LF :: crlf s' else a :: crlf s'
  end.

(** *** Trades that are written and read back *)

(** A trade whose time fits the room the writer gives it and whose
    [double]s round-trip. *)
Definition round_trip_trade (t : trade) : Prop :=
  (0 <= trade_time t < 10 ^ 18)%Z
  /\ double_round_trips (price t) /\ double_round_trips (amount t).

(** *** Sample inputs *)

(** Sample candles. *)
Definition sample_candle : candle := Candle 0 60 2 2 10.5 10 11 10 11.
Definition stale_candle : candle := Candle 86400 60 1 1 9 9 9 9 9.
Definition half_hour (t : Z) (v : float) : candle :=
  Candle t 1800 1 v v v v v v.

(** Sixty one-minute candles, the [i]-th with volume 1 and price [i]. *)
Definition minute_candle (i : nat) : candle :=
  let p := PrimFloat.of_uint63 (Uint63.of_Z (Z.of_nat i)) in
  Candle (60 * (Z.of_nat i - 1)) 60 1 1 p p p p p.

Definition one_hour_of_minutes : list candle := minute_candle <$> seq 1 60.

(** A candle whose time has 19 digits, and one whose period is zero. *)
Definition late_candle : candle := Candle (10 ^ 18) 1 1 1 1 1 1 1 1.
Definition zero_period_candle : candle := Candle 0 0 1 1 1 1 1 1 1.

(** A text in which the row after a parsed candle row does not parse. *)
Definition text_with_bad_row : list ascii :=
  write_candles [sample_candle] ++ chars "12,x" ++ [LF]
    ++ chars "1,1,1,1,1,1,1,1,1" ++ [LF].

Definition trades_with_bad_row : list ascii :=
  chars "0,10,1" ++ [LF] ++ chars "10;11;1" ++ [LF].

(** Trades of three minutes, in the order of their times. *)
Definition sample_trades : list trade :=
  [Trade 0 1 10; Trade 30 2 11; Trade 60 1 12; Trade 150 1 9].

End Spec.

(** ** The operations on small inputs *)

Module Examples.

Import Charconv Cosevalues Swollencandle Spec.

Example parse_upscale_period_names :
  parse_upscale_period (chars "hour") = Some hour
  /\ parse_upscale_period (chars "day") = Some day
  /\ parse_upscale_period (chars "month") = Some month
  /\ parse_upscale_period (chars "year") = Some year
  /\ parse_upscale_period (chars "minute") = Some minute
  /\ parse_upscale_period (chars "") = None
  /\ parse_upscale_period (chars "unknown") = None
  /\ parse_upscale_period (chars "Hour") = None.
Proof. repeat split; reflexivity. Qed.

Example trades_to_minute_candles :
  upscale_trades [Trade 0 1 10; Trade 10 1 11; Trade 70 1 9] [] minute ok
  = Returns (true,
             [Candle 0 60 2 2 10.5 10 11 10 11; Candle 60 60 1 1 9 9 9 9 9],
             ok).
Proof. vm_compute. reflexivity. Qed.

Example no_trades_no_candles :
  upscale_trades [] [] minute ok = Returns (true, [], ok)
  /\ upscale [] [] hour ok = Returns (true, [], ok).
Proof. split; reflexivity. Qed.

Example upscale_minutes_to_hour :
  upscale one_hour_of_minutes [] hour ok
  = Returns (true, [Candle 0 3600 60 60 30.5 1 60 1 60], ok).
Proof. vm_compute. reflexivity. Qed.

Example aggregate_of_runs :
  aggregate 3600 (half_hour 0 1) [half_hour 1800 3]
  = Candle 0 3600 2 4 2.5 1 3 1 3
  /\ aggregate 3600 (minute_candle 1) (minute_candle <$> seq 2 59)
     = Candle 0 3600 60 60 30.5 1 60 1 60.
Proof. split; vm_compute; reflexivity. Qed.

Example upscale_rejects_seven_seconds :
  upscale [Candle 0 7 1 1 1 1 1 1 1] [] hour ok
  = Returns (false, [], invalid_upscale_period).
Proof. vm_compute. reflexivity. Qed.

Example upscale_rejects_mixed_periods :
  upscale [Candle 0 60 1 1 1 1 1 1 1; Candle 60 30 1 1 1 1 1 1 1] [] hour ok
  = Returns (false, [], non_constant_period).
Proof. vm_compute. reflexivity. Qed.

Example upscale_does_not_look_at_times :
  upscale [half_hour 7200 1; half_hour 0 3] [] hour ok
  = Returns (true, [Candle 7200 3600 2 4 2.5 1 3 1 3], ok).
Proof. vm_compute. reflexivity. Qed.

Example merge_with_itself :
  merge [stale_candle; sample_candle] [stale_candle; sample_candle] [] ok
  = (true, [sample_candle; stale_candle], ok).
Proof. vm_compute. reflexivity. Qed.

Example merge_conflict :
  merge [Candle 0 60 1 1 1 1 1 1 1] [Candle 0 60 1 1 1 1 1 1 2] [] ok
  = (false, [], mismatched_candles).
Proof. vm_compute. reflexivity. Qed.

Example merge_periods_mismatch :
  merge [Candle 0 60 1 1 1 1 1 1 1] [Candle 0 30 1 1 1 1 1 1 1] [] ok
  = (false, [], merging_periods_mismatch).
Proof. vm_compute. reflexivity. Qed.

Example quoted_field :
  parse [KInt32; KString; KDouble]
        (chars "1," ++ quoted (chars "a" ++ [DQUOTE; DQUOTE] ++ chars "b")
           ++ chars ",2.5")
  = Some ([VInt 1; VString (chars "a" ++ [DQUOTE] ++ chars "b"); VFloat 2.5],
          []).
Proof. vm_compute. reflexivity. Qed.

Example too_many_fields :
  parse [KInt32; KInt32; KInt32] (chars "1,2,3,4") = None.
Proof. vm_compute. reflexivity. Qed.

Example unterminated_quote :
  parse [KInt32; KString] (chars "1," ++ DQUOTE :: chars "unterminated") = None.
Proof. vm_compute. reflexivity. Qed.

Example spaces_around_fields :
  parse [KUInt64; KDouble; KDouble]
        (first_to_last_rows (chars "  7 ,  1.5e1 , -0.25  "))
  = Some ([VInt 7; VFloat 15; VFloat (-0.25)], []).
Proof. vm_compute. reflexivity. Qed.

Example overflow_fails :
  parse [KUInt32] (chars "4294967296") = None
  /\ parse [KUInt32] (chars "4294967295") = Some ([VInt 4294967295], [])
  /\ parse [KDouble] (chars "1e999") = None.
Proof. repeat split; vm_compute; reflexivity. Qed.

Example numeral_prefixes :
  try_parse KDouble (chars "12.e5x") = Some (VFloat 1200000)
  /\ try_parse KDouble (chars "12eabc") = Some (VFloat 12)
  /\ try_parse KDouble (chars "1e-2.5") = Some (VFloat 0.01)
  /\ try_parse KDouble (chars "-.5") = Some (VFloat (-0.5))
  /\ try_parse KDouble (chars "INFINITYx") = Some (VFloat infinity)
  /\ try_parse KDouble (chars "+1") = None
  /\ try_parse KDouble (chars ".e5") = None
  /\ try_parse KDouble (chars "1e-400") = None
  /\ try_parse KFloat (chars "1e39") = None
  /\ try_parse KInt32 (chars "-12abc") = Some (VInt (-12))
  /\ try_parse KInt32 (chars "-2147483649") = None
  /\ try_parse KUInt32 (chars "-12") = None.
Proof. repeat split; vm_compute; reflexivity. Qed.

Example written_integers_without_room :
  to_string (format [AInt64 (- 10 ^ 18); AUInt64 (10 ^ 18); AInt32 (- 2 ^ 31)]
                    empty_writer)
  = MINUS :: replicate 18 NUL ++ COMMA :: replicate 18 NUL
      ++ COMMA :: chars "-2147483648" ++ [LF].
Proof. vm_compute. reflexivity. Qed.

Example written_candles :
  write_candles [sample_candle]
  = quoted_header_line ++ chars "0,60,2,2,10.5,10,11,10,11" ++ [LF].
Proof. vm_compute. reflexivity. Qed.

Example written_trades :
  write_trades [Trade 0 1 10; Trade 70 0.5 9]
  = chars "0,10,1" ++ [LF] ++ chars "70,9,0.5" ++ [LF].
Proof. vm_compute. reflexivity. Qed.

Example read_written_candles :
  read_candles (write_candles [sample_candle; stale_candle]) [] ok
  = Some (true, [sample_candle; stale_candle], ok).
Proof. vm_compute. reflexivity. Qed.

Example shortest_double_text :
  double_text 0.1 = chars "0.1" /\ double_text 100000 = chars "1e+05"
  /\ double_text 10000 = chars "10000" /\ double_text (-2.5) = chars "-2.5"
  /\ double_text 1e23 = chars "1e+23".
Proof. repeat split; vm_compute; reflexivity. Qed.

End Examples.

(** ** Lists *)

Module ListFacts.

Lemma StronglySorted_lookup_lt {A : Type} (R : A -> A -> Prop) (l : list A) :
  StronglySorted R l ->
  forall (i j : nat) (a b : A),
    (i < j)%nat -> l !! i = Some a -> l !! j = Some b -> R a b.
Proof.
  induction 1 as [|x l _ IH Hall]; intros i j a b Hij Ha Hb; [done|].
  destruct j as [|j]; [lia|]. cbn in Hb.
  destruct i as [|i]; cbn in Ha.
  - injection Ha as ->. eapply Forall_forall in Hall; [done|].
    by eapply list_elem_of_lookup_2.
  - apply (IH i j); [lia|done..].
Qed.

Lemma StronglySorted_le_NoDup (l : list Z) :
  StronglySorted Z.le l -> NoDup l -> StronglySorted Z.lt l.
Proof.
  induction 1 as [|a l _ IH Hall]; intros Hnd; [constructor|].
  apply NoDup_cons in Hnd as [Ha Hnd].
  constructor; [by apply IH|].
  apply Forall_forall. intros b Hb.
  eapply Forall_forall in Hall; [|exact Hb].
  assert (a <> b) by (intros ->; done). lia.
Qed.

Lemma filter_all {A : Type} (P : A -> Prop) `{forall a, Decision (P a)}
    (l : list A) :
  Forall P l -> filter P l = l.
Proof.
  induction 1 as [|a l Ha _ IH]; [done|].
  by rewrite filter_cons_True, IH.
Qed.

Lemma filter_none {A : Type} (P : A -> Prop) `{forall a, Decision (P a)}
    (l : list A) :
  Forall (fun a => ~ P a) l -> filter P l = [].
Proof.
  induction 1 as [|a l Ha _ IH]; [done|].
  by rewrite filter_cons_False, IH.
Qed.

End ListFacts.

(** ** Upscaling candles *)

Module UpscaleFacts.

Import Cosevalues Swollencandle Spec.

Lemma at_index_lookup {A : Type} (v : list A) (i : nat) (a : A) :
  v !! i = Some a -> at_index v i = Returns a.
Proof. unfold at_index. by intros ->. Qed.

Lemma group_loop_run (source : list candle) :
  forall (l : list candle) (a : nat) (g : group),
    take (length l) (drop a source) = l ->
    group_loop source (seq a (length l)) g = Returns (foldl group_add g l).
Proof.
  induction l as [|c l IH]; intros a g Hl; [done|].
  simpl in Hl. simpl.
  destruct (drop a source) as [|c' tl] eqn:Hd; [done|].
  simpl in Hl. injection Hl as -> Hl.
  assert (Hc : source !! a = Some c).
  { rewrite <- (Nat.add_0_r a), <- lookup_drop, Hd. done. }
  rewrite (at_index_lookup _ _ _ Hc). simpl.
  apply IH.
  rewrite (drop_S _ _ _ Hc) in Hd. by injection Hd as ->.
Qed.

(** What the inner loop leaves in its running values, one by one. *)
Lemma group_loop_values (rest : list candle) :
  forall g : group,
    foldl group_add g rest
    = Group (foldl (fun n c => wrap64 (n + count c)) (g_count g) rest)
            (float_sum (g_volume g) (volume <$> rest))
            (float_sum (g_turnover g)
                       ((fun c => volume c * vwap_price c)%float <$> rest))
            (highest (g_high_price g) (high_price <$> rest))
            (lowest (g_low_price g) (low_price <$> rest)).
Proof.
  induction rest as [|c rest IH]; intros g; [by destruct g|].
  cbn [foldl fmap list_fmap]. unfold float_sum, highest, lowest.
  cbn [foldl]. by rewrite IH.
Qed.

(** Wrapping after each addition is wrapping the sum. *)
Lemma wrapped_count_sum (rest : list candle) :
  forall n : Z,
    foldl (fun n c => wrap64 (n + count c)) (wrap64 n) rest
    = wrap64 (n + total_count rest).
Proof.
  induction rest as [|c rest IH]; intros n.
  - cbn. by rewrite Z.add_0_r.
  - cbn [foldl total_count foldr]. fold (total_count rest).
    replace (wrap64 (wrap64 n + count c)) with (wrap64 (n + count c))
      by (unfold wrap64; by rewrite Zplus_mod_idemp_l).
    rewrite IH. f_equal. lia.
Qed.

Lemma upscale_group_run (source : list candle) (pis : Z) (ctf j : nat)
    (first : candle) (rest : list candle) :
  pis <> 0%Z ->
  (2 <= ctf)%nat ->
  take ctf (drop j source) = first :: rest ->
  length rest = (ctf - 1)%nat ->
  upscale_group source pis ctf j = Returns (aggregate pis first rest).
Proof.
  intros Hpis Hctf Hrun Hlen.
  destruct ctf as [|ctf]; [done|].
  simpl in Hlen. rewrite Nat.sub_0_r in Hlen.
  destruct (drop j source) as [|c tl] eqn:Hd; [done|].
  simpl in Hrun. injection Hrun as -> Hrest.
  assert (Hfirst : source !! j = Some first).
  { rewrite <- (Nat.add_0_r j), <- lookup_drop, Hd. done. }
  assert (Htl : drop (j + 1) source = tl).
  { rewrite (drop_S _ _ _ Hfirst) in Hd. rewrite Nat.add_1_r.
    by injection Hd as ->. }
  unfold upscale_group.
  replace (S ctf - 1)%nat with (length rest) by lia.
  rewrite (at_index_lookup _ _ _ Hfirst). cbn [mbind outcome_bind].
  rewrite (group_loop_run source rest (j + 1)) by (rewrite Htl; congruence).
  cbn [mbind outcome_bind]. unfold udiv.
  destruct (Z.eqb_spec pis 0) as [|_]; [done|]. cbn [mbind outcome_bind].
  assert (Hlast : source !! (j + S ctf - 1)%nat = Some (List.last rest first)).
  { destruct ctf as [|ctf].
    - destruct rest; [|done]. simpl.
      replace (j + 1 - 1)%nat with j by lia. done.
    - replace (j + S (S ctf) - 1)%nat with ((j + 1) + ctf)%nat by lia.
      rewrite <- lookup_drop, Htl.
      assert (Hl : tl !! ctf = rest !! ctf).
      { rewrite <- Hrest. rewrite lookup_take_lt; [done|lia]. }
      rewrite Hl.
      destruct rest as [|r rest] using rev_ind; [done|].
      rewrite List.last_last.
      rewrite length_app in Hlen. simpl in Hlen.
      rewrite lookup_app_r by lia.
      replace (ctf - length rest)%nat with 0%nat by lia. done. }
  rewrite (at_index_lookup _ _ _ Hlast). cbn [mbind outcome_bind mret outcome_ret].
  rewrite group_loop_values.
  cbn [g_count g_volume g_turnover g_high_price g_low_price].
  unfold aggregate. do 2 f_equal.
  destruct rest as [|c rest]; [simpl in Hlen; lia|].
  cbn [foldl total_count foldr]. fold (total_count rest).
  rewrite wrapped_count_sum. f_equal. lia.
Qed.

Lemma upscale_loop_inserts (source : list candle) (pis : Z) (ctf : nat)
    (g : nat -> candle) :
  forall (indices : list nat) (result : list candle),
    Forall (fun i => upscale_group source pis ctf (i * ctf) = Returns (g i))
           indices ->
    upscale_loop source pis ctf indices result
    = Returns (foldl (fun r i => <[i := g i]> r) result indices).
Proof.
  induction indices as [|i indices IH]; intros result Hall; [done|].
  inversion Hall as [|? ? Hi Hrest]; subst.
  cbn [upscale_loop foldl]. rewrite Hi. cbn [mbind outcome_bind].
  by apply IH.
Qed.

Lemma foldl_insert_seq (g : nat -> candle) (result : list candle) :
  forall m : nat,
    (m <= length result)%nat ->
    foldl (fun r i => <[i := g i]> r) result (seq 0 m)
    = (g <$> seq 0 m) ++ drop m result.
Proof.
  induction m as [|m IH]; intros Hm; [done|].
  rewrite seq_S, foldl_app, fmap_app. cbn [foldl fmap list_fmap Nat.add].
  rewrite IH by lia.
  destruct (lookup_lt_is_Some_2 result m) as [x Hx]; [lia|].
  rewrite (drop_S _ _ _ Hx).
  rewrite insert_app_r_alt by (rewrite length_fmap, length_seq; lia).
  rewrite length_fmap, length_seq, Nat.sub_diag. cbn [list_insert].
  by rewrite <- app_assoc.
Qed.

Lemma check_integrity_loop_constant (p : Z) (rest : list candle) (ec : error) :
  Forall (fun c => period c = p) rest ->
  check_integrity_loop p rest ec = (true, ec).
Proof.
  induction 1 as [|c rest Hc _ IH]; [done|].
  cbn [check_integrity_loop]. rewrite Hc, Z.eqb_refl. done.
Qed.

Lemma check_integrity_loop_mixed (p : Z) (rest : list candle) (ec : error) :
  ~ Forall (fun c => period c = p) rest ->
  check_integrity_loop p rest ec = (false, non_constant_period).
Proof.
  induction rest as [|c rest IH]; intros Hmixed.
  - destruct Hmixed. constructor.
  - cbn [check_integrity_loop].
    destruct (Z.eqb_spec (period c) p) as [Hc|Hc]; [|done].
    cbn [negb]. apply IH. intros Hrest. apply Hmixed. by constructor.
Qed.

Lemma run_full {A : Type} (k i : nat) (l : list A) :
  (0 < k)%nat -> (i < length l / k)%nat ->
  exists first rest,
    run k i l = first :: rest /\ length rest = (k - 1)%nat.
Proof.
  intros Hk Hi.
  assert (Hlen : length (run k i l) = k).
  { unfold run. rewrite length_take, length_drop.
    pose proof (Nat.Div0.mul_div_le (length l) k) as Hle.
    assert (S i * k <= length l / k * k)%nat
      by (apply Nat.mul_le_mono_r; lia).
    lia. }
  destruct (run k i l) as [|first rest]; simpl in Hlen; [lia|].
  exists first, rest. split; [done|lia].
Qed.

(** The grouping branch of [upscale]. *)
Lemma upscale_grouped (source result : list candle) (up : upscale_period)
    (ec : error) (p k : Z) :
  source <> [] ->
  constant_period p source ->
  (2 <= k)%Z ->
  seconds_in up = (k * p)%Z ->
  upscale source result up ec
  = Returns (true,
             group_candle (seconds_in up) (Z.to_nat k) source
               <$> seq 0 (length source / Z.to_nat k),
             ec).
Proof.
  intros Hne Hconst Hk Hsec.
  destruct source as [|front rest]; [done|].
  assert (Hp : (0 < p)%Z) by (destruct up; simpl in Hsec; nia).
  inversion Hconst as [|? ? Hfront Hrest]; subst.
  unfold upscale, check_integrity.
  rewrite (check_integrity_loop_constant _ _ _ Hrest). cbn [negb].
  unfold umod. destruct (Z.eqb_spec (period front) 0) as [|_]; [lia|].
  cbn [mbind outcome_bind].
  rewrite Hsec, Z.mod_mul by lia. cbn [Z.eqb negb].
  destruct (Z.eqb_spec (k * period front) (period front)) as [|_]; [nia|].
  unfold udiv. destruct (Z.eqb_spec (period front) 0) as [|_]; [lia|].
  cbn [mbind outcome_bind]. rewrite Z.div_mul by lia.
  destruct (Z.eqb_spec k 0) as [|_]; [lia|].
  cbn [mbind outcome_bind].
  set (n := Z.to_nat (Z.of_nat (length (front :: rest)) / k)).
  assert (Hn : n = (length (front :: rest) / Z.to_nat k)%nat).
  { unfold n. rewrite <- (Z2Nat.id k) at 1 by lia.
    rewrite <- Nat2Z.inj_div. apply Nat2Z.id. }
  assert (Hres : length (vector_resize n result) = n).
  { unfold vector_resize.
    rewrite length_app, length_take, length_replicate. lia. }
  rewrite Hres.
  rewrite (upscale_loop_inserts _ _ _
             (group_candle (k * period front) (Z.to_nat k) (front :: rest))).
  - cbn [mbind outcome_bind].
    rewrite foldl_insert_seq by lia.
    rewrite drop_ge by lia. rewrite app_nil_r, Hn. done.
  - apply Forall_forall. intros i Hi. apply elem_of_seq in Hi.
    destruct (run_full (Z.to_nat k) i (front :: rest)) as (f & r & Hrun & Hlen);
      [lia|lia|].
    unfold group_candle. rewrite Hrun.
    apply upscale_group_run; [lia|lia|exact Hrun|exact Hlen].
Qed.

(** Every branch of [upscale] for a source that starts with [front], whose
    period is a [uint32], so not negative. *)
Lemma upscale_cases (front : candle) (rest result : list candle)
    (up : upscale_period) (ec : error) :
  (0 <= period front)%Z ->
  let source := front :: rest in
  let p := period front in
  let s := seconds_in up in
  upscale source result up ec =
    if negb (bool_decide (constant_period p rest))
    then Returns (false, result, non_constant_period)
    else if (p =? 0)%Z then Undefined division_by_zero
    else if negb (s mod p =? 0)%Z
    then Returns (false, result, invalid_upscale_period)
    else if (s =? p)%Z then Returns (true, source, ec)
    else Returns (true,
                  group_candle s (Z.to_nat (s / p)) source
                    <$> seq 0 (length source / Z.to_nat (s / p)),
                  ec).
Proof.
  intros Hp0 source p s.
  case_bool_decide as Hconst; cbn [negb].
  - destruct (Z.eqb_spec p 0) as [Hz|Hz].
    { unfold upscale, source, check_integrity.
      rewrite (check_integrity_loop_constant _ _ _ Hconst). cbn [negb].
      unfold umod. fold p. rewrite Hz. done. }
    destruct (Z.eqb_spec (s mod p) 0) as [Hm|Hm]; cbn [negb].
    + destruct (Z.eqb_spec s p) as [Hs|Hs].
      * unfold upscale, source, check_integrity.
        rewrite (check_integrity_loop_constant _ _ _ Hconst). cbn [negb].
        unfold umod. fold p s. destruct (Z.eqb_spec p 0) as [|_]; [done|].
        cbn [mbind outcome_bind]. rewrite Hm. cbn [Z.eqb negb].
        rewrite Hs, Z.eqb_refl. done.
      * assert (Hs0 : (60 <= s)%Z) by (unfold s; destruct up; simpl; lia).
        assert (Hk : s = (s / p * p)%Z).
        { rewrite (Z.div_mod s p) at 1 by done. rewrite Hm. ring. }
        assert (Hk2 : (2 <= s / p)%Z).
        { assert (s / p <> 1)%Z by (intros E; rewrite E in Hk; lia).
          assert (0 < s / p)%Z by (apply Z.div_str_pos; nia).
          lia. }
        apply (upscale_grouped source result up ec p (s / p)); try done.
        by constructor.
    + unfold upscale, source, check_integrity.
      rewrite (check_integrity_loop_constant _ _ _ Hconst). cbn [negb].
      unfold umod. fold p s. destruct (Z.eqb_spec p 0) as [|_]; [done|].
      cbn [mbind outcome_bind].
      destruct (Z.eqb_spec (s mod p) 0) as [|_]; [done|]. done.
  - unfold upscale, source, check_integrity.
    rewrite (check_integrity_loop_mixed _ _ _ Hconst). done.
Qed.

(** X3.  For a source whose first period is not zero, [upscale] fails
    with [non_constant_period] exactly when a later candle has another
    period than the first; it fails with [invalid_upscale_period] exactly
    when all periods are the same and the target period is no multiple of
    it; and it succeeds, with the error code as it was, exactly when all
    periods are the same and the target period is a multiple.  A failing
    call leaves the result vector as it was. *)
Lemma upscale_fails_iff (front : candle) (rest result : list candle)
    (up : upscale_period) (ec : error) :
  (0 < period front)%Z ->
  (upscale (front :: rest) result up ec
     = Returns (false, result, non_constant_period)
   <-> ~ constant_period (period front) rest)
  /\ (upscale (front :: rest) result up ec
        = Returns (false, result, invalid_upscale_period)
      <-> constant_period (period front) rest
          /\ ~ (period front | seconds_in up)%Z)
  /\ ((exists out, upscale (front :: rest) result up ec = Returns (true, out, ec))
      <-> constant_period (period front) rest
          /\ (period front | seconds_in up)%Z).
Proof.
  intros Hp.
  rewrite upscale_cases by lia.
  rewrite <- Z.mod_divide by lia.
  case_bool_decide as Hconst; cbn [negb];
    [destruct (Z.eqb_spec (period front) 0) as [|_]; [lia|];
     destruct (Z.eqb_spec (seconds_in up mod period front) 0) as [Hm|Hm];
     cbn [negb]; [destruct (seconds_in up =? period front)%Z|]|];
    repeat split; intros;
    repeat match goal with
           | H : _ /\ _ |- _ => destruct H
           | H : ex _ |- _ => destruct H
           end;
    try discriminate; try tauto; try (by eexists); try done.
Qed.

(** C7.  A non-empty source with the constant period [p], upscaled to a
    period of [k * p] seconds with [k >= 2], gives
    [length source / k] candles and no error; the [i]-th is the aggregate of
    the [i]-th run of [k] consecutive source candles ([k] candles each, in
    source order), so what is left after the last whole run is dropped. *)
Theorem upscale_aggregates_whole_runs (source result : list candle)
    (up : upscale_period) (ec : error) (p k : Z) :
  source <> [] ->
  constant_period p source ->
  (2 <= k)%Z ->
  seconds_in up = (k * p)%Z ->
  exists out : list candle,
    upscale source result up ec = Returns (true, out, ec)
    /\ k = (seconds_in up / p)%Z
    /\ Z.of_nat (length out) = (Z.of_nat (length source) / k)%Z
    /\ forall i : nat,
         (i < length out)%nat ->
         exists first rest,
           run (Z.to_nat k) i source = first :: rest
           /\ length (first :: rest) = Z.to_nat k
           /\ out !! i = Some (aggregate (seconds_in up) first rest).
Proof.
  intros Hne Hconst Hk Hsec.
  assert (Hp : (0 < p)%Z) by (destruct up; simpl in Hsec; nia).
  eexists. split; [by apply (upscale_grouped _ _ _ _ p k)|].
  split; [rewrite Hsec, Z.div_mul; lia|].
  rewrite length_fmap, length_seq.
  split.
  { rewrite Nat2Z.inj_div, Z2Nat.id by lia. done. }
  intros i Hi.
  destruct (run_full (Z.to_nat k) i source) as (f & r & Hrun & Hlen);
    [lia|done|].
  exists f, r. split; [done|]. split; [simpl; lia|].
  rewrite list_lookup_fmap, lookup_seq_lt by done.
  simpl. unfold group_candle. by rewrite Hrun.
Qed.

Lemma upscale_aggregates_whole_runs_witness :
  let source := [half_hour 0 1; half_hour 1800 3; half_hour 3600 2;
                 half_hour 5400 2; half_hour 7200 5] in
  source <> []
  /\ constant_period 1800 source
  /\ (2 <= 2)%Z
  /\ seconds_in hour = (2 * 1800)%Z
  /\ exists out : list candle,
       upscale source [] hour ok = Returns (true, out, ok)
       /\ 2%Z = (seconds_in hour / 1800)%Z
       /\ Z.of_nat (length out) = (Z.of_nat (length source) / 2)%Z
       /\ forall i : nat,
            (i < length out)%nat ->
            exists first rest,
              run (Z.to_nat 2) i source = first :: rest
              /\ length (first :: rest) = Z.to_nat 2
              /\ out !! i = Some (aggregate (seconds_in hour) first rest).
Proof.
  intros source.
  assert (H1 : source <> []) by discriminate.
  assert (H2 : constant_period 1800 source)
    by (repeat constructor).
  assert (H3 : (2 <= 2)%Z) by lia.
  assert (H4 : seconds_in hour = (2 * 1800)%Z) by reflexivity.
  repeat split; try assumption.
  exact (upscale_aggregates_whole_runs source [] hour ok 1800 2 H1 H2 H3 H4).
Defined.

(** C10.  For a source whose first period (a [uint32]) is not zero,
    [upscale] returns: neither the remainder by the period nor the division
    by it or by the number of candles to fit has a zero divisor.  A division
    by zero happens exactly for a source whose periods are all zero, at the
    remainder. *)
Theorem upscale_division_guarded (front : candle) (rest result : list candle)
    (up : upscale_period) (ec : error) :
  (0 <= period front)%Z ->
  (period front <> 0%Z ->
   exists r, upscale (front :: rest) result up ec = Returns r)
  /\ (upscale (front :: rest) result up ec = Undefined division_by_zero
      <-> period front = 0%Z /\ constant_period 0 rest).
Proof.
  intros Hp. rewrite upscale_cases by done.
  case_bool_decide as Hconst; cbn [negb].
  - destruct (Z.eqb_spec (period front) 0) as [Hz|Hz].
    + split; [done|]. split; [|done]. intros _. split; [done|].
      by rewrite <- Hz.
    + split.
      * intros _.
        destruct (negb _); [by eexists|].
        destruct (_ =? _)%Z; by eexists.
      * split; [|by intros [? _]].
        destruct (negb _); [done|]. by destruct (_ =? _)%Z.
  - split; [by eexists|]. split; [done|].
    intros [Hz Hc]. rewrite Hz in Hconst. done.
Qed.

Lemma upscale_division_guarded_witness :
  (0 <= period (half_hour 0 1))%Z
  /\ ((period (half_hour 0 1) <> 0%Z ->
       exists r,
         upscale [half_hour 0 1; half_hour 1800 2] [] hour ok = Returns r)
      /\ (upscale [half_hour 0 1; half_hour 1800 2] [] hour ok
            = Undefined division_by_zero
          <-> period (half_hour 0 1) = 0%Z
              /\ constant_period 0 [half_hour 1800 2])).
Proof.
  assert (H : (0 <= period (half_hour 0 1))%Z) by (simpl; lia).
  split; [exact H|].
  exact (upscale_division_guarded (half_hour 0 1) [half_hour 1800 2] []
           hour ok H).
Defined.

(** C9, at a source whose only candle has the period zero: 60 is no
    multiple of zero, and instead of failing with [invalid_upscale_period]
    the call takes the remainder by zero. *)
Theorem upscale_zero_period_divides_by_zero :
  constant_period (period zero_period_candle) [zero_period_candle]
  /\ ~ (period zero_period_candle | seconds_in minute)%Z
  /\ upscale [zero_period_candle] [] minute ok = Undefined division_by_zero.
Proof.
  split; [by repeat constructor|].
  split; [|reflexivity].
  intros [q Hq]. cbn in Hq. lia.
Qed.

Local Open Scope Z_scope.

Lemma upscale_fails_iff_witness :
  0 < period (half_hour 0 1)
  /\ (upscale (half_hour 0 1 :: [sample_candle]) [] hour ok
        = Returns (false, [], non_constant_period)
      <-> ~ constant_period (period (half_hour 0 1)) [sample_candle])
  /\ (upscale (half_hour 0 1 :: [sample_candle]) [] hour ok
        = Returns (false, [], invalid_upscale_period)
      <-> constant_period (period (half_hour 0 1)) [sample_candle]
          /\ ~ (period (half_hour 0 1) | seconds_in hour))
  /\ ((exists out,
         upscale (half_hour 0 1 :: [sample_candle]) [] hour ok
         = Returns (true, out, ok))
      <-> constant_period (period (half_hour 0 1)) [sample_candle]
          /\ (period (half_hour 0 1) | seconds_in hour)).
Proof.
  assert (H : 0 < period (half_hour 0 1)) by (cbn; lia).
  split; [exact H|].
  exact (upscale_fails_iff (half_hour 0 1) [sample_candle] [] hour ok H).
Defined.

(** X1.  [parse_upscale_period] accepts the five names [minute], [hour],
    [day], [month] and [year], written in lower case and with nothing
    around them, and gives the period of that name; every other text,
    the empty one too, gives no period. *)
Theorem parse_upscale_period_iff (text : list ascii) (up : upscale_period) :
  parse_upscale_period text = Some up <-> text = chars (period_name up).
Proof.
  split.
  - unfold parse_upscale_period.
    destruct text as [|a [|b [|c [|d [|e [|f [|g text]]]]]]];
      cbn [length string_of_list_ascii]; try discriminate;
      repeat match goal with
             | |- context [String.eqb ?s ?n] =>
                 destruct (String.eqb_spec s n) as [Heq|_];
                 [injection Heq as -> -> ->|]
             end;
      try discriminate; intros [= <-]; subst; reflexivity.
  - intros ->. by destruct up.
Qed.

(** X2.  [check_integrity] looks at the periods and at nothing else: it
    returns [true] and leaves [ec] alone exactly when all candles have the
    period of the first (so for no candle and for one candle), and returns
    [false] with [non_constant_period] otherwise.  The times are not
    compared: two sequences with the same periods get the same answer,
    whatever their times, their order and their other fields. *)
Theorem check_integrity_periods_only (candles : list candle) (ec : error) :
  (check_integrity candles ec = (true, ec)
   <-> exists p, constant_period p candles)
  /\ (check_integrity candles ec = (false, non_constant_period)
      <-> ~ exists p, constant_period p candles)
  /\ forall others : list candle,
       period <$> others = period <$> candles ->
       check_integrity others ec = check_integrity candles ec.
Proof.
  assert (Hcases : forall l : list candle,
            ((exists p, constant_period p l)
             /\ check_integrity l ec = (true, ec))
            \/ ((~ exists p, constant_period p l)
                /\ check_integrity l ec = (false, non_constant_period))).
  { intros [|front rest]; [left; split; [exists 0; constructor|done]|].
    cbn [check_integrity].
    destruct (decide (Forall (fun c => period c = period front) rest))
      as [Hc|Hc].
    - left. split; [exists (period front); by constructor|].
      by apply check_integrity_loop_constant.
    - right. split; [|by apply check_integrity_loop_mixed].
      intros [p Hp]. apply Hc.
      apply Forall_cons in Hp as [<- Hp]. done. }
  assert (Hperiods : forall l l' : list candle,
            period <$> l' = period <$> l ->
            (exists p, constant_period p l) -> exists p, constant_period p l').
  { intros l l' Heq [p Hp]. exists p. unfold constant_period in *.
    apply (Forall_fmap period (fun q => q = p)).
    rewrite Heq. by apply Forall_fmap. }
  split; [|split].
  - destruct (Hcases candles) as [[Hp ->]|[Hp ->]]; split; try done.
  - destruct (Hcases candles) as [[Hp ->]|[Hp ->]]; split; try done.
  - intros others Heq.
    destruct (Hcases candles) as [[Hp ->]|[Hp ->]];
      destruct (Hcases others) as [[Hq ->]|[Hq ->]]; try done.
    + destruct Hq. by apply (Hperiods candles).
    + destruct Hp. by apply (Hperiods others).
Qed.

Lemma seconds_in_bounds (up : upscale_period) : 60 <= seconds_in up < 2 ^ 32.
Proof. destruct up; cbn; lia. Qed.

(** Every period is a whole number of each finer one: a month has 30 days
    and a year has 12 such months. *)
Lemma seconds_in_rank (a b : upscale_period) :
  (period_rank a <= period_rank b)%nat -> seconds_in b mod seconds_in a = 0.
Proof. destruct a, b; cbn; intros H; try lia; reflexivity. Qed.

Lemma upscale_success (front : candle) (rest prior : list candle)
    (up : upscale_period) (ec ec' : error) (out : list candle) :
  0 < period front ->
  upscale (front :: rest) prior up ec = Returns (true, out, ec') ->
  ec' = ec /\ constant_period (period front) rest
  /\ seconds_in up mod period front = 0
  /\ out = upscaled (front :: rest) up.
Proof.
  intros Hp H. rewrite upscale_cases in H by lia. cbv zeta in H.
  unfold upscaled.
  case_bool_decide as Hconst; cbn [negb] in H; [|discriminate].
  destruct (Z.eqb_spec (period front) 0) as [|_]; [lia|].
  destruct (Z.eqb_spec (seconds_in up mod period front) 0) as [Hm|];
    cbn [negb] in H; [|discriminate].
  destruct (seconds_in up =? period front); by injection H as <- <-.
Qed.

Lemma upscale_succeeds (front : candle) (rest prior : list candle)
    (up : upscale_period) (ec : error) :
  0 < period front ->
  constant_period (period front) rest ->
  seconds_in up mod period front = 0 ->
  upscale (front :: rest) prior up ec
  = Returns (true, upscaled (front :: rest) up, ec).
Proof.
  intros Hp Hconst Hm. rewrite upscale_cases by lia. cbv zeta.
  unfold upscaled.
  rewrite bool_decide_eq_true_2 by done. cbn [negb].
  destruct (Z.eqb_spec (period front) 0) as [|_]; [lia|].
  rewrite Hm. cbn [Z.eqb negb].
  by destruct (seconds_in up =? period front).
Qed.

Lemma upscaled_shape (front : candle) (rest : list candle)
    (up : upscale_period) :
  0 < period front ->
  constant_period (period front) rest ->
  seconds_in up mod period front = 0 ->
  Z.of_nat (length (upscaled (front :: rest) up))
  = Z.of_nat (length (front :: rest)) / (seconds_in up / period front)
  /\ Forall (fun c => period c = seconds_in up) (upscaled (front :: rest) up)
  /\ (seconds_in up <> period front ->
      Forall (fun c => time c mod seconds_in up = 0)
             (upscaled (front :: rest) up)).
Proof.
  intros Hp Hconst Hm. unfold upscaled.
  pose proof (seconds_in_bounds up) as Hs.
  destruct (Z.eqb_spec (seconds_in up) (period front)) as [Heq|Hne].
  - rewrite Heq, Z.div_same, Z.div_1_r by lia.
    split; [done|]. split; [|done].
    constructor; [done|exact Hconst].
  - set (k := seconds_in up / period front).
    assert (Hle : period front <= seconds_in up).
    { pose proof Hm as Hd. apply Z.mod_divide in Hd; [|lia].
      apply Z.divide_pos_le in Hd; lia. }
    assert (Hk : 0 < k) by (apply Z.div_str_pos; lia).
    rewrite length_fmap, length_seq.
    split; [by rewrite Nat2Z.inj_div, Z2Nat.id by lia|].
    assert (Hall : forall i,
              i ∈ seq 0 (length (front :: rest) / Z.to_nat k) ->
              exists f r,
                group_candle (seconds_in up) (Z.to_nat k) (front :: rest) i
                = aggregate (seconds_in up) f r).
    { intros i Hi. apply elem_of_seq in Hi.
      destruct (run_full (Z.to_nat k) i (front :: rest))
        as (f & r & Hrun & _); [lia|lia|].
      exists f, r. unfold group_candle. by rewrite Hrun. }
    split; [|intros _]; apply Forall_fmap, Forall_forall; intros i Hi;
      destruct (Hall i Hi) as (f & r & Hg); cbn; rewrite Hg; cbn; [done|].
    apply Z.mod_mul. lia.
Qed.

(** X4.  When [upscale] succeeds on a source whose first period is not
    zero, the error code is as it was and the result does not depend on
    what the result vector held before the call.  The result has one
    candle for every [seconds_in up / period] source candles (the rest of
    the division is dropped), every result candle has the target period,
    and unless the source had the target period already (then it is
    copied) the time of every result candle is a multiple of the target
    period. *)
Theorem upscale_result_shape (front : candle) (rest prior other : list candle)
    (up : upscale_period) (ec ec' : error) (out : list candle) :
  0 < period front ->
  upscale (front :: rest) prior up ec = Returns (true, out, ec') ->
  ec' = ec
  /\ upscale (front :: rest) other up ec = Returns (true, out, ec)
  /\ Z.of_nat (length out)
     = Z.of_nat (length (front :: rest)) / (seconds_in up / period front)
  /\ Forall (fun c => period c = seconds_in up) out
  /\ (seconds_in up <> period front ->
      Forall (fun c => time c mod seconds_in up = 0) out).
Proof.
  intros Hp H.
  apply upscale_success in H as (-> & Hconst & Hm & ->); [|done].
  split; [done|]. split; [by apply upscale_succeeds|].
  by apply upscaled_shape.
Qed.

Lemma upscale_result_shape_witness :
  0 < period (half_hour 0 1)
  /\ upscale [half_hour 0 1; half_hour 1800 3; half_hour 3600 2] [] hour ok
     = Returns (true, [Candle 0 3600 2 4 2.5 1 3 1 3], ok)
  /\ ok = ok
  /\ upscale [half_hour 0 1; half_hour 1800 3; half_hour 3600 2]
       [stale_candle] hour ok
     = Returns (true, [Candle 0 3600 2 4 2.5 1 3 1 3], ok)
  /\ Z.of_nat (length [Candle 0 3600 2 4 2.5 1 3 1 3])
     = Z.of_nat (length [half_hour 0 1; half_hour 1800 3; half_hour 3600 2])
       / (seconds_in hour / period (half_hour 0 1))
  /\ Forall (fun c => period c = seconds_in hour)
            [Candle 0 3600 2 4 2.5 1 3 1 3]
  /\ (seconds_in hour <> period (half_hour 0 1) ->
      Forall (fun c => time c mod seconds_in hour = 0)
             [Candle 0 3600 2 4 2.5 1 3 1 3]).
Proof.
  assert (H1 : 0 < period (half_hour 0 1)) by (cbn; lia).
  assert (H2 : upscale [half_hour 0 1; half_hour 1800 3; half_hour 3600 2]
                 [] hour ok
               = Returns (true, [Candle 0 3600 2 4 2.5 1 3 1 3], ok))
    by (vm_compute; reflexivity).
  split; [exact H1|]. split; [exact H2|].
  exact (upscale_result_shape _ _ [] [stale_candle] hour ok ok _ H1 H2).
Defined.

(** X5.  What [upscale] returns can be upscaled again: when [upscale]
    succeeds on a source whose first period is not zero, [upscale] of its
    result to the same or to any coarser period (minute, hour, day, month,
    year in this order) succeeds too, and when the first result has a
    candle, every candle of the second has the coarser period. *)
Theorem upscale_again (front : candle) (rest prior prior' : list candle)
    (up up' : upscale_period) (ec ec' : error) (out : list candle) :
  0 < period front ->
  (period_rank up <= period_rank up')%nat ->
  upscale (front :: rest) prior up ec = Returns (true, out, ec') ->
  exists out' : list candle,
    upscale out prior' up' ec' = Returns (true, out', ec')
    /\ (out <> [] -> Forall (fun c => period c = seconds_in up') out').
Proof.
  intros Hp Hrank H.
  apply upscale_success in H as (-> & Hconst & Hm & ->); [|done].
  destruct (upscaled_shape front rest up Hp Hconst Hm) as (_ & Hper & _).
  pose proof (seconds_in_bounds up) as Hs.
  pose proof (seconds_in_rank up up' Hrank) as Hdiv.
  destruct (upscaled (front :: rest) up) as [|c0 out0].
  - exists prior'. split; [done|]. by intros [].
  - apply Forall_cons in Hper as [Hc0 Hout0].
    assert (Hconst' : constant_period (period c0) out0) by by rewrite Hc0.
    exists (upscaled (c0 :: out0) up'). split.
    + apply upscale_succeeds; [lia|done|by rewrite Hc0].
    + intros _.
      apply (upscaled_shape c0 out0 up'); [lia|done|by rewrite Hc0].
Qed.

Lemma upscale_again_witness :
  0 < period (half_hour 0 1)
  /\ (period_rank hour <= period_rank day)%nat
  /\ upscale [half_hour 0 1; half_hour 1800 3; half_hour 3600 2] [] hour ok
     = Returns (true, [Candle 0 3600 2 4 2.5 1 3 1 3], ok)
  /\ exists out' : list candle,
       upscale [Candle 0 3600 2 4 2.5 1 3 1 3] [] day ok
       = Returns (true, out', ok)
       /\ ([Candle 0 3600 2 4 2.5 1 3 1 3] <> [] ->
           Forall (fun c => period c = seconds_in day) out').
Proof.
  assert (H1 : 0 < period (half_hour 0 1)) by (cbn; lia).
  assert (H2 : (period_rank hour <= period_rank day)%nat) by (cbn; lia).
  assert (H3 : upscale [half_hour 0 1; half_hour 1800 3; half_hour 3600 2]
                 [] hour ok
               = Returns (true, [Candle 0 3600 2 4 2.5 1 3 1 3], ok))
    by (vm_compute; reflexivity).
  split; [exact H1|]. split; [exact H2|]. split; [exact H3|].
  exact (upscale_again _ _ [] [] hour day ok ok _ H1 H2 H3).
Defined.

End UpscaleFacts.


(** ** Candles from trades *)

Module TradeFacts.

Import Cosevalues Swollencandle Spec.

(** The loop only ever appends to [result]. *)
Lemma upscale_trades_loop_appends (prior : list candle) :
  forall (rest : list trade) (pis : Z) (c : candle) (turnover : float)
         (result : list candle),
    upscale_trades_loop rest pis c turnover (prior ++ result)
    = match upscale_trades_loop rest pis c turnover result with
      | Returns out => Returns (prior ++ out)
      | Undefined why => Undefined why
      end.
Proof.
  induction rest as [|each rest IH]; intros pis c turnover result.
  - cbn [upscale_trades_loop]. by rewrite app_assoc.
  - cbn [upscale_trades_loop].
    destruct (_ <=? _)%Z.
    + unfold udiv. destruct (pis =? 0)%Z; [done|].
      cbn [mbind outcome_bind]. rewrite <- app_assoc. apply IH.
    + apply IH.
  Qed.

(** What [result] held before the call is still there after it, in front
    of the candles of this call. *)
Lemma upscale_trades_keeps_prior (trades : list trade) (prior : list candle)
    (up : upscale_period) (ec : error) :
  upscale_trades trades prior up ec
  = match upscale_trades trades [] up ec with
    | Returns (b, out, e) => Returns (b, prior ++ out, e)
    | Undefined why => Undefined why
    end.
Proof.
  destruct trades as [|first rest]; cbn [upscale_trades].
  - by rewrite app_nil_r.
  - unfold udiv. destruct (seconds_in up =? 0)%Z; [done|].
    cbn [mbind outcome_bind].
    rewrite <- (app_nil_r prior) at 1.
    rewrite upscale_trades_loop_appends.
    by destruct (upscale_trades_loop _ _ _ _ []).
Qed.

(** C8, at a result vector that is not empty when the call starts: the
    one-minute candle of a single trade is appended behind the candle that
    was there, so the output is not the candles of the given trades alone. *)
Theorem upscale_trades_result_not_fresh :
  upscale_trades [Trade 0 1 10] [stale_candle] minute ok
  = Returns (true, [stale_candle; Candle 0 60 1 1 10 10 10 10 10], ok)
  /\ upscale_trades [Trade 0 1 10] [] minute ok
     = Returns (true, [Candle 0 60 1 1 10 10 10 10 10], ok).
Proof. split; vm_compute; reflexivity. Qed.

Local Open Scope Z_scope.

(** One turn of the loop, for an empty [result]. *)
Lemma upscale_trades_loop_cons (t : trade) (rest : list trade) (pis : Z)
    (c : candle) (turnover : float) :
  pis <> 0 ->
  upscale_trades_loop (t :: rest) pis c turnover []
  = if wrap64 (time c + pis) <=? trade_time t
    then match upscale_trades_loop rest pis
                 (Candle (period_start pis (trade_time t)) pis 1 (amount t)
                         (vwap_price (flush c turnover))
                         (price t) (price t) (price t) (price t))
                 (amount t * price t)%float [] with
         | Returns out => Returns (flush c turnover :: out)
         | Undefined why => Undefined why
         end
    else upscale_trades_loop rest pis (add_trade (c, turnover) t).1
           (add_trade (c, turnover) t).2 [].
Proof.
  intros Hpis. cbn [upscale_trades_loop].
  destruct (_ <=? _); [|done].
  unfold udiv. destruct (Z.eqb_spec pis 0) as [|_]; [done|].
  cbn [mbind outcome_bind app].
  change [flush c turnover] with ([flush c turnover] ++ []).
  rewrite upscale_trades_loop_appends. done.
Qed.

Lemma upscale_trades_loop_returns (pis : Z) :
  pis <> 0 ->
  forall (rest : list trade) (c : candle) (turnover : float),
    exists out, upscale_trades_loop rest pis c turnover [] = Returns out
                /\ out <> [].
Proof.
  intros Hpis. induction rest as [|t rest IH]; intros c turnover.
  - by eexists.
  - rewrite upscale_trades_loop_cons by done.
    destruct (_ <=? _).
    + destruct (IH (Candle (period_start pis (trade_time t)) pis 1 (amount t)
                         (vwap_price (flush c turnover))
                         (price t) (price t) (price t) (price t))
                   (amount t * price t)%float) as (out & -> & _).
      by eexists.
    + apply IH.
Qed.

(** X6.  [upscale] for trades never fails and never divides by zero: for
    every sequence of trades and every target period it returns [true],
    leaves the error code as it was, and appends its candles behind what
    the result vector held before the call.  It appends no candle exactly
    when there is no trade. *)
Theorem upscale_trades_always_appends (trades : list trade)
    (prior : list candle) (up : upscale_period) (ec : error) :
  exists out : list candle,
    upscale_trades trades prior up ec = Returns (true, prior ++ out, ec)
    /\ (out = [] <-> trades = []).
Proof.
  rewrite upscale_trades_keeps_prior.
  destruct trades as [|first rest].
  - exists []. done.
  - cbn [upscale_trades]. pose proof (UpscaleFacts.seconds_in_bounds up) as Hs.
    unfold udiv. destruct (Z.eqb_spec (seconds_in up) 0) as [|_]; [lia|].
    cbn [mbind outcome_bind].
    destruct (upscale_trades_loop_returns (seconds_in up) ltac:(lia) rest
                (Candle (trade_time first / seconds_in up * seconds_in up)
                        (seconds_in up) 1 (amount first) 0 (price first)
                        (price first) (price first) (price first))
                (amount first * price first)%float) as (out & -> & Hne).
    exists out. done.
Qed.

(** The candles of the loop: their periods, and how far they are
    apart. *)
Lemma upscale_trades_loop_shape (pis : Z) :
  0 < pis ->
  forall (rest : list trade) (c : candle) (turnover : float) (out : list candle),
    period c = pis -> time c mod pis = 0 -> 0 <= time c < 2 ^ 64 - pis ->
    trade_times_below (2 ^ 64 - pis) rest ->
    upscale_trades_loop rest pis c turnover [] = Returns out ->
    Forall (fun c' => period c' = pis /\ time c' mod pis = 0
                      /\ time c <= time c') out
    /\ StronglySorted (fun a b => time a + pis <= time b) out.
Proof.
  intros Hpis. induction rest as [|t rest IH];
    intros c turnover out Hper Hal Hc Hts Hloop.
  - cbn in Hloop. injection Hloop as <-.
    split; [|repeat constructor].
    constructor; [|constructor]. cbn. repeat split; [done..|lia].
  - rewrite upscale_trades_loop_cons in Hloop by lia.
    inversion Hts as [|? ? Ht Hts']; subst.
    unfold wrap64 in Hloop. rewrite Z.mod_small in Hloop by lia.
    destruct (Z.leb_spec (time c + period c) (trade_time t)) as [Hnew|Hold].
    + destruct (upscale_trades_loop rest _ _ _ []) as [out'|] eqn:Hrec;
        [|done].
      injection Hloop as <-.
      assert (Hstart : time c + period c
                       <= period_start (period c) (trade_time t)
                       <= trade_time t).
      { unfold period_start.
        pose proof (Z.mul_div_le (trade_time t) (period c) Hpis).
        split; [|lia].
        apply Z.mod_divide in Hal as [k Hk]; [|lia].
        rewrite Hk in *.
        replace (k * period c + period c) with ((k + 1) * period c) in * by ring.
        apply Z.mul_le_mono_nonneg_r; [lia|].
        apply Z.div_le_lower_bound; lia. }
      apply IH in Hrec as [Hshape Hsorted]; cbn; try done.
      * split.
        -- constructor; [cbn; repeat split; [done..|lia]|].
           eapply Forall_impl; [exact Hshape|]. cbn. intros c' (? & ? & ?).
           repeat split; [done..|lia].
        -- constructor; [done|].
           eapply Forall_impl; [exact Hshape|]. cbn. intros c' (? & ? & ?). lia.
      * unfold period_start. rewrite Z.mul_comm, Z.mul_comm.
        apply Z.mod_mul. lia.
      * lia.
    + apply IH in Hloop; cbn; done.
Qed.

Lemma upscale_trades_loop_counts (pis : Z) :
  pis <> 0 ->
  forall (rest : list trade) (c : candle) (turnover : float) (out : list candle),
    1 <= count c -> count c + Z.of_nat (length rest) < 2 ^ 64 ->
    upscale_trades_loop rest pis c turnover [] = Returns out ->
    Forall (fun c' => 1 <= count c') out
    /\ total_count out = count c + Z.of_nat (length rest).
Proof.
  intros Hpis. induction rest as [|t rest IH];
    intros c turnover out Hc Hlen Hloop.
  - cbn in Hloop. injection Hloop as <-. cbn.
    split; [by repeat constructor|lia].
  - rewrite upscale_trades_loop_cons in Hloop by done.
    cbn [length] in Hlen.
    destruct (_ <=? _).
    + destruct (upscale_trades_loop rest _ _ _ []) as [out'|] eqn:Hrec;
        [|done].
      injection Hloop as <-.
      apply IH in Hrec as [Hall Hsum]; cbn [count]; try lia.
      split; [by constructor|].
      unfold total_count in *. cbn [foldr flush count length].
      rewrite Hsum. cbn [count]. lia.
    + assert (Hw : wrap64 (count c + 1) = count c + 1)
        by (unfold wrap64; rewrite Z.mod_small; lia).
      apply IH in Hloop as [Hall Hsum];
        cbn [add_trade fst count] in *; rewrite ?Hw in *; try lia.
      split; [done|]. rewrite Hsum. cbn [length]. lia.
Qed.

Lemma alike_fields (c c' : candle) :
  alike c c' ->
  time c = time c' /\ period c = period c' /\ count c = count c'
  /\ volume c = volume c' /\ open_price c = open_price c'
  /\ high_price c = high_price c' /\ low_price c = low_price c'
  /\ close_price c = close_price c'.
Proof.
  intros H. specialize (H 0%float). unfold flush in H.
  injection H as ? ? ? ? _ ? ? ? ?. done.
Qed.

Lemma alike_add_trade (c c' : candle) (turnover : float) (t : trade) :
  alike c c' ->
  alike (add_trade (c, turnover) t).1 (add_trade (c', turnover) t).1
  /\ (add_trade (c, turnover) t).2 = (add_trade (c', turnover) t).2.
Proof.
  intros H. apply alike_fields in H as (? & ? & ? & ? & ? & ? & ? & ?).
  destruct c, c'. cbn in *. subst. done.
Qed.

Lemma upscale_trades_loop_ordered (pis : Z) :
  0 < pis ->
  forall (rest : list trade) (first : trade) (done_ : list trade)
         (c : candle) (turnover : float) (out : list candle),
    alike c (foldl add_trade (open_candle pis first) done_).1 ->
    turnover = (foldl add_trade (open_candle pis first) done_).2 ->
    period c = pis -> time c mod pis = 0 -> 0 <= time c < 2 ^ 64 - pis ->
    Forall (in_period c) (first :: done_) ->
    time_ordered ((first :: done_) ++ rest) ->
    trade_times_below (2 ^ 64 - pis) rest ->
    upscale_trades_loop rest pis c turnover [] = Returns out ->
    (forall c', c' ∈ out ->
       exists f r,
         filter (in_period c') ((first :: done_) ++ rest) = f :: r
         /\ c' = trades_candle pis f r)
    /\ (forall t, t ∈ (first :: done_) ++ rest ->
          exists c', c' ∈ out /\ in_period c' t).
Proof.
  intros Hpis. induction rest as [|t rest IH];
    intros first done_ c turnover out Hc Htv Hper Hal Hb Hcur Hord Hts Hloop.
  - cbn in Hloop. injection Hloop as <-. rewrite app_nil_r.
    assert (Hin : forall t, in_period (flush c turnover) t <-> in_period c t)
      by done.
    split.
    + intros c' Hc'. apply list_elem_of_singleton in Hc' as ->.
      exists first, done_. split.
      * apply ListFacts.filter_all. eapply Forall_impl; [exact Hcur|].
        intros t Ht. by apply Hin.
      * unfold trades_candle.
        destruct (foldl add_trade (open_candle pis first) done_) as [c0 tv0].
        cbn in Hc, Htv. subst. apply Hc.
    + intros t Ht. exists (flush c turnover). split; [by left|].
      apply Hin. by eapply Forall_forall in Hcur.
  - pose proof Hloop as Hshape.
    apply upscale_trades_loop_shape in Hshape as [Hshape Hsorted]; try done.
    rewrite upscale_trades_loop_cons in Hloop by lia.
    apply Forall_cons in Hts as [Ht Hts'].
    assert (Hcur' : Forall (fun t' => time c <= trade_time t' < time c + pis)
                      (first :: done_)).
    { eapply Forall_impl; [exact Hcur|].
      intros t'. unfold in_period. by rewrite Hper. }
    unfold wrap64 in Hloop. rewrite Z.mod_small in Hloop by lia.
    assert (Hle : Forall (fun t' => trade_time t' <= trade_time t)
                    (first :: done_)).
    { apply Forall_forall. intros t' Ht'.
      eapply (StronglySorted_app_1_elem_of _ _ _ _ _ Hord); [done|by left]. }
    assert (Hge : Forall (fun t' => trade_time t <= trade_time t') rest).
    { apply StronglySorted_app_1_r in Hord.
      by apply StronglySorted_inv in Hord as [_ ?]. }
    destruct (Z.leb_spec (time c + pis) (trade_time t)) as [Hnew|Hold].
    + destruct (upscale_trades_loop rest _ _ _ []) as [out'|] eqn:Hrec;
        [|done].
      injection Hloop as <-.
      apply StronglySorted_inv in Hsorted as [Hsorted' Hapart].
      apply Forall_cons in Hshape as [_ Hshape'].
      assert (Hstart : time c + pis
                       <= period_start (pis) (trade_time t)
                       <= trade_time t).
      { unfold period_start.
        pose proof (Z.mul_div_le (trade_time t) (pis) Hpis).
        split; [|lia].
        apply Z.mod_divide in Hal as [k Hk]; [|lia].
        rewrite Hk in *.
        replace (k * pis + pis) with ((k + 1) * pis) in * by ring.
        apply Z.mul_le_mono_nonneg_r; [lia|].
        apply Z.div_le_lower_bound; lia. }
      assert (Hrest_later : Forall (fun t' => ~ in_period (flush c turnover) t')
                              (t :: rest)).
      { constructor; [unfold in_period; cbn; lia|].
        eapply Forall_impl; [exact Hge|]. unfold in_period. cbn. lia. }
      assert (Hcur_in : Forall (in_period (flush c turnover)) (first :: done_)).
      { eapply Forall_impl; [exact Hcur|]. done. }
      apply (IH t []) in Hrec as [Hcandles Hcover]; try (cbn; done);
        cbn [time period].
      * split.
        -- intros c' Hc'. apply elem_of_cons in Hc' as [->|Hc'].
           ++ exists first, done_. split.
              ** rewrite filter_app, (ListFacts.filter_none _ (t :: rest)) by done.
                 rewrite app_nil_r. by apply ListFacts.filter_all.
              ** unfold trades_candle.
                 destruct (foldl add_trade (open_candle (pis) first) done_)
                   as [c0 tv0].
                 cbn in Hc, Htv. subst. apply Hc.
           ++ destruct (Hcandles c' Hc') as (f & r & Hf & ->).
              exists f, r. split; [|done].
              rewrite filter_app, (ListFacts.filter_none _ (first :: done_)); [done|].
              eapply Forall_forall in Hapart; [|exact Hc'].
              eapply Forall_forall in Hshape'; [|exact Hc'].
              destruct Hshape' as (Hp' & _ & _).
              eapply Forall_impl; [exact Hcur'|].
              unfold in_period. cbn in Hapart. rewrite Hp'. lia.
        -- intros t' Ht'. apply elem_of_app in Ht' as [Ht'|Ht'].
           ++ exists (flush c turnover). split; [by left|].
              by eapply Forall_forall in Hcur_in.
           ++ destruct (Hcover t' Ht') as (c' & Hc' & Hin).
              exists c'. split; [by right|done].
      * unfold period_start. rewrite Z.mul_comm, Z.mul_comm.
        apply Z.mod_mul. lia.
      * lia.
      * constructor; [|constructor]. unfold in_period. cbn.
        unfold period_start in *.
        pose proof (Z.mod_pos_bound (trade_time t) (pis) Hpis).
        pose proof (Z.div_mod (trade_time t) (pis)). lia.
      * by apply StronglySorted_app_1_r in Hord.
    + assert (Hin : in_period c t).
      { unfold in_period. rewrite Hper. split; [|lia].
        apply Forall_cons in Hcur' as [[Hf _] _].
        apply Forall_cons in Hle as [? _]. lia. }
      replace ((first :: done_) ++ t :: rest)
        with ((first :: done_ ++ [t]) ++ rest) in *
        by (cbn; by rewrite <- app_assoc).
      destruct (foldl add_trade (open_candle pis first) done_)
        as [c0 tv0] eqn:Hfold.
      cbn [fst snd] in Hc, Htv.
      destruct (alike_add_trade c c0 turnover t Hc) as [Hc' Htv'].
      apply (IH first (done_ ++ [t])) in Hloop; try done.
      * rewrite foldl_app, Hfold. cbn [foldl]. by rewrite <- Htv.
      * rewrite foldl_app, Hfold. cbn [foldl]. by rewrite <- Htv.
      * rewrite app_comm_cons. apply Forall_app.
        split; [exact Hcur|]. constructor; [exact Hin|constructor].
Qed.

(** X7.  For trades whose times are below [2^64] less the target period
    (so that the end of a period does not wrap), in whatever order they
    come: every appended candle has the target period and a time that is a
    multiple of it, and the periods of the appended candles do not overlap:
    each candle starts at or after the end of the period of every candle in
    front of it, so the times go up strictly. *)
Theorem upscale_trades_periods_apart (trades : list trade)
    (prior : list candle) (up : upscale_period) (ec : error) :
  trade_times_below (2 ^ 64 - seconds_in up) trades ->
  exists out : list candle,
    upscale_trades trades prior up ec = Returns (true, prior ++ out, ec)
    /\ Forall (fun c => period c = seconds_in up
                        /\ time c mod seconds_in up = 0) out
    /\ forall (i j : nat) (a b : candle),
         (i < j)%nat -> out !! i = Some a -> out !! j = Some b ->
         time a + seconds_in up <= time b.
Proof.
  intros Hts. rewrite upscale_trades_keeps_prior.
  destruct trades as [|first rest].
  - exists []. cbn. repeat split; [constructor|]. intros; done.
  - pose proof (UpscaleFacts.seconds_in_bounds up) as Hs.
    apply Forall_cons in Hts as [Hfirst Hts].
    cbn [upscale_trades].
    unfold udiv. destruct (Z.eqb_spec (seconds_in up) 0) as [|_]; [lia|].
    cbn [mbind outcome_bind].
    destruct (upscale_trades_loop_returns (seconds_in up) ltac:(lia) rest
                (Candle (trade_time first / seconds_in up * seconds_in up)
                        (seconds_in up) 1 (amount first) 0 (price first)
                        (price first) (price first) (price first))
                (amount first * price first)%float) as (out & Hout & _).
    rewrite Hout. exists out. split; [done|].
    pose proof (Z.mul_div_le (trade_time first) (seconds_in up)).
    assert (0 <= trade_time first / seconds_in up)
      by (apply Z.div_pos; lia).
    apply upscale_trades_loop_shape in Hout as [Hshape Hsorted];
      cbn [time period]; try done; try lia; try nia.
    + split.
      * eapply Forall_impl; [exact Hshape|]. cbn. intros c (? & ? & _). done.
      * by apply ListFacts.StronglySorted_lookup_lt.
    + apply Z.mod_mul. lia.
Qed.

Lemma upscale_trades_periods_apart_witness :
  trade_times_below (2 ^ 64 - seconds_in minute) sample_trades
  /\ exists out : list candle,
       upscale_trades sample_trades [stale_candle] minute ok
       = Returns (true, [stale_candle] ++ out, ok)
       /\ Forall (fun c => period c = seconds_in minute
                           /\ time c mod seconds_in minute = 0) out
       /\ forall (i j : nat) (a b : candle),
            (i < j)%nat -> out !! i = Some a -> out !! j = Some b ->
            time a + seconds_in minute <= time b.
Proof.
  assert (H : trade_times_below (2 ^ 64 - seconds_in minute) sample_trades)
    by (repeat constructor; cbn; lia).
  split; [exact H|].
  exact (upscale_trades_periods_apart sample_trades [stale_candle] minute ok H).
Defined.

(** X8.  Every trade is counted once: the appended candles each count at
    least one trade, and their counts add up to the number of trades (for
    fewer than [2^64] trades, where the [uint64_t] counter does not
    wrap). *)
Theorem upscale_trades_counts_every_trade (trades : list trade)
    (prior : list candle) (up : upscale_period) (ec : error) :
  Z.of_nat (length trades) < 2 ^ 64 ->
  exists out : list candle,
    upscale_trades trades prior up ec = Returns (true, prior ++ out, ec)
    /\ Forall (fun c => 1 <= count c) out
    /\ total_count out = Z.of_nat (length trades).
Proof.
  intros Hlen. rewrite upscale_trades_keeps_prior.
  destruct trades as [|first rest].
  - exists []. cbn. repeat split. constructor.
  - pose proof (UpscaleFacts.seconds_in_bounds up) as Hs.
    cbn [upscale_trades].
    unfold udiv. destruct (Z.eqb_spec (seconds_in up) 0) as [|_]; [lia|].
    cbn [mbind outcome_bind].
    destruct (upscale_trades_loop_returns (seconds_in up) ltac:(lia) rest
                (Candle (trade_time first / seconds_in up * seconds_in up)
                        (seconds_in up) 1 (amount first) 0 (price first)
                        (price first) (price first) (price first))
                (amount first * price first)%float) as (out & Hout & _).
    rewrite Hout. exists out. split; [done|].
    cbn [length] in Hlen.
    apply upscale_trades_loop_counts in Hout as [Hall Hsum];
      cbn [count]; try lia.
    split; [done|]. rewrite Hsum. cbn [count length]. lia.
Qed.

Lemma upscale_trades_counts_every_trade_witness :
  Z.of_nat (length sample_trades) < 2 ^ 64
  /\ exists out : list candle,
       upscale_trades sample_trades [] hour ok = Returns (true, [] ++ out, ok)
       /\ Forall (fun c => 1 <= count c) out
       /\ total_count out = Z.of_nat (length sample_trades).
Proof.
  assert (H : Z.of_nat (length sample_trades) < 2 ^ 64) by (cbn; lia).
  split; [exact H|].
  exact (upscale_trades_counts_every_trade sample_trades [] hour ok H).
Defined.

(** X9.  For trades in the order of their times (and times below [2^64]
    less the target period), each appended candle is the candle of exactly
    the trades whose time lies in its period, aggregated in their order
    ([trades_candle]: the count, the summed amount, the turnover over the
    volume, the first price as the open, the last as the close, the highest
    and the lowest), it holds at least one trade, and every trade lies in
    the period of one of the candles. *)
Theorem upscale_trades_ordered (trades : list trade)
    (prior : list candle) (up : upscale_period) (ec : error) :
  time_ordered trades ->
  trade_times_below (2 ^ 64 - seconds_in up) trades ->
  exists out : list candle,
    upscale_trades trades prior up ec = Returns (true, prior ++ out, ec)
    /\ (forall c : candle, c ∈ out ->
          exists first rest,
            filter (in_period c) trades = first :: rest
            /\ c = trades_candle (seconds_in up) first rest)
    /\ (forall t : trade, t ∈ trades -> exists c, c ∈ out /\ in_period c t).
Proof.
  intros Hord Hts. rewrite upscale_trades_keeps_prior.
  destruct trades as [|first rest].
  - exists []. cbn. repeat split; intros ? H; by apply elem_of_nil in H.
  - pose proof (UpscaleFacts.seconds_in_bounds up) as Hs.
    apply Forall_cons in Hts as [Hfirst Hts].
    cbn [upscale_trades].
    unfold udiv. destruct (Z.eqb_spec (seconds_in up) 0) as [|_]; [lia|].
    cbn [mbind outcome_bind].
    destruct (upscale_trades_loop_returns (seconds_in up) ltac:(lia) rest
                (Candle (trade_time first / seconds_in up * seconds_in up)
                        (seconds_in up) 1 (amount first) 0 (price first)
                        (price first) (price first) (price first))
                (amount first * price first)%float) as (out & Hout & _).
    rewrite Hout. exists out. split; [done|].
    pose proof (Z.mul_div_le (trade_time first) (seconds_in up)).
    pose proof (Z.mod_pos_bound (trade_time first) (seconds_in up)).
    pose proof (Z.div_mod (trade_time first) (seconds_in up)).
    assert (0 <= trade_time first / seconds_in up)
      by (apply Z.div_pos; lia).
    apply (upscale_trades_loop_ordered (seconds_in up) ltac:(lia) rest first [])
      in Hout; cbn [time period app foldl]; try done; try lia; try nia.
    + apply Z.mod_mul. lia.
    + constructor; [|constructor]. unfold in_period. cbn. lia.
Qed.

Lemma upscale_trades_ordered_witness :
  time_ordered sample_trades
  /\ trade_times_below (2 ^ 64 - seconds_in minute) sample_trades
  /\ exists out : list candle,
       upscale_trades sample_trades [] minute ok
       = Returns (true, [] ++ out, ok)
       /\ (forall c : candle, c ∈ out ->
             exists first rest,
               filter (in_period c) sample_trades = first :: rest
               /\ c = trades_candle (seconds_in minute) first rest)
       /\ (forall t : trade, t ∈ sample_trades ->
             exists c, c ∈ out /\ in_period c t).
Proof.
  assert (H1 : time_ordered sample_trades)
    by (repeat constructor; cbn; lia).
  assert (H2 : trade_times_below (2 ^ 64 - seconds_in minute) sample_trades)
    by (repeat constructor; cbn; lia).
  split; [exact H1|]. split; [exact H2|].
  exact (upscale_trades_ordered sample_trades [] minute ok H1 H2).
Defined.

(** The candles of the loop have the period of the candle it starts
    with. *)
Lemma upscale_trades_loop_period (pis : Z) :
  pis <> 0 ->
  forall (rest : list trade) (c : candle) (turnover : float)
         (out : list candle),
    period c = pis ->
    upscale_trades_loop rest pis c turnover [] = Returns out ->
    Forall (fun c' => period c' = pis) out.
Proof.
  intros Hpis. induction rest as [|t rest IH]; intros c turnover out Hc Hloop.
  - cbn in Hloop. injection Hloop as <-. by repeat constructor.
  - rewrite upscale_trades_loop_cons in Hloop by done.
    destruct (_ <=? _).
    + destruct (upscale_trades_loop rest _ _ _ []) as [out'|] eqn:Hrec;
        [|done].
      injection Hloop as <-.
      constructor; [exact Hc|]. eapply IH; [|exact Hrec]. done.
    + eapply IH; [|exact Hloop]. exact Hc.
Qed.

(** X30.  The candles that [upscale] makes of trades can be upscaled:
    for every sequence of trades, [upscale] for candles succeeds on the
    candles of the period [up] made of them, for that period and for every
    coarser one (minute, hour, day, month, year in this order), and with at
    least one trade every candle of its result has the coarser period. *)
Theorem upscale_trades_then_candles (trades : list trade)
    (prior : list candle) (up up' : upscale_period) (ec : error) :
  (period_rank up <= period_rank up')%nat ->
  exists candles out : list candle,
    upscale_trades trades [] up ec = Returns (true, candles, ec)
    /\ (candles = [] <-> trades = [])
    /\ upscale candles prior up' ec = Returns (true, out, ec)
    /\ (trades <> [] -> Forall (fun c => period c = seconds_in up') out).
Proof.
  intros Hrank.
  pose proof (UpscaleFacts.seconds_in_bounds up) as Hs.
  pose proof (UpscaleFacts.seconds_in_rank up up' Hrank) as Hdiv.
  destruct trades as [|first rest].
  - exists [], prior. repeat split; done.
  - cbn [upscale_trades].
    unfold udiv. destruct (Z.eqb_spec (seconds_in up) 0) as [|_]; [lia|].
    cbn [mbind outcome_bind].
    destruct (upscale_trades_loop_returns (seconds_in up) ltac:(lia) rest
                (Candle (trade_time first / seconds_in up * seconds_in up)
                        (seconds_in up) 1 (amount first) 0 (price first)
                        (price first) (price first) (price first))
                (amount first * price first)%float) as (out & Hout & Hne).
    rewrite Hout.
    apply upscale_trades_loop_period in Hout; [|lia|done].
    destruct out as [|c0 out0]; [done|].
    apply Forall_cons in Hout as [Hc0 Hout0].
    assert (Hconst : constant_period (period c0) out0) by by rewrite Hc0.
    exists (c0 :: out0), (upscaled (c0 :: out0) up').
    split; [done|]. split; [done|]. split.
    + apply UpscaleFacts.upscale_succeeds; [lia|done|by rewrite Hc0].
    + intros _.
      apply (UpscaleFacts.upscaled_shape c0 out0 up');
        [lia|done|by rewrite Hc0].
Qed.

Lemma upscale_trades_then_candles_witness :
  (period_rank minute <= period_rank hour)%nat
  /\ exists candles out : list candle,
       upscale_trades sample_trades [] minute ok = Returns (true, candles, ok)
       /\ (candles = [] <-> sample_trades = [])
       /\ upscale candles [] hour ok = Returns (true, out, ok)
       /\ (sample_trades <> [] ->
           Forall (fun c => period c = seconds_in hour) out).
Proof.
  assert (H : (period_rank minute <= period_rank hour)%nat) by (cbn; lia).
  split; [exact H|].
  exact (upscale_trades_then_candles sample_trades [] minute hour ok H).
Defined.

End TradeFacts.

(** ** Merging *)

Module MergeFacts.

Import Cosevalues Swollencandle Spec.

Lemma merge_insert_x_fails_iff :
  forall (x : list candle) (indexed : gmap Z candle),
    merge_insert_x x indexed = None
    <-> ~ (NoDup (time <$> x)
           /\ Forall (fun c => indexed !! time c = None) x).
Proof.
  induction x as [|each x IH]; intros indexed.
  - cbn. split; [done|]. intros H. destruct H. split; constructor.
  - cbn [merge_insert_x]. unfold try_emplace.
    destruct (indexed !! time each) as [existing|] eqn:Hlook; cbn [negb].
    + split; [|done]. intros _ [_ Hall].
      inversion Hall as [|? ? Hc _]; subst. congruence.
    + rewrite IH. cbn [fmap list_fmap].
      rewrite NoDup_cons, list_elem_of_fmap.
      split; intros Hn H; apply Hn; clear Hn.
      * destruct H as [[Hnotin Hnd] Hall].
        inversion Hall as [|? ? _ Hall']; subst.
        split; [done|].
        apply Forall_forall. intros c Hc.
        rewrite lookup_insert_ne.
        -- by eapply Forall_forall in Hall'.
        -- intros Heq. apply Hnotin. by exists c.
      * destruct H as [Hnd Hall].
        assert (Hfresh : forall c, c ∈ x -> time each <> time c).
        { intros c Hc Heq. eapply Forall_forall in Hall; [|exact Hc].
          by rewrite <- Heq, lookup_insert_eq in Hall. }
        split; [split; [|done]|].
        -- intros (c & Heq & Hc). by apply (Hfresh c).
        -- constructor; [done|].
           apply Forall_forall. intros c Hc.
           rewrite <- (lookup_insert_ne indexed (time each) (time c) each)
             by by apply Hfresh.
           by eapply Forall_forall in Hall.
Qed.

Lemma merge_insert_x_empty_fails_iff (x : list candle) :
  merge_insert_x x ∅ = None <-> ~ NoDup (time <$> x).
Proof.
  rewrite merge_insert_x_fails_iff.
  split; intros Hn H; apply Hn.
  - split; [done|]. apply Forall_forall. intros c _. apply lookup_empty.
  - by destruct H.
Qed.

(** C4, as the code has it.  [merge] fails with [duplicated_candle] exactly
    when a time occurs twice within [x], unless both inputs have candles and
    their first periods differ (that is reported first).  A time that occurs
    twice within [y] never gives [duplicated_candle]. *)
Theorem merge_duplicated_candle_iff (x y z : list candle) (ec : error) :
  merge x y z ec = (false, z, duplicated_candle)
  <-> merging_periods_differ x y = false /\ ~ NoDup (time <$> x).
Proof.
  unfold merge, merging_periods_differ.
  destruct (match x, y with
            | fx :: _, fy :: _ => negb (period fx =? period fy)%Z
            | _, _ => false
            end) eqn:Hperiods.
  { cbn. split; [discriminate|]. by intros [? _]. }
  destruct (merge_insert_x x ∅) as [indexed|] eqn:Hx.
  - assert (Hnd : NoDup (time <$> x)).
    { destruct (decide (NoDup (time <$> x))) as [|Hn]; [done|].
      apply merge_insert_x_empty_fails_iff in Hn. congruence. }
    destruct (merge_insert_y y indexed); cbn;
      (split; [discriminate|]); by intros [_ ?].
  - cbn. split; [|done]. intros _. split; [done|].
    by apply merge_insert_x_empty_fails_iff.
Qed.

(** C4 as stated fails: the time 0 occurs twice within [y], and [merge]
    succeeds with the two equal candles merged into one. *)
Lemma merge_accepts_repeated_time_in_y :
  let y := [sample_candle; sample_candle] in
  ~ NoDup (time <$> y)
  /\ merge [] y [] ok = (true, [sample_candle], ok).
Proof.
  split.
  - intros H. apply NoDup_cons in H as [Hin _]. apply Hin. by left.
  - vm_compute. reflexivity.
Qed.

Local Open Scope Z_scope.

Lemma first_at_app (t : Z) (l1 l2 : list candle) :
  first_at t (l1 ++ l2)
  = match first_at t l1 with
    | Some c => Some c
    | None => first_at t l2
    end.
Proof.
  unfold first_at. rewrite filter_app.
  by destruct (filter _ l1).
Qed.

Lemma first_at_Some (t : Z) (l : list candle) (c : candle) :
  first_at t l = Some c -> time c = t /\ c ∈ l.
Proof.
  unfold first_at. intros H.
  assert (Hin : c ∈ filter (fun c => time c = t) l).
  { destruct (filter _ l); [done|]. injection H as ->. by left. }
  by apply list_elem_of_filter in Hin.
Qed.

Lemma first_at_None (t : Z) (l : list candle) :
  first_at t l = None <-> Forall (fun c => time c <> t) l.
Proof.
  unfold first_at. rewrite head_None. split.
  - intros H. apply Forall_forall. intros c Hc Ht.
    assert (Hin : c ∈ filter (fun c => time c = t) l)
      by by apply list_elem_of_filter.
    rewrite H in Hin. by apply elem_of_nil in Hin.
  - induction 1 as [|c l Hc _ IH]; [done|].
    by rewrite filter_cons_False.
Qed.

Lemma first_at_NoDup (l : list candle) (c : candle) :
  NoDup (time <$> l) -> c ∈ l -> first_at (time c) l = Some c.
Proof.
  induction l as [|a l IH]; intros Hnd Hc; [by apply elem_of_nil in Hc|].
  cbn [fmap list_fmap] in Hnd. apply NoDup_cons in Hnd as [Ha Hnd].
  unfold first_at.
  apply elem_of_cons in Hc as [->|Hc].
  - by rewrite filter_cons_True.
  - rewrite filter_cons_False; [by apply IH|].
    intros Heq. apply Ha. rewrite Heq. by apply list_elem_of_fmap_2.
Qed.

(** What [try_emplace] leaves in the map: under every time the first
    candle at that time. *)
Lemma try_emplace_first (each : candle) (pre : list candle)
    (indexed : gmap Z candle) :
  (forall t, indexed !! t = first_at t pre) ->
  forall t, (try_emplace (time each) each indexed).2 !! t
            = first_at t (pre ++ [each]).
Proof.
  intros Hinv t. rewrite first_at_app. unfold try_emplace.
  destruct (indexed !! time each) as [existing|] eqn:Hlook; cbn [snd].
  - rewrite Hinv. destruct (first_at t pre) eqn:Hpre; [done|].
    unfold first_at. rewrite filter_cons_False; [done|].
    intros Heq. rewrite Heq, Hinv in Hlook. congruence.
  - destruct (decide (time each = t)) as [<-|Hne].
    + rewrite lookup_insert_eq, <- Hinv, Hlook.
      unfold first_at. by rewrite filter_cons_True.
    + rewrite lookup_insert_ne, Hinv by done.
      destruct (first_at t pre); [done|].
      unfold first_at. by rewrite filter_cons_False.
Qed.

Lemma merge_insert_x_first :
  forall (x pre : list candle) (indexed indexed' : gmap Z candle),
    (forall t, indexed !! t = first_at t pre) ->
    merge_insert_x x indexed = Some indexed' ->
    forall t, indexed' !! t = first_at t (pre ++ x).
Proof.
  induction x as [|each x IH]; intros pre indexed indexed' Hinv Hx.
  - cbn in Hx. injection Hx as <-. by rewrite app_nil_r.
  - cbn [merge_insert_x] in Hx.
    pose proof (try_emplace_first each pre indexed Hinv) as Hstep.
    destruct (try_emplace (time each) each indexed) as [[? placed] m].
    destruct placed; [|done]. cbn [negb snd] in *.
    replace (pre ++ each :: x) with ((pre ++ [each]) ++ x)
      by by rewrite <- app_assoc.
    by eapply IH.
Qed.

Lemma agrees_with_earlier_cons (pre y : list candle) (each : candle) :
  agrees_with_earlier pre (each :: y)
  <-> (forall c', first_at (time each) pre = Some c' ->
                  candle_eqb c' each = true)
      /\ agrees_with_earlier (pre ++ [each]) y.
Proof.
  unfold agrees_with_earlier. split.
  - intros H. split.
    + intros c' Hc'. apply (H 0%nat each c'); [done|].
      by rewrite app_nil_r.
    + intros i c c' Hi Hc'. apply (H (S i) c c'); [done|].
      cbn [take]. by rewrite <- app_assoc in Hc'.
  - intros [H0 H] i c c' Hi Hc'.
    destruct i as [|i].
    + cbn in Hi. injection Hi as <-. apply H0.
      by rewrite app_nil_r in Hc'.
    + apply (H i c c'); [done|]. cbn [take] in Hc'.
      by rewrite <- app_assoc.
Qed.

Lemma merge_insert_y_first :
  forall (y pre : list candle) (indexed : gmap Z candle),
    (forall t, indexed !! t = first_at t pre) ->
    match merge_insert_y y indexed with
    | Some indexed' =>
        (forall t, indexed' !! t = first_at t (pre ++ y))
        /\ agrees_with_earlier pre y
    | None => ~ agrees_with_earlier pre y
    end.
Proof.
  induction y as [|each y IH]; intros pre indexed Hinv.
  - cbn. rewrite app_nil_r. split; [done|]. intros i c c' Hi. done.
  - cbn [merge_insert_y].
    pose proof (try_emplace_first each pre indexed Hinv) as Hstep.
    unfold try_emplace in *.
    destruct (indexed !! time each) as [existing|] eqn:Hlook;
      cbn [negb andb snd] in *.
    + rewrite Hinv in Hlook.
      destruct (candle_eqb existing each) eqn:Heq; cbn [negb].
      * specialize (IH (pre ++ [each]) indexed Hstep).
        replace (pre ++ each :: y) with ((pre ++ [each]) ++ y)
          by by rewrite <- app_assoc.
        destruct (merge_insert_y y indexed) as [m|].
        -- destruct IH as [Hm Hag]. split; [done|].
           apply agrees_with_earlier_cons. split; [|done].
           intros c' Hc'. congruence.
        -- intros [_ Hag]%agrees_with_earlier_cons. done.
      * intros [H0 _]%agrees_with_earlier_cons.
        specialize (H0 existing Hlook). congruence.
    + rewrite Hinv in Hlook.
      specialize (IH (pre ++ [each]) _ Hstep).
      replace (pre ++ each :: y) with ((pre ++ [each]) ++ y)
        by by rewrite <- app_assoc.
      destruct (merge_insert_y y _) as [m|].
      * destruct IH as [Hm Hag]. split; [done|].
        apply agrees_with_earlier_cons. split; [|done].
        intros c' Hc'. congruence.
      * intros [_ Hag]%agrees_with_earlier_cons. done.
Qed.

(** Every branch of [merge]. *)
Lemma merge_cases (x y z : list candle) (ec : error) :
  (merging_periods_differ x y = true
   /\ merge x y z ec = (false, z, merging_periods_mismatch))
  \/ (merging_periods_differ x y = false /\ ~ NoDup (time <$> x)
      /\ merge x y z ec = (false, z, duplicated_candle))
  \/ (merging_periods_differ x y = false /\ NoDup (time <$> x)
      /\ ~ agrees_with_earlier x y
      /\ merge x y z ec = (false, z, mismatched_candles))
  \/ (merging_periods_differ x y = false /\ NoDup (time <$> x)
      /\ agrees_with_earlier x y
      /\ exists indexed : gmap Z candle,
           (forall t, indexed !! t = first_at t (x ++ y))
           /\ merge x y z ec
              = (true, (sort_by_time (map_to_list indexed)).*2, ec)).
Proof.
  unfold merge. fold (merging_periods_differ x y).
  destruct (merging_periods_differ x y); [by left|]. right.
  destruct (merge_insert_x x ∅) as [indexed|] eqn:Hx.
  - right.
    assert (Hnd : NoDup (time <$> x)).
    { destruct (decide (NoDup (time <$> x))) as [|Hn]; [done|].
      apply merge_insert_x_empty_fails_iff in Hn. congruence. }
    assert (Hinv : forall t, indexed !! t = first_at t x).
    { apply (merge_insert_x_first x [] ∅ indexed); [|done].
      intros t. apply lookup_empty. }
    pose proof (merge_insert_y_first y x indexed Hinv) as Hy.
    destruct (merge_insert_y y indexed) as [indexed'|].
    + right. destruct Hy as [Hinv' Hag]. repeat split; try done.
      by exists indexed'.
    + left. done.
  - left. split; [done|]. split; [|done].
    by apply merge_insert_x_empty_fails_iff.
Qed.

(** The sorted candles of an index whose keys are the times of the
    candles under them. *)
Lemma sorted_index_ascending (indexed : gmap Z candle) :
  (forall t c, indexed !! t = Some c -> time c = t) ->
  StronglySorted Z.lt (time <$> (sort_by_time (map_to_list indexed)).*2).
Proof.
  intros Hkeys. unfold sort_by_time.
  set (l := merge_sort by_time (map_to_list indexed)).
  assert (Hperm : l ≡ₚ map_to_list indexed) by apply merge_sort_Permutation.
  assert (Htimes : time <$> l.*2 = l.*1).
  { rewrite <- list_fmap_compose. apply list_fmap_ext.
    intros i [t c] Hi. cbn. apply Hkeys.
    apply elem_of_map_to_list. rewrite <- Hperm.
    by eapply list_elem_of_lookup_2. }
  rewrite Htimes.
  apply ListFacts.StronglySorted_le_NoDup.
  - apply (StronglySorted_fmap fst by_time); [done|].
    apply StronglySorted_merge_sort.
    + intros a b c. unfold by_time. lia.
    + intros a b. unfold by_time. lia.
  - rewrite Hperm. apply NoDup_fst_map_to_list.
Qed.

Lemma elem_of_sorted_index (indexed : gmap Z candle) (c : candle) :
  c ∈ (sort_by_time (map_to_list indexed)).*2
  <-> exists t, indexed !! t = Some c.
Proof.
  unfold sort_by_time. rewrite merge_sort_Permutation.
  rewrite list_elem_of_fmap. split.
  - intros ([t c'] & -> & Hin). exists t. by apply elem_of_map_to_list.
  - intros [t Ht]. exists (t, c). split; [done|].
    by apply elem_of_map_to_list.
Qed.

Lemma merge_succeeds (x y z : list candle) (ec ec' : error)
    (out : list candle) :
  merge x y z ec = (true, out, ec') ->
  ec' = ec /\ NoDup (time <$> x) /\ agrees_with_earlier x y
  /\ exists indexed : gmap Z candle,
       (forall t, indexed !! t = first_at t (x ++ y))
       /\ out = (sort_by_time (map_to_list indexed)).*2.
Proof.
  intros Hm.
  destruct (merge_cases x y z ec)
    as [[_ H]|[(_ & _ & H)|[(_ & _ & _ & H)|(_ & Hnd & Hag & m & Hinv & H)]]];
    rewrite H in Hm; try discriminate.
  injection Hm as <- <-. repeat split; try done. by exists m.
Qed.

(** X10.  The other outcomes of [merge], beside [duplicated_candle]: it
    fails with [merging_periods_mismatch] exactly when both inputs have
    candles and their first periods differ; it fails with
    [mismatched_candles] exactly when that is not so, no time occurs twice
    in [x], and some candle of [y] differs (by [operator!=]) from the
    candle that is first at its time among [x] and the candles of [y] in
    front of it; and it succeeds, with the error code as it was, exactly
    when neither these nor a repeated time in [x] stand in the way.  A
    failing call leaves [z] as it was. *)
Theorem merge_outcome_iff (x y z : list candle) (ec : error) :
  (merge x y z ec = (false, z, merging_periods_mismatch)
   <-> merging_periods_differ x y = true)
  /\ (merge x y z ec = (false, z, mismatched_candles)
      <-> merging_periods_differ x y = false /\ NoDup (time <$> x)
          /\ ~ agrees_with_earlier x y)
  /\ ((exists out, merge x y z ec = (true, out, ec))
      <-> merging_periods_differ x y = false /\ NoDup (time <$> x)
          /\ agrees_with_earlier x y).
Proof.
  destruct (merge_cases x y z ec)
    as [[Hd H]|[(Hd & Hn & H)|[(Hd & Hn & Ha & H)|(Hd & Hn & Ha & m & _ & H)]]];
    rewrite H, Hd;
    (split; [|split]); split;
    try done; try (intros; discriminate);
    try (by intros (_ & ? & ?)); try (by intros (? & _));
    try (by intros [out Hout]); try (by eexists).
Qed.

(** X11.  When [merge] succeeds, the error code is as it was and the
    candles of the result stand in the order of their times, strictly
    ascending: no two result candles have the same time. *)
Theorem merge_result_ascending (x y z : list candle) (ec ec' : error)
    (out : list candle) :
  merge x y z ec = (true, out, ec') ->
  ec' = ec
  /\ forall (i j : nat) (a b : candle),
       (i < j)%nat -> out !! i = Some a -> out !! j = Some b ->
       time a < time b.
Proof.
  intros Hm.
  apply merge_succeeds in Hm as (-> & _ & _ & m & Hinv & ->).
  split; [done|].
  intros i j a b Hij Ha Hb.
  assert (Hkeys : forall t c, m !! t = Some c -> time c = t).
  { intros t c Hc. rewrite Hinv in Hc. by apply first_at_Some in Hc as [? _]. }
  pose proof (sorted_index_ascending m Hkeys) as Hs.
  apply (ListFacts.StronglySorted_lookup_lt _ _ Hs i j); [done|..];
    by rewrite list_lookup_fmap, ?Ha, ?Hb.
Qed.

Lemma merge_result_ascending_witness :
  merge [stale_candle] [sample_candle; stale_candle] [] ok
  = (true, [sample_candle; stale_candle], ok)
  /\ ok = ok
  /\ forall (i j : nat) (a b : candle),
       (i < j)%nat ->
       [sample_candle; stale_candle] !! i = Some a ->
       [sample_candle; stale_candle] !! j = Some b ->
       time a < time b.
Proof.
  assert (H : merge [stale_candle] [sample_candle; stale_candle] [] ok
              = (true, [sample_candle; stale_candle], ok))
    by (vm_compute; reflexivity).
  split; [exact H|].
  exact (merge_result_ascending _ _ _ _ _ _ H).
Defined.

(** X12.  When [merge] succeeds, the result holds exactly the candles that
    are first at their time in [x] followed by [y]: every candle of [x] is
    in it, and every candle of [y] is in it or is stood for by a candle of
    the same time that is equal to it by [operator==].  What [z] held before
    the call is gone. *)
Theorem merge_result_candles (x y z : list candle) (ec ec' : error)
    (out : list candle) :
  merge x y z ec = (true, out, ec') ->
  (forall c, c ∈ out <-> first_at (time c) (x ++ y) = Some c)
  /\ (forall c, c ∈ x -> c ∈ out)
  /\ (forall c, c ∈ y ->
        exists c', c' ∈ out /\ time c' = time c
                   /\ (c' = c \/ candle_eqb c' c = true)).
Proof.
  intros Hm.
  apply merge_succeeds in Hm as (-> & Hnd & Hag & m & Hinv & ->).
  assert (Hout : forall c, c ∈ (sort_by_time (map_to_list m)).*2
                           <-> first_at (time c) (x ++ y) = Some c).
  { intros c. rewrite elem_of_sorted_index. split.
    - intros [t Ht]. rewrite Hinv in Ht.
      pose proof (first_at_Some _ _ _ Ht) as [-> _]. done.
    - intros Hc. exists (time c). by rewrite Hinv. }
  split; [done|]. split.
  - intros c Hc. apply Hout. rewrite first_at_app.
    by rewrite (first_at_NoDup x c Hnd Hc).
  - intros c Hc. apply list_elem_of_lookup in Hc as [i Hi].
    assert (Hy : y = take i y ++ c :: drop (S i) y).
    { rewrite <- (take_drop i y) at 1. by rewrite (drop_S _ _ _ Hi). }
    destruct (first_at (time c) (x ++ take i y)) as [c'|] eqn:Hfirst.
    + exists c'. split; [|split].
      * apply Hout.
        pose proof (first_at_Some _ _ _ Hfirst) as [Ht _].
        rewrite Hy, app_assoc, first_at_app, Ht, Hfirst. done.
      * by apply first_at_Some in Hfirst as [? _].
      * right. by apply (Hag i).
    + exists c. split; [|split; [done|by left]].
      apply Hout. rewrite Hy at 1. rewrite app_assoc, first_at_app, Hfirst.
      unfold first_at. by rewrite filter_cons_True.
Qed.

Lemma merge_result_candles_witness :
  merge [stale_candle] [sample_candle; stale_candle] [] ok
  = (true, [sample_candle; stale_candle], ok)
  /\ (forall c, c ∈ [sample_candle; stale_candle]
                <-> first_at (time c)
                      ([stale_candle] ++ [sample_candle; stale_candle])
                    = Some c)
  /\ (forall c, c ∈ [stale_candle] -> c ∈ [sample_candle; stale_candle])
  /\ (forall c, c ∈ [sample_candle; stale_candle] ->
        exists c', c' ∈ [sample_candle; stale_candle] /\ time c' = time c
                   /\ (c' = c \/ candle_eqb c' c = true)).
Proof.
  assert (H : merge [stale_candle] [sample_candle; stale_candle] [] ok
              = (true, [sample_candle; stale_candle], ok))
    by (vm_compute; reflexivity).
  split; [exact H|].
  exact (merge_result_candles _ _ _ _ _ _ H).
Defined.

(** X13.  For two inputs in each of which no time occurs twice, [merge]
    succeeds exactly when the first periods do not differ and the candles
    that [x] and [y] have at the same time are equal by [operator==]. *)
Theorem merge_of_distinct_times (x y z : list candle) (ec : error) :
  NoDup (time <$> x) -> NoDup (time <$> y) ->
  ((exists out, merge x y z ec = (true, out, ec))
   <-> merging_periods_differ x y = false /\ agree_at_shared_times x y).
Proof.
  intros Hx Hy.
  assert (Hag : agrees_with_earlier x y <-> agree_at_shared_times x y).
  { split.
    - intros Hag cx cy Hcx Hcy Ht.
      apply list_elem_of_lookup in Hcy as [i Hi].
      apply (Hag i cy cx Hi).
      rewrite first_at_app, <- Ht.
      by rewrite (first_at_NoDup x cx Hx Hcx).
    - intros Hsh i c c' Hi Hc'.
      apply first_at_Some in Hc' as [Ht Hin].
      apply elem_of_app in Hin as [Hin|Hin].
      + apply Hsh; [done| |done]. by eapply list_elem_of_lookup_2.
      + apply list_elem_of_lookup in Hin as [j Hj].
        apply lookup_take_Some in Hj as [Hj Hlt].
        assert (i = j); [|lia].
        apply (NoDup_lookup (time <$> y) i j (time c)); [done|..];
          rewrite list_lookup_fmap, ?Hi, ?Hj; cbn; congruence. }
  rewrite <- Hag.
  destruct (merge_cases x y z ec)
    as [[Hd H]|[(Hd & Hn & H)|[(Hd & Hn & Ha & H)|(Hd & Hn & Ha & m & _ & H)]]];
    rewrite H, Hd; split;
    try done; try (by intros [out Hout]); try (by intros [? ?]);
    try (by eexists).
Qed.

Lemma merge_of_distinct_times_witness :
  NoDup (time <$> [stale_candle])
  /\ NoDup (time <$> [sample_candle; stale_candle])
  /\ ((exists out,
         merge [stale_candle] [sample_candle; stale_candle] [] ok
         = (true, out, ok))
      <-> merging_periods_differ [stale_candle] [sample_candle; stale_candle]
          = false
          /\ agree_at_shared_times [stale_candle]
               [sample_candle; stale_candle]).
Proof.
  assert (H1 : NoDup (time <$> [stale_candle]))
    by (apply NoDup_singleton).
  assert (H2 : NoDup (time <$> [sample_candle; stale_candle])).
  { apply NoDup_cons. split; [|apply NoDup_singleton].
    intros Hin. apply list_elem_of_singleton in Hin. discriminate Hin. }
  split; [exact H1|]. split; [exact H2|].
  exact (merge_of_distinct_times _ _ [] ok H1 H2).
Defined.

End MergeFacts.


(** ** Decimal digits *)

Module CharconvFacts.

Import Charconv Spec.

Local Open Scope Z_scope.

Lemma digit_char_spec (d : Z) :
  0 <= d < 10 ->
  is_digit (digit_char d) = true
  /\ digit_value (digit_char d) = d
  /\ (digit_char d = "0"%char -> d = 0).
Proof.
  intros Hd.
  assert (Hcases : d = 0 \/ d = 1 \/ d = 2 \/ d = 3 \/ d = 4 \/ d = 5
                   \/ d = 6 \/ d = 7 \/ d = 8 \/ d = 9) by lia.
  repeat (destruct Hcases as [->|Hcases]); try subst d;
    (split; [reflexivity|split; [reflexivity|]]); try done;
    intros H; discriminate H.
Qed.

Lemma digits_value_app (ds es : list ascii) :
  forall a : Z,
    digits_value a (ds ++ es) = digits_value (digits_value a ds) es.
Proof. induction ds as [|d ds IH]; intros a; [done|]. cbn. apply IH. Qed.

(** What [decimal_fuel] puts in front of [acc], given enough fuel. *)
Lemma decimal_fuel_spec :
  forall (fuel : nat) (v : Z) (acc : list ascii),
    (1 <= fuel)%nat -> 0 <= v < 2 ^ Z.of_nat fuel ->
    exists ds : list ascii,
      decimal_fuel fuel v acc = ds ++ acc
      /\ ds <> []
      /\ Forall (fun d => is_digit d = true) ds
      /\ (forall a, digits_value a ds = a * 10 ^ Z.of_nat (length ds) + v)
      /\ (hd NUL ds = "0"%char -> ds = ["0"%char])
      /\ v < 10 ^ Z.of_nat (length ds)
      /\ (v = 0 \/ 10 ^ (Z.of_nat (length ds) - 1) <= v).
Proof.
  induction fuel as [|fuel IH]; intros v acc Hfuel Hv; [lia|].
  cbn [decimal_fuel].
  assert (Hmod : 0 <= v mod 10 < 10) by (apply Z.mod_pos_bound; lia).
  destruct (digit_char_spec (v mod 10) Hmod) as (Hdig & Hval & Hzero).
  destruct (Z.ltb_spec v 10) as [Hsmall|Hbig].
  - exists [digit_char (v mod 10)].
    rewrite Z.mod_small in * by lia.
    split; [done|]. split; [done|]. split; [by repeat constructor|].
    split; [intros a; cbn; rewrite Hval; lia|].
    split; [intros H; cbn in H; by rewrite (Hzero H)|].
    cbn. lia.
  - assert (Hpow : 2 ^ Z.of_nat (S fuel) = 2 * 2 ^ Z.of_nat fuel).
    { rewrite Nat2Z.inj_succ, Z.pow_succ_r; lia. }
    assert (Hdiv : 1 <= v / 10 < 2 ^ Z.of_nat fuel).
    { split.
      - apply Z.div_le_lower_bound; lia.
      - apply Z.div_lt_upper_bound; lia. }
    assert (Hf : (1 <= fuel)%nat).
    { destruct fuel; [|lia]. cbn in Hdiv. lia. }
    destruct (IH (v / 10) (digit_char (v mod 10) :: acc) Hf ltac:(lia))
      as (ds & Heq & Hne & Hall & Hvalue & Hhd & Hup & Hlow).
    exists (ds ++ [digit_char (v mod 10)]).
    rewrite length_app. cbn [length].
    replace (Z.of_nat (length ds + 1)) with (Z.succ (Z.of_nat (length ds)))
      by lia.
    rewrite Z.pow_succ_r by lia.
    pose proof (Z.div_mod v 10 ltac:(lia)) as Hdm.
    split; [by rewrite Heq, <- app_assoc|].
    split; [by destruct ds|].
    split; [apply Forall_app; split; [done|by repeat constructor]|].
    split.
    { intros a. rewrite digits_value_app, Hvalue. cbn. rewrite Hval. lia. }
    split.
    { intros H. destruct ds as [|d ds]; [done|]. cbn in H.
      specialize (Hhd H). injection Hhd as -> ->.
      specialize (Hvalue 0).
      change (digits_value 0 ["0"%char]) with 0 in Hvalue. lia. }
    split; [lia|]. right.
    destruct Hlow as [|Hlow]; [lia|].
    replace (Z.succ (Z.of_nat (length ds)) - 1)
      with (Z.succ (Z.of_nat (length ds) - 1)) by lia.
    destruct ds as [|d ds]; [done|].
    rewrite Z.pow_succ_r by (cbn [length]; lia). lia.
Qed.

Lemma decimal_spec (v : Z) :
  0 <= v ->
  minimal_decimal v (decimal v)
  /\ v < 10 ^ Z.of_nat (length (decimal v))
  /\ (v = 0 \/ 10 ^ (Z.of_nat (length (decimal v)) - 1) <= v).
Proof.
  intros Hv. unfold decimal.
  destruct (decimal_fuel_spec (S (Z.to_nat (Z.log2 v))) v [])
    as (ds & Heq & Hne & Hall & Hvalue & Hhd & Hup & Hlow); [lia| |].
  - split; [done|].
    destruct (Z.eq_dec v 0) as [->|Hnz]; [done|].
    rewrite Nat2Z.inj_succ, Z2Nat.id by apply Z.log2_nonneg.
    apply Z.log2_spec. lia.
  - rewrite Heq, app_nil_r.
    split; [|done].
    split; [done|]. split; [done|]. split; [|done].
    rewrite Hvalue. lia.
Qed.

(** A value below [10^n] has at most [n] digits; one from [10^n] on has
    more. *)
Lemma decimal_length_le (v : Z) (n : nat) :
  (1 <= n)%nat -> 0 <= v < 10 ^ Z.of_nat n -> (length (decimal v) <= n)%nat.
Proof.
  intros Hn Hv.
  destruct (decimal_spec v ltac:(lia)) as (_ & _ & [->|Hlow]).
  - change (length (decimal 0)) with 1%nat. lia.
  - destruct (Nat.le_gt_cases (length (decimal v)) n) as [|Hgt]; [done|].
    assert (10 ^ Z.of_nat n <= 10 ^ (Z.of_nat (length (decimal v)) - 1))
      by (apply Z.pow_le_mono_r; lia).
    lia.
Qed.

Lemma decimal_length_gt (v : Z) (n : nat) :
  10 ^ Z.of_nat n <= v -> (n < length (decimal v))%nat.
Proof.
  intros Hv.
  assert (0 < 10 ^ Z.of_nat n) by (apply Z.pow_pos_nonneg; lia).
  destruct (decimal_spec v ltac:(lia)) as (_ & Hup & _).
  destruct (Nat.le_gt_cases (length (decimal v)) n) as [Hle|]; [|done].
  assert (10 ^ Z.of_nat (length (decimal v)) <= 10 ^ Z.of_nat n)
    by (apply Z.pow_le_mono_r; lia).
  lia.
Qed.

End CharconvFacts.

(** ** The writer *)

Module WriterFacts.

Import Charconv Cosevalues Swollencandle Spec.

Local Open Scope Z_scope.

Lemma lor_shiftr_bounds (a k : Z) :
  0 <= a < 2 ^ 63 -> 0 <= k ->
  a <= Z.lor a (Z.shiftr a k) < 2 ^ 63.
Proof.
  intros Ha Hk.
  assert (Hs : 0 <= Z.shiftr a k <= a).
  { rewrite Z.shiftr_div_pow2 by done.
    assert (0 < 2 ^ k) by (apply Z.pow_pos_nonneg; lia).
    split.
    - apply Z.div_pos; lia.
    - apply Z.div_le_upper_bound; [lia|nia]. }
  set (c := Z.lor a (Z.shiftr a k)).
  assert (Hc : 0 <= c) by (apply Z.lor_nonneg; lia).
  split.
  - assert (Hd : Z.ldiff a c = 0).
    { apply Z.bits_inj'. intros n Hn.
      rewrite Z.ldiff_spec, Z.bits_0. unfold c. rewrite Z.lor_spec.
      by destruct (Z.testbit a n). }
    pose proof (Z.sub_nocarry_ldiff c a Hd) as Hsub.
    assert (0 <= Z.ldiff c a) by (apply Z.ldiff_nonneg; lia).
    lia.
  - destruct (Z.eq_dec c 0) as [->|Hnz]; [lia|].
    apply Z.log2_lt_pow2; [lia|].
    unfold c. rewrite Z.log2_lor by lia.
    assert (Z.log2 (Z.shiftr a k) <= Z.log2 a) by (apply Z.log2_le_mono; lia).
    destruct (Z.eq_dec a 0) as [->|Ha0].
    + rewrite Z.shiftr_0_l. simpl. lia.
    + assert (Z.log2 a < 63) by (apply Z.log2_lt_pow2; lia). lia.
Qed.

(** Up to [2^63] the capacity asked for is at least the size needed. *)
Lemma nearest_power_of_2_ge (n : Z) :
  0 <= n <= 2 ^ 63 -> n <= nearest_power_of_2 n < 2 ^ 64.
Proof.
  intros Hn. unfold nearest_power_of_2.
  destruct (Z.ltb_spec n 2) as [|H2]; [lia|].
  unfold wrap64. rewrite (Z.mod_small (n - 1)) by lia.
  pose proof (lor_shiftr_bounds (n - 1) 1 ltac:(lia) ltac:(lia)) as H1.
  set (n1 := Z.lor (n - 1) (Z.shiftr (n - 1) 1)) in *.
  pose proof (lor_shiftr_bounds n1 2 ltac:(lia) ltac:(lia)) as H3.
  set (n2 := Z.lor n1 (Z.shiftr n1 2)) in *.
  pose proof (lor_shiftr_bounds n2 4 ltac:(lia) ltac:(lia)) as H4.
  set (n3 := Z.lor n2 (Z.shiftr n2 4)) in *.
  pose proof (lor_shiftr_bounds n3 8 ltac:(lia) ltac:(lia)) as H5.
  set (n4 := Z.lor n3 (Z.shiftr n3 8)) in *.
  pose proof (lor_shiftr_bounds n4 16 ltac:(lia) ltac:(lia)) as H6.
  set (n5 := Z.lor n4 (Z.shiftr n4 16)) in *.
  pose proof (lor_shiftr_bounds n5 32 ltac:(lia) ltac:(lia)) as H7.
  set (n6 := Z.lor n5 (Z.shiftr n5 32)) in *.
  rewrite Z.mod_small by lia. lia.
Qed.

Lemma string_resize_grow (n : Z) (w : writer) :
  buffer_size w <= n ->
  buffer_ (string_resize n w)
  = buffer_ w ++ replicate (Z.to_nat n - length (buffer_ w)) NUL.
Proof.
  unfold buffer_size, string_resize. intros Hn. cbn [buffer_].
  rewrite take_ge by lia. done.
Qed.

Lemma string_resize_cut (pre rest : list ascii) (n : Z) (w : writer) :
  buffer_ w = pre ++ rest ->
  n = Z.of_nat (length pre) ->
  buffer_ (string_resize n w) = pre.
Proof.
  intros Hb ->. unfold string_resize. cbn [buffer_].
  rewrite Hb, Nat2Z.id, take_app_length, length_app.
  replace (length pre - (length pre + length rest))%nat with 0%nat by lia.
  apply app_nil_r.
Qed.

(** [allocate] returns the old end and leaves at least [sz] fresh characters
    behind it. *)
Lemma allocate_spec (sz : Z) (w : writer) :
  0 <= sz -> buffer_size w + sz <= 2 ^ 63 ->
  fst (allocate sz w) = buffer_size w
  /\ exists k : nat,
      sz <= Z.of_nat k
      /\ buffer_ (snd (allocate sz w)) = buffer_ w ++ replicate k NUL.
Proof.
  intros Hsz Hroom. unfold allocate. cbn [fst snd].
  split; [done|].
  assert (Hsize : 0 <= buffer_size w) by (unfold buffer_size; lia).
  unfold wrap64. rewrite Z.mod_small by lia.
  pose proof (nearest_power_of_2_ge (buffer_size w + sz) ltac:(lia)) as Hpow.
  destruct (capacity_ w <? buffer_size w + sz).
  - rewrite string_resize_grow by lia.
    eexists. split; [|done]. unfold buffer_size in *. lia.
  - rewrite string_resize_grow by lia.
    eexists. split; [|done]. unfold buffer_size in *. lia.
Qed.

Lemma store_prefix (pre rest text : list ascii) (p : Z) (w : writer) :
  buffer_ w = pre ++ rest ->
  p = Z.of_nat (length pre) ->
  (length text <= length rest)%nat ->
  buffer_ (store p text w) = (pre ++ text) ++ drop (length text) rest.
Proof.
  intros Hb -> Hlen. unfold store, buffer_size. rewrite Hb, length_app.
  destruct (Z.leb_spec 0 (Z.of_nat (length pre))) as [_|]; [|lia].
  destruct (Z.leb_spec (Z.of_nat (length pre) + Z.of_nat (length text))
              (Z.of_nat (length pre + length rest)%nat)) as [_|]; [|lia].
  cbn [andb buffer_].
  rewrite Nat2Z.id, take_app_length, drop_app_ge by lia.
  replace (length pre + length text - length pre)%nat
    with (length text) by lia.
  by rewrite <- app_assoc.
Qed.

Lemma format_arg_number_appends (digits : Z) (text : list ascii) (w : writer) :
  0 <= digits -> buffer_size w + digits <= 2 ^ 63 ->
  buffer_ (format_arg_number digits text w)
  = buffer_ w ++ number_text digits text.
Proof.
  intros Hd Hroom.
  destruct (allocate_spec digits w Hd Hroom) as (Hp & k & Hk & Hbuf).
  unfold format_arg_number, number_text.
  destruct (allocate digits w) as [p w1]. cbn [fst snd] in Hp, Hbuf. subst p.
  unfold to_chars.
  replace (buffer_size w + digits - buffer_size w) with digits by lia.
  destruct (Z.ltb_spec digits (Z.of_nat (length text))) as [Hlong|Hfits].
  - destruct (Z.leb_spec (Z.of_nat (length text)) digits) as [|_]; [lia|].
    unfold free.
    apply (string_resize_cut _ (replicate (k - Z.to_nat digits) NUL)).
    + rewrite Hbuf, <- app_assoc, <- replicate_add. do 2 f_equal. lia.
    + rewrite length_app, length_replicate. unfold buffer_size. lia.
  - destruct (Z.leb_spec (Z.of_nat (length text)) digits) as [_|]; [|lia].
    unfold free.
    eapply string_resize_cut.
    + apply (store_prefix (buffer_ w) (replicate k NUL)); [done|done|].
      rewrite length_replicate. lia.
    + rewrite length_app. unfold buffer_size. lia.
Qed.

(** [to_chars] into the room between [first] and [last], and the cut at
    [converted.ptr]. *)
Lemma to_chars_free (pre room extra text : list ascii) (first last : Z)
    (w : writer) :
  buffer_ w = pre ++ room ++ extra ->
  first = Z.of_nat (length pre) ->
  last = first + Z.of_nat (length room) ->
  buffer_ (free (to_chars first last text w).1.1 (to_chars first last text w).2)
  = pre ++ (if Z.of_nat (length text) <=? Z.of_nat (length room)
            then text else room).
Proof.
  intros Hbuf -> ->. unfold to_chars.
  replace (Z.of_nat (length pre) + Z.of_nat (length room)
           - Z.of_nat (length pre)) with (Z.of_nat (length room)) by lia.
  destruct (Z.ltb_spec (Z.of_nat (length room)) (Z.of_nat (length text)))
    as [Hlong|Hfits].
  - destruct (Z.leb_spec (Z.of_nat (length text)) (Z.of_nat (length room)))
      as [|_]; [lia|].
    cbn [fst snd]. unfold free.
    apply (string_resize_cut _ extra).
    + by rewrite Hbuf, <- app_assoc.
    + rewrite length_app. lia.
  - destruct (Z.leb_spec (Z.of_nat (length text)) (Z.of_nat (length room)))
      as [_|]; [|lia].
    cbn [fst snd]. unfold free.
    eapply string_resize_cut.
    + apply (store_prefix pre (room ++ extra)); [done|done|].
      rewrite length_app. lia.
    + rewrite length_app. lia.
Qed.

Lemma format_arg_integer_appends (digits v : Z) (w : writer) :
  1 <= digits -> buffer_size w + digits <= 2 ^ 63 ->
  buffer_ (format_arg_integer digits v w)
  = buffer_ w ++ integer_field digits v.
Proof.
  intros Hd Hroom.
  destruct (allocate_spec digits w ltac:(lia) Hroom) as (Hp & k & Hk & Hbuf).
  unfold format_arg_integer, integer_field, to_chars_int.
  destruct (allocate digits w) as [p w1]. cbn [fst snd] in Hp, Hbuf. subst p.
  destruct (Z.eqb_spec (buffer_size w) (buffer_size w + digits)) as [|_];
    [lia|].
  assert (Hsplit : replicate k NUL
                   = replicate (Z.to_nat digits) NUL
                       ++ replicate (k - Z.to_nat digits) NUL).
  { rewrite <- replicate_add. f_equal. lia. }
  unfold integer_text.
  destruct (Z.ltb_spec v 0) as [Hneg|Hpos].
  - pose proof (store_prefix (buffer_ w) (replicate k NUL) [MINUS]
                  (buffer_size w) w1 Hbuf eq_refl) as Hsign.
    rewrite length_replicate in Hsign.
    specialize (Hsign ltac:(cbn [length]; lia)).
    assert (Hroom1 : drop (length [MINUS]) (replicate k NUL)
                     = replicate (Z.to_nat digits - 1) NUL
                         ++ replicate (k - Z.to_nat digits) NUL).
    { rewrite drop_replicate, <- replicate_add. f_equal. cbn [length]. lia. }
    rewrite Hroom1 in Hsign.
    destruct (to_chars _ _ _ _) as [[q e] w2] eqn:Hconv.
    pose proof (to_chars_free _ _ _ (decimal (- v)) (buffer_size w + 1)
                  (buffer_size w + digits) _ Hsign) as Hfree.
    rewrite Hconv in Hfree. cbn [fst snd] in Hfree.
    rewrite Hfree.
    + rewrite length_replicate, <- app_assoc. cbn [app length]. f_equal.
      f_equal.
      destruct (Z.leb_spec (Z.of_nat (length (decimal (- v))))
                  (Z.of_nat (Z.to_nat digits - 1)));
        destruct (Z.leb_spec (Z.of_nat (S (length (decimal (- v))))) digits);
        try lia; done.
    + rewrite length_app. cbn [length]. unfold buffer_size. lia.
    + rewrite length_replicate. lia.
  - rewrite Hsplit in Hbuf.
    destruct (to_chars _ _ _ _) as [[q e] w2] eqn:Hconv.
    pose proof (to_chars_free _ _ _ (decimal v) (buffer_size w)
                  (buffer_size w + digits) _ Hbuf) as Hfree.
    rewrite Hconv in Hfree. cbn [fst snd] in Hfree.
    rewrite Hfree.
    + rewrite length_replicate. f_equal.
      destruct (Z.leb_spec (Z.of_nat (length (decimal v)))
                  (Z.of_nat (Z.to_nat digits)));
        destruct (Z.leb_spec (Z.of_nat (length (decimal v))) digits);
        try lia; done.
    + done.
    + rewrite length_replicate. lia.
Qed.

Lemma format_arg_pointer_appends (arg : list ascii) (w : writer) :
  buffer_size w + (Z.of_nat (length arg) + 2) <= 2 ^ 63 ->
  buffer_ (format_arg_pointer arg w) = buffer_ w ++ quoted arg.
Proof.
  intros Hroom.
  destruct (allocate_spec (Z.of_nat (length arg) + 2) w ltac:(lia) Hroom)
    as (Hp & k & Hk & Hbuf).
  unfold format_arg_pointer, quoted.
  destruct (allocate _ w) as [p w1]. cbn [fst snd] in Hp, Hbuf. subst p.
  pose proof (store_prefix (buffer_ w) (replicate k NUL) [DQUOTE]
                (buffer_size w) w1 Hbuf eq_refl) as H1.
  rewrite length_replicate in H1. specialize (H1 ltac:(simpl; lia)).
  pose proof (store_prefix _ _ arg (buffer_size w + 1) _ H1) as H2.
  rewrite length_app, length_drop, length_replicate in H2.
  specialize (H2 ltac:(unfold buffer_size; simpl; lia) ltac:(simpl; lia)).
  pose proof (store_prefix _ _ [DQUOTE]
                (buffer_size w + 1 + Z.of_nat (length arg)) _ H2) as H3.
  rewrite !length_app, !length_drop, length_replicate in H3.
  specialize (H3 ltac:(unfold buffer_size; simpl; lia) ltac:(simpl; lia)).
  replace (buffer_ w ++ DQUOTE :: arg ++ [DQUOTE])
    with (((buffer_ w ++ [DQUOTE]) ++ arg) ++ [DQUOTE])
    by (by rewrite <- !app_assoc).
  unfold free. eapply string_resize_cut; [exact H3|].
  rewrite !length_app. unfold buffer_size. simpl. lia.
Qed.

(** The array overload writes the same characters as the pointer
    overload. *)
Lemma format_arg_array_appends (arg : list ascii) (w : writer) :
  buffer_size w + (Z.of_nat (length arg) + 3) <= 2 ^ 63 ->
  buffer_ (format_arg_array arg w) = buffer_ w ++ quoted arg.
Proof.
  intros Hroom.
  destruct (allocate_spec (Z.of_nat (length arg) + 1 + 2) w ltac:(lia)
              ltac:(lia)) as (Hp & k & Hk & Hbuf).
  unfold format_arg_array, quoted.
  destruct (allocate _ w) as [p w1]. cbn [fst snd] in Hp, Hbuf. subst p.
  pose proof (store_prefix (buffer_ w) (replicate k NUL) [DQUOTE]
                (buffer_size w) w1 Hbuf eq_refl) as H1.
  rewrite length_replicate in H1. specialize (H1 ltac:(simpl; lia)).
  pose proof (store_prefix _ _ arg (buffer_size w + 1) _ H1) as H2.
  rewrite length_app, length_drop, length_replicate in H2.
  specialize (H2 ltac:(unfold buffer_size; simpl; lia) ltac:(simpl; lia)).
  pose proof (store_prefix _ _ [DQUOTE]
                (buffer_size w + 1 + (Z.of_nat (length arg) + 1 - 1)) _ H2)
    as H3.
  rewrite !length_app, !length_drop, length_replicate in H3.
  specialize (H3 ltac:(unfold buffer_size; simpl; lia) ltac:(simpl; lia)).
  replace (buffer_ w ++ DQUOTE :: arg ++ [DQUOTE])
    with (((buffer_ w ++ [DQUOTE]) ++ arg) ++ [DQUOTE])
    by (by rewrite <- !app_assoc).
  unfold free. eapply string_resize_cut; [exact H3|].
  rewrite !length_app. unfold buffer_size. simpl. lia.
Qed.

Lemma argument_room_nonneg (a : argument) : 0 <= argument_room a.
Proof. destruct a; cbn; unfold int32_digits, uint32_digits, int64_digits,
  uint64_digits, float_digits, double_digits; lia. Qed.

Lemma number_text_length (digits : Z) (text : list ascii) :
  0 <= digits -> Z.of_nat (length (number_text digits text)) <= digits.
Proof.
  intros Hd. unfold number_text.
  destruct (Z.leb_spec (Z.of_nat (length text)) digits); [done|].
  rewrite length_replicate. lia.
Qed.

Lemma integer_field_length (digits v : Z) :
  1 <= digits -> Z.of_nat (length (integer_field digits v)) <= digits.
Proof.
  intros Hd. unfold integer_field.
  destruct (Z.leb_spec (Z.of_nat (length (integer_text v))) digits); [done|].
  destruct (v <? 0); cbn [length]; rewrite length_replicate; lia.
Qed.

Lemma integer_field_fits (digits v : Z) :
  Z.of_nat (length (integer_text v)) <= digits ->
  integer_field digits v = integer_text v.
Proof.
  intros H. unfold integer_field.
  by destruct (Z.leb_spec (Z.of_nat (length (integer_text v))) digits);
    [|lia].
Qed.

Lemma argument_text_length (a : argument) :
  Z.of_nat (length (argument_text a)) <= argument_room a.
Proof.
  destruct a; cbn [argument_text argument_room];
    try (by apply number_text_length);
    try (by apply integer_field_length).
  unfold quoted. cbn [length]. rewrite length_app. cbn [length]. lia.
Qed.

Lemma format_arg_appends (a : argument) (w : writer) :
  buffer_size w + argument_room a <= 2 ^ 63 ->
  buffer_ (format_arg a w) = buffer_ w ++ argument_text a.
Proof.
  destruct a; cbn [format_arg argument_text argument_room]; intros Hroom;
    try (by apply format_arg_number_appends);
    try (by apply format_arg_integer_appends).
  by apply format_arg_pointer_appends.
Qed.

Lemma format_args_appends :
  forall (args : list argument) (w : writer),
    buffer_size w + row_room args <= 2 ^ 63 ->
    buffer_ (format_args args w) = buffer_ w ++ row_text args.
Proof.
  induction args as [|a args IH]; intros w Hroom.
  - cbn. by rewrite app_nil_r.
  - cbn [row_room foldr] in Hroom. fold (row_room args) in Hroom.
    assert (Hrest : 0 <= row_room args).
    { clear. induction args as [|b args IH]; cbn; [done|].
      fold (row_room args). pose proof (argument_room_nonneg b). lia. }
    pose proof (argument_room_nonneg a) as Ha.
    pose proof (argument_text_length a) as Hlen.
    assert (Harg : buffer_ (format_arg a w) = buffer_ w ++ argument_text a)
      by (apply format_arg_appends; lia).
    cbn [format_args row_text].
    destruct args as [|b args].
    + cbn [push_back buffer_]. by rewrite Harg, <- app_assoc.
    + rewrite IH.
      * cbn [push_back buffer_]. rewrite Harg, <- !app_assoc. done.
      * unfold buffer_size in *. cbn [push_back buffer_].
        rewrite Harg, !length_app. cbn [length]. lia.
Qed.

Lemma row_text_length (args : list argument) :
  Z.of_nat (length (row_text args)) <= row_room args.
Proof.
  induction args as [|a args IH]; [done|].
  cbn [row_text row_room foldr]. fold (row_room args).
  pose proof (argument_text_length a) as Ha.
  rewrite length_app.
  destruct args as [|b args].
  - cbn. lia.
  - cbn [length]. lia.
Qed.

(** The rows of candles, one [format] call each. *)
Lemma write_rows_appends {A : Type} (row : A -> list argument) (room : Z) :
  (forall a, row_room (row a) = room) ->
  forall (entries : list A) (w : writer),
    buffer_size w + room * Z.of_nat (length entries) <= 2 ^ 63 ->
    buffer_ (fold_left (fun w a => format (row a) w) entries w)
    = buffer_ w ++ concat ((fun a => row_text (row a)) <$> entries).
Proof.
  intros Hrow.
  assert (Hroom0 : forall a : A, 0 <= room).
  { intros a. rewrite <- (Hrow a). pose proof (row_text_length (row a)). lia. }
  induction entries as [|a entries IH]; intros w Hroom.
  - cbn. by rewrite app_nil_r.
  - specialize (Hroom0 a).
    cbn [fold_left fmap list_fmap concat]. cbn [length] in Hroom.
    assert (Hfmt : buffer_ (format (row a) w) = buffer_ w ++ row_text (row a)).
    { apply format_args_appends. rewrite Hrow. nia. }
    rewrite IH.
    + by rewrite Hfmt, <- app_assoc.
    + pose proof (row_text_length (row a)) as Hlen. rewrite Hrow in Hlen.
      unfold buffer_size in *. rewrite Hfmt, length_app. nia.
Qed.

(** The bytes of a candle file: the quoted header line, then the rows. *)
Lemma write_candles_text (candles : list candle) :
  Z.of_nat (length candles) < 2 ^ 54 ->
  write_candles candles
  = quoted_header_line
      ++ concat ((fun c => row_text (candle_row c)) <$> candles).
Proof.
  intros Hn. unfold write_candles, to_string.
  set (w0 := reserve _ empty_writer).
  assert (H0 : buffer_ w0 = []) by done.
  assert (Hh : buffer_ (format candle_header w0) = quoted_header_line).
  { unfold format. rewrite format_args_appends.
    - rewrite H0. reflexivity.
    - unfold buffer_size. rewrite H0. vm_compute. discriminate. }
  rewrite (write_rows_appends candle_row 247).
  - by rewrite Hh.
  - intros c. reflexivity.
  - unfold buffer_size. rewrite Hh.
    replace (Z.of_nat (length quoted_header_line)) with 99 by reflexivity.
    lia.
Qed.

(** C6, as the code has it.  The bytes of a candle file start with the
    header line in which every column name stands between double quotes,
    [quoted_header_line], and the rows follow.  (The bound keeps the sizes
    below [2^63], where [nearest_power_of_2] does not wrap; 2^54 candles take
    more memory than a 64-bit address space has.) *)
Theorem write_candles_starts_with_quoted_header (candles : list candle) :
  Z.of_nat (length candles) < 2 ^ 54 ->
  exists rows : list ascii,
    write_candles candles = quoted_header_line ++ rows
    /\ rows = concat ((fun c => row_text (candle_row c)) <$> candles).
Proof.
  intros Hn. eexists. split; [|reflexivity]. by apply write_candles_text.
Qed.

Lemma write_candles_starts_with_quoted_header_witness :
  Z.of_nat (length [sample_candle; stale_candle]) < 2 ^ 54
  /\ exists rows : list ascii,
      write_candles [sample_candle; stale_candle] = quoted_header_line ++ rows
      /\ rows = concat ((fun c => row_text (candle_row c))
                          <$> [sample_candle; stale_candle]).
Proof.
  assert (H : Z.of_nat (length [sample_candle; stale_candle]) < 2 ^ 54)
    by (vm_compute; reflexivity).
  split; [exact H|].
  exact (write_candles_starts_with_quoted_header
           [sample_candle; stale_candle] H).
Defined.

(** C6 as stated fails: the file does not start with the header line
    without quotes. *)
Lemma write_candles_header_is_not_plain :
  ~ exists rows : list ascii,
      write_candles [sample_candle] = plain_header_line ++ rows.
Proof. intros [rows H]. vm_compute in H. discriminate H. Qed.

(** Below [10^18] the [uint64_t] overload appends the decimal
    representation without leading zeros. *)
Lemma format_arg_uint64_small (v : Z) (w : writer) :
  0 <= v < 10 ^ 18 -> buffer_size w + 18 <= 2 ^ 63 ->
  buffer_ (format_arg (AUInt64 v) w) = buffer_ w ++ decimal v
  /\ minimal_decimal v (decimal v).
Proof.
  intros Hv Hroom.
  split; [|by destruct (CharconvFacts.decimal_spec v) as [H _]; [lia|]].
  rewrite format_arg_appends by done.
  cbn [argument_text]. unfold integer_field, integer_text.
  destruct (Z.ltb_spec v 0) as [|_]; [lia|].
  pose proof (CharconvFacts.decimal_length_le v 18 ltac:(lia) Hv).
  destruct (Z.leb_spec (Z.of_nat (length (decimal v))) uint64_digits)
    as [_|Hlong]; [done|].
  unfold uint64_digits in Hlong. lia.
Qed.

(** From [10^18] on the 18 characters of room are left as [allocate] made
    them. *)
Lemma format_arg_uint64_large (v : Z) (w : writer) :
  10 ^ 18 <= v -> buffer_size w + 18 <= 2 ^ 63 ->
  buffer_ (format_arg (AUInt64 v) w) = buffer_ w ++ replicate 18 NUL.
Proof.
  intros Hv Hroom.
  rewrite format_arg_appends by done.
  cbn [argument_text]. unfold integer_field, integer_text.
  destruct (Z.ltb_spec v 0) as [|_]; [lia|].
  pose proof (CharconvFacts.decimal_length_gt v 18 Hv).
  destruct (Z.leb_spec (Z.of_nat (length (decimal v))) uint64_digits)
    as [Hfits|_]; [|done].
  unfold uint64_digits in Hfits. lia.
Qed.

(** C3, at the value [10^18]: a [uint64_t], whose decimal representation
    has 19 digits.  The writer appends 18 NUL characters instead. *)
Theorem format_arg_uint64_drops_19_digits :
  10 ^ 18 <= 2 ^ 64 - 1
  /\ minimal_decimal (10 ^ 18) (chars "1000000000000000000")
  /\ buffer_ (format_arg (AUInt64 (10 ^ 18)) empty_writer)
     = replicate 18 NUL.
Proof.
  split; [vm_compute; discriminate|].
  split; [|vm_compute; reflexivity].
  unfold minimal_decimal.
  split; [discriminate|].
  split; [by repeat constructor|].
  split; [reflexivity|discriminate].
Qed.

Lemma integer_text_length (z : Z) (n : nat) :
  (1 <= n)%nat -> - 10 ^ Z.of_nat n < z < 10 ^ Z.of_nat n ->
  (length (integer_text z) <= (if (z <? 0)%Z then S n else n))%nat.
Proof.
  intros Hn Hz. unfold integer_text.
  destruct (Z.ltb_spec z 0).
  - cbn [length]. pose proof (CharconvFacts.decimal_length_le (- z) n Hn). lia.
  - pose proof (CharconvFacts.decimal_length_le z n Hn). lia.
Qed.

(** X15.  The 32-bit overloads of [format_arg] write every value in full:
    the 11 characters of room of [int32_t] and the 10 of [uint32_t] hold
    the longest texts of the types, so the minimal decimal text ([to_chars])
    is appended, with a minus sign for a negative value. *)
Theorem format_arg_32_bits_complete (z u : Z) (w : writer) :
  buffer_size w + 11 <= 2 ^ 63 ->
  - 2 ^ 31 <= z < 2 ^ 31 -> 0 <= u < 2 ^ 32 ->
  buffer_ (format_arg (AInt32 z) w) = buffer_ w ++ integer_text z
  /\ buffer_ (format_arg (AUInt32 u) w) = buffer_ w ++ integer_text u.
Proof.
  intros Hroom Hz Hu. split.
  - rewrite format_arg_appends by (cbn; unfold int32_digits; lia).
    cbn [argument_text]. unfold int32_digits.
    pose proof (integer_text_length z 10 ltac:(lia) ltac:(lia)) as Hlen.
    rewrite integer_field_fits; [done|]. destruct (z <? 0); lia.
  - rewrite format_arg_appends by (cbn; unfold uint32_digits; lia).
    cbn [argument_text]. unfold uint32_digits.
    pose proof (integer_text_length u 10 ltac:(lia) ltac:(lia)) as Hlen.
    rewrite integer_field_fits; [done|].
    destruct (Z.ltb_spec u 0); lia.
Qed.

Lemma format_arg_32_bits_complete_witness :
  buffer_size empty_writer + 11 <= 2 ^ 63
  /\ - 2 ^ 31 <= - 2 ^ 31 < 2 ^ 31
  /\ 0 <= 2 ^ 32 - 1 < 2 ^ 32
  /\ buffer_ (format_arg (AInt32 (- 2 ^ 31)) empty_writer)
     = buffer_ empty_writer ++ integer_text (- 2 ^ 31)
  /\ buffer_ (format_arg (AUInt32 (2 ^ 32 - 1)) empty_writer)
     = buffer_ empty_writer ++ integer_text (2 ^ 32 - 1).
Proof.
  assert (H1 : buffer_size empty_writer + 11 <= 2 ^ 63)
    by (vm_compute; discriminate).
  assert (H2 : - 2 ^ 31 <= - 2 ^ 31 < 2 ^ 31) by lia.
  assert (H3 : 0 <= 2 ^ 32 - 1 < 2 ^ 32) by lia.
  split; [exact H1|]. split; [exact H2|]. split; [exact H3|].
  exact (format_arg_32_bits_complete _ _ empty_writer H1 H2 H3).
Defined.

(** X16.  The 64-bit overloads of [format_arg] have less room than their
    types need.  [int64_t] has 19 characters: every value above [-10^18] is
    written in full, and for the values from [-2^63] to [-10^18], whose text
    takes 20 characters, the minus sign and 18 NUL characters are appended
    in its place ([to_chars] stores the sign before it finds the digits too
    long).  [uint64_t] has 18 characters: every value below [10^18] is
    written in full, and for the values from [10^18] to [2^64 - 1] 18 NUL
    characters are appended. *)
Theorem format_arg_64_bits_cases (z u : Z) (w : writer) :
  buffer_size w + 19 <= 2 ^ 63 ->
  - 2 ^ 63 <= z < 2 ^ 63 -> 0 <= u < 2 ^ 64 ->
  buffer_ (format_arg (AInt64 z) w)
  = buffer_ w ++ (if - 10 ^ 18 <? z then integer_text z
                  else MINUS :: replicate 18 NUL)
  /\ buffer_ (format_arg (AUInt64 u) w)
     = buffer_ w ++ (if u <? 10 ^ 18 then integer_text u
                     else replicate 18 NUL).
Proof.
  intros Hroom Hz Hu. split.
  - rewrite format_arg_appends by (cbn; unfold int64_digits; lia).
    cbn [argument_text]. unfold int64_digits.
    destruct (Z.ltb_spec (- 10 ^ 18) z) as [Hfits|Hlong].
    + rewrite integer_field_fits; [done|].
      destruct (Z.ltb_spec z 0) as [Hneg|Hpos].
      * pose proof (integer_text_length z 18 ltac:(lia) ltac:(lia)) as Hlen.
        destruct (Z.ltb_spec z 0); lia.
      * pose proof (integer_text_length z 19 ltac:(lia) ltac:(lia)) as Hlen.
        destruct (Z.ltb_spec z 0); lia.
    + unfold integer_field, integer_text.
      destruct (Z.ltb_spec z 0); [|lia].
      pose proof (CharconvFacts.decimal_length_gt (- z) 18 ltac:(lia)).
      cbn [length].
      destruct (Z.leb_spec (Z.of_nat (S (length (decimal (- z))))) 19);
        [lia|done].
  - rewrite format_arg_appends by (cbn; unfold uint64_digits; lia).
    cbn [argument_text]. unfold uint64_digits.
    destruct (Z.ltb_spec u (10 ^ 18)) as [Hfits|Hlong].
    + pose proof (integer_text_length u 18 ltac:(lia) ltac:(lia)) as Hlen.
      rewrite integer_field_fits; [done|].
      destruct (Z.ltb_spec u 0); lia.
    + unfold integer_field, integer_text.
      destruct (Z.ltb_spec u 0); [lia|].
      pose proof (CharconvFacts.decimal_length_gt u 18 ltac:(lia)).
      destruct (Z.leb_spec (Z.of_nat (length (decimal u))) 18);
        [lia|done].
Qed.

Lemma format_arg_64_bits_cases_witness :
  buffer_size empty_writer + 19 <= 2 ^ 63
  /\ - 2 ^ 63 <= - 2 ^ 63 < 2 ^ 63
  /\ 0 <= 2 ^ 64 - 1 < 2 ^ 64
  /\ buffer_ (format_arg (AInt64 (- 2 ^ 63)) empty_writer)
     = buffer_ empty_writer
         ++ (if - 10 ^ 18 <? - 2 ^ 63 then integer_text (- 2 ^ 63)
             else MINUS :: replicate 18 NUL)
  /\ buffer_ (format_arg (AUInt64 (2 ^ 64 - 1)) empty_writer)
     = buffer_ empty_writer
         ++ (if 2 ^ 64 - 1 <? 10 ^ 18 then integer_text (2 ^ 64 - 1)
             else replicate 18 NUL).
Proof.
  assert (H1 : buffer_size empty_writer + 19 <= 2 ^ 63)
    by (vm_compute; discriminate).
  assert (H2 : - 2 ^ 63 <= - 2 ^ 63 < 2 ^ 63) by lia.
  assert (H3 : 0 <= 2 ^ 64 - 1 < 2 ^ 64) by lia.
  split; [exact H1|]. split; [exact H2|]. split; [exact H3|].
  exact (format_arg_64_bits_cases _ _ empty_writer H1 H2 H3).
Defined.

Lemma smear_step (m n t : Z) :
  0 <= t ->
  (forall i, 0 <= i ->
     Z.testbit n i = true
     <-> exists j, i <= j <= i + t /\ Z.testbit m j = true) ->
  forall i, 0 <= i ->
    Z.testbit (Z.lor n (Z.shiftr n (t + 1))) i = true
    <-> exists j, i <= j <= i + (2 * t + 1) /\ Z.testbit m j = true.
Proof.
  intros Ht H i Hi.
  rewrite Z.lor_spec, Z.shiftr_spec by lia.
  rewrite orb_true_iff, (H i), (H (i + (t + 1))) by lia.
  split.
  - intros [(j & Hj & Hb)|(j & Hj & Hb)]; exists j; (split; [lia|done]).
  - intros (j & Hj & Hb).
    destruct (Z.le_gt_cases j (i + t)); [left|right];
      exists j; (split; [lia|done]).
Qed.

Lemma smear_ones (m : Z) :
  1 <= m < 2 ^ 64 ->
  let n1 := Z.lor m (Z.shiftr m 1) in
  let n2 := Z.lor n1 (Z.shiftr n1 2) in
  let n3 := Z.lor n2 (Z.shiftr n2 4) in
  let n4 := Z.lor n3 (Z.shiftr n3 8) in
  let n5 := Z.lor n4 (Z.shiftr n4 16) in
  let n6 := Z.lor n5 (Z.shiftr n5 32) in
  n6 = 2 ^ (Z.log2 m + 1) - 1.
Proof.
  intros Hm n1 n2 n3 n4 n5 n6.
  assert (H0 : forall i, 0 <= i ->
            Z.testbit m i = true
            <-> exists j, i <= j <= i + 0 /\ Z.testbit m j = true).
  { intros i Hi. split.
    - intros Hb. exists i. split; [lia|done].
    - intros (j & Hj & Hb). by replace i with j by lia. }
  pose proof (smear_step m m 0 ltac:(lia) H0) as H1.
  pose proof (smear_step m n1 1 ltac:(lia) H1) as H2.
  pose proof (smear_step m n2 3 ltac:(lia) H2) as H3.
  pose proof (smear_step m n3 7 ltac:(lia) H3) as H4.
  pose proof (smear_step m n4 15 ltac:(lia) H4) as H5.
  pose proof (smear_step m n5 31 ltac:(lia) H5) as H6.
  cbn in H6. fold n6 in H6. clear H0 H1 H2 H3 H4 H5.
  assert (HL : 0 <= Z.log2 m < 64).
  { split; [apply Z.log2_nonneg|]. apply Z.log2_lt_pow2; lia. }
  replace (2 ^ (Z.log2 m + 1) - 1) with (Z.ones (Z.log2 m + 1))
    by (rewrite Z.ones_equiv; lia).
  apply Z.bits_inj'. intros i Hi.
  destruct (Z.le_gt_cases i (Z.log2 m)) as [Hlow|Hhigh].
  - rewrite Z.ones_spec_low by lia.
    apply H6; [done|]. exists (Z.log2 m). split; [lia|].
    apply Z.bit_log2. lia.
  - rewrite Z.ones_spec_high by lia.
    apply not_true_is_false. intros Hb.
    apply H6 in Hb as (j & Hj & Hb); [|done].
    rewrite Z.bits_above_log2 in Hb by lia. done.
Qed.

(** X14.  [nearest_power_of_2] on a [uint64_t]: 2 for 0 and 1; for [n]
    from 2 to [2^63] the least power of two that is not below [n] ([n]
    itself when it is one); and 0 for every [n] above [2^63], where the
    increment wraps around. *)
Theorem nearest_power_of_2_spec (n : Z) :
  0 <= n < 2 ^ 64 ->
  nearest_power_of_2 n
  = if n <? 2 then 2
    else if n <=? 2 ^ 63 then 2 ^ Z.log2_up n
    else 0.
Proof.
  intros Hn. unfold nearest_power_of_2.
  destruct (Z.ltb_spec n 2) as [|H2]; [done|].
  unfold wrap64. rewrite (Z.mod_small (n - 1)) by lia.
  pose proof (smear_ones (n - 1) ltac:(lia)) as Hs. cbv zeta in Hs.
  rewrite Hs.
  replace (2 ^ (Z.log2 (n - 1) + 1) - 1 + 1)
    with (2 ^ (Z.log2 (n - 1) + 1)) by lia.
  assert (Hup : Z.log2_up n = Z.log2 (n - 1) + 1).
  { unfold Z.log2_up. destruct (Z.compare_spec 1 n); try lia.
    by rewrite <- Z.sub_1_r, <- Z.add_1_r. }
  assert (HL : 0 <= Z.log2 (n - 1)) by apply Z.log2_nonneg.
  destruct (Z.leb_spec n (2 ^ 63)) as [Hle|Hgt].
  - rewrite Hup. apply Z.mod_small.
    assert (Z.log2 (n - 1) < 63) by (apply Z.log2_lt_pow2; lia).
    split; [apply Z.pow_nonneg; lia|].
    apply Z.pow_lt_mono_r; lia.
  - assert (Z.log2 (n - 1) = 63).
    { apply Z.log2_unique; lia. }
    replace (Z.log2 (n - 1) + 1) with 64 by lia.
    reflexivity.
Qed.

Lemma nearest_power_of_2_spec_witness :
  0 <= 1000 < 2 ^ 64
  /\ nearest_power_of_2 1000
     = if 1000 <? 2 then 2
       else if 1000 <=? 2 ^ 63 then 2 ^ Z.log2_up 1000
       else 0.
Proof.
  assert (H : 0 <= 1000 < 2 ^ 64) by lia.
  split; [exact H|].
  exact (nearest_power_of_2_spec 1000 H).
Defined.

(** X28.  [format] appends one row to the buffer: the texts of its
    arguments in their order, a comma between two of them and a newline
    behind the last; what the buffer held stays in front.  The row takes
    no more than the room of its arguments and their separators.  The text
    of an integer that does not fit its room is the room as [allocate] made
    it, behind its minus sign when the integer is negative.  (No argument
    is a NaN: [to_chars] writes a NaN with its sign, which [float] does not
    have.  The bound keeps the sizes below [2^63], where
    [nearest_power_of_2] does not wrap.) *)
Theorem format_appends_row (args : list argument) (w : writer) :
  buffer_size w + row_room args <= 2 ^ 63 ->
  Forall (fun a => nan_argument a = false) args ->
  to_string (format args w) = to_string w ++ row_text args
  /\ buffer_size (format args w) <= buffer_size w + row_room args.
Proof.
  intros Hroom _. unfold to_string, format.
  rewrite format_args_appends by done.
  split; [done|].
  unfold buffer_size. rewrite format_args_appends by done.
  rewrite length_app. pose proof (row_text_length args). lia.
Qed.

Lemma format_appends_row_witness :
  let args := [AText (chars "id"); AInt64 (- 10 ^ 18); ADouble (-2.5)] in
  buffer_size empty_writer + row_room args <= 2 ^ 63
  /\ Forall (fun a => nan_argument a = false) args
  /\ to_string (format args empty_writer)
     = to_string empty_writer ++ row_text args
  /\ buffer_size (format args empty_writer)
     <= buffer_size empty_writer + row_room args.
Proof.
  intros args.
  assert (H1 : buffer_size empty_writer + row_room args <= 2 ^ 63)
    by (vm_compute; discriminate).
  assert (H2 : Forall (fun a => nan_argument a = false) args)
    by (repeat constructor).
  split; [exact H1|]. split; [exact H2|].
  exact (format_appends_row args empty_writer H1 H2).
Defined.

End WriterFacts.


(** ** The reader *)

Module ReaderFacts.

Import Charconv Cosevalues Swollencandle Spec.

Lemma consumed_refl (c : cursor) : consumed c c.
Proof. exists []. by split. Qed.

Lemma consumed_trans (c1 c2 c3 : cursor) :
  consumed c1 c2 -> consumed c2 c3 -> consumed c1 c3.
Proof.
  intros (u1 & -> & H1) (u2 & -> & H2).
  exists (u1 ++ u2). split; [by rewrite app_assoc|by apply Forall_app].
Qed.

Lemma consumed_cons (a : ascii) (c : cursor) :
  within_line a -> consumed (a :: c) c.
Proof. intros Ha. exists [a]. split; [done|]. by constructor. Qed.

Lemma consumed_length (c c' : cursor) :
  consumed c c' -> (length c' <= length c)%nat.
Proof. intros (u & -> & _). rewrite length_app. lia. Qed.

Lemma consumed_skip_line (c c' : cursor) :
  consumed c c' -> skip_line c = skip_line c'.
Proof.
  intros (u & -> & Hu).
  induction Hu as [|a u [Hlf Hnul] _ IH]; [done|].
  cbn [app skip_line].
  destruct (Ascii.eqb_spec a LF) as [|_]; [done|].
  destruct (Ascii.eqb_spec a NUL) as [|_]; [done|].
  exact IH.
Qed.

Lemma skip_whitespaces_consumed (c : cursor) : consumed c (skip_whitespaces c).
Proof.
  induction c as [|a c IH]; [apply consumed_refl|].
  cbn [skip_whitespaces].
  destruct (is_whitespace a) eqn:Hws; [|apply consumed_refl].
  eapply consumed_trans; [|exact IH].
  apply consumed_cons. unfold is_whitespace in Hws.
  split; intros ->; discriminate Hws.
Qed.

Lemma scan_token_consumed (c : cursor) : consumed c (scan_token c).
Proof.
  induction c as [|a c IH]; [apply consumed_refl|].
  cbn [scan_token].
  destruct (ends_token a) eqn:Hend; [apply consumed_refl|].
  eapply consumed_trans; [|exact IH].
  apply consumed_cons. unfold ends_token in Hend.
  split; intros ->; discriminate Hend.
Qed.

Lemma within_line_dquote : within_line DQUOTE.
Proof. split; discriminate. Qed.

Lemma scan_quoted_loop_consumed :
  forall (n : nat) (c c' : cursor) (b b' : bool),
    (length c <= n)%nat ->
    scan_quoted_loop c b = Some (c', b') ->
    consumed c c' /\ peek c' = DQUOTE /\ c' <> [].
Proof.
  induction n as [|n IH]; intros c c' b b' Hn Hscan.
  { destruct c; [done|cbn in Hn; lia]. }
  destruct c as [|a c]; [done|].
  cbn [scan_quoted_loop] in Hscan. cbn [length] in Hn.
  destruct (Ascii.eqb_spec a LF) as [|Hlf]; [done|].
  destruct (Ascii.eqb_spec a NUL) as [|Hnul]; [done|].
  cbn [orb] in Hscan.
  destruct (Ascii.eqb_spec a DQUOTE) as [->|Hq].
  - destruct c as [|a2 c].
    + injection Hscan as <- <-. split; [apply consumed_refl|done].
    + destruct (Ascii.eqb_spec a2 DQUOTE) as [->|_].
      * cbn [length] in Hn.
        destruct (IH c c' true b' ltac:(lia) Hscan) as (Hc & Hp & Hne).
        split; [|done].
        eapply consumed_trans; [apply consumed_cons, within_line_dquote|].
        eapply consumed_trans; [apply consumed_cons, within_line_dquote|].
        exact Hc.
      * injection Hscan as <- <-. split; [apply consumed_refl|done].
  - destruct (IH c c' b b' ltac:(lia) Hscan) as (Hc & Hp & Hne).
    split; [|done].
    eapply consumed_trans; [by apply consumed_cons|exact Hc].
Qed.

(** A field that parses is taken from the line of the cursor, and is at
    least one character long. *)
Lemma parse_arg_consumed (k : kind) (c c' : cursor) (v : value) :
  parse_arg k c = Some (v, c') ->
  consumed c c' /\ (length c' < length c)%nat.
Proof.
  unfold parse_arg.
  destruct (Ascii.eqb_spec (peek c) DQUOTE) as [Hq|_].
  - destruct c as [|a c]; [done|]. cbn in Hq. subst a.
    unfold scan_quoted. cbn [advance tl].
    destruct (scan_quoted_loop c false) as [[c1 inner]|] eqn:Hscan; [|done].
    destruct (scan_quoted_loop_consumed (length c) c c1 false inner
                ltac:(lia) Hscan) as (Hc & Hp & Hne).
    intros H.
    assert (c' = advance c1) as ->.
    { destruct k, inner; cbn in H;
        repeat match type of H with
               | context [match ?x with _ => _ end] => destruct x
               end; congruence. }
    destruct c1 as [|a1 c1]; [done|]. cbn in Hp. subst a1. cbn [advance tl].
    split.
    + eapply consumed_trans; [apply consumed_cons, within_line_dquote|].
      eapply consumed_trans; [exact Hc|].
      apply consumed_cons, within_line_dquote.
    + apply consumed_length in Hc. cbn [length] in *. lia.
  - unfold same_position.
    destruct (Nat.eqb_spec (length c) (length (scan_token c))) as [|Hne];
      [done|].
    destruct (try_parse k _); [|done].
    intros H. injection H as _ <-.
    pose proof (scan_token_consumed c) as Hc.
    split; [done|]. apply consumed_length in Hc. lia.
Qed.

Lemma parse_args_consumed :
  forall (ks : list kind) (c c' : cursor) (vs : list value),
    parse_args ks c = Some (vs, c') ->
    consumed c c' /\ (length c' < length c)%nat.
Proof.
  induction ks as [|k ks IH]; intros c c' vs H; [done|].
  cbn [parse_args] in H.
  destruct (parse_arg k c) as [[v c1]|] eqn:Harg; [|done].
  destruct (parse_arg_consumed _ _ _ _ Harg) as (Hc1 & Hl1).
  pose proof (skip_whitespaces_consumed c1) as Hc2.
  destruct ks as [|k2 ks].
  - destruct (_ || _); [|done]. injection H as _ <-.
    split; [by eapply consumed_trans|].
    apply consumed_length in Hc2. lia.
  - destruct (Ascii.eqb_spec (peek (skip_whitespaces c1)) COMMA) as [Hcomma|];
      [|done].
    cbn [negb] in H.
    destruct (skip_whitespaces c1) as [|a c2] eqn:Hsk; [done|].
    cbn in Hcomma. subst a. cbn [advance tl] in H.
    pose proof (skip_whitespaces_consumed c2) as Hc3.
    destruct (parse_args (k2 :: ks) (skip_whitespaces c2)) as [[vs' c4]|]
      eqn:Hrest; [|done].
    injection H as _ <-.
    destruct (IH _ _ _ Hrest) as (Hc4 & Hl4).
    split.
    + eapply consumed_trans; [exact Hc1|].
      eapply consumed_trans; [exact Hc2|].
      eapply consumed_trans; [apply consumed_cons; split; discriminate|].
      by eapply consumed_trans.
    + apply consumed_length in Hc2, Hc3. cbn [length] in *. lia.
Qed.

Lemma parse_candle_line_local : line_local parse_candle.
Proof.
  intros c entry c' H. unfold parse_candle, parse in H.
  destruct (parse_args candle_columns c) as [[vs c1]|] eqn:Hargs; [|done].
  apply parse_args_consumed in Hargs.
  assert (c1 = c') as <-; [|done].
  repeat match type of H with
         | context [match ?x with _ => _ end] => destruct x; try done
         end.
  by injection H as _ <-.
Qed.

Lemma parse_trade_line_local : line_local parse_trade.
Proof.
  intros c entry c' H. unfold parse_trade, parse in H.
  destruct (parse_args trade_columns c) as [[vs c1]|] eqn:Hargs; [|done].
  apply parse_args_consumed in Hargs.
  assert (c1 = c') as <-; [|done].
  repeat match type of H with
         | context [match ?x with _ => _ end] => destruct x; try done
         end.
  by injection H as _ <-.
Qed.

Lemma next_row_length (c : cursor) : (length (next_row c) <= length c)%nat.
Proof.
  unfold next_row.
  pose proof (consumed_length _ _ (skip_whitespaces_consumed (skip_line c))).
  assert (length (skip_line c) <= length c)%nat; [|lia].
  clear. induction c as [|a c IH]; [done|].
  cbn [skip_line]. destruct (Ascii.eqb a LF); [cbn; lia|].
  destruct (Ascii.eqb a NUL); [done|]. cbn [length]. lia.
Qed.

(** The loop of the readers visits the rows of the text one after the other
    and stops at the first that fails; the fuel is never used up. *)
Lemma read_rows_collect {A : Type}
    (parse_row : cursor -> option (A * cursor)) :
  line_local parse_row ->
  forall (fuel : nat) (it : cursor) (entries : list A),
    (length it < fuel)%nat ->
    read_rows parse_row fuel it entries
    = Some (collect parse_row (rows_from fuel it) entries).
Proof.
  intros Hlocal.
  induction fuel as [|fuel IH]; intros it entries Hfuel; [lia|].
  cbn [read_rows rows_from].
  destruct (at_end it); [done|].
  cbn [collect].
  destruct (parse_row it) as [[entry c']|] eqn:Hparse; [|done].
  destruct (Hlocal _ _ _ Hparse) as (Hc & Hlen).
  assert (Hnext : next_row c' = next_row it).
  { unfold next_row. by rewrite (consumed_skip_line _ _ Hc). }
  pose proof (next_row_length c') as Hle.
  rewrite Hnext in *.
  unfold same_position.
  destruct (Nat.eqb_spec (length (next_row it)) (length it)) as [|_]; [lia|].
  apply IH. lia.
Qed.

Lemma collect_first_failure {A : Type}
    (parse_row : cursor -> option (A * cursor)) :
  forall (rows : list cursor) (entries : list A),
    some_row_fails parse_row rows ->
    exists good bad rest parsed,
      rows = good ++ bad :: rest
      /\ parsed_from parse_row good parsed
      /\ parse_row bad = None
      /\ collect parse_row rows entries = (false, entries ++ parsed).
Proof.
  induction rows as [|r rows IH]; intros entries (bad & Hin & Hbad).
  { by apply elem_of_nil in Hin. }
  cbn [collect].
  destruct (parse_row r) as [[entry c']|] eqn:Hr.
  - apply elem_of_cons in Hin as [->|Hin]; [congruence|].
    destruct (IH (entries ++ [entry]) (ex_intro _ bad (conj Hin Hbad)))
      as (good & bad' & rest & parsed & -> & Hgood & Hbad' & Hcollect).
    exists (r :: good), bad', rest, (entry :: parsed).
    split; [done|]. split; [constructor; [by exists c'|done]|].
    split; [done|]. by rewrite Hcollect, <- app_assoc.
  - exists [], r, rows, []. split; [done|]. split; [constructor|].
    split; [done|]. by rewrite app_nil_r.
Qed.

Lemma second_to_last_rows_length (text : list ascii) :
  (length (second_to_last_rows text) <= length text)%nat.
Proof.
  unfold second_to_last_rows, make_iterator.
  pose proof (consumed_length _ _ (skip_whitespaces_consumed text)).
  pose proof (next_row_length (skip_whitespaces text)).
  destruct (same_position _ _); cbn [length]; lia.
Qed.

(** C5, as the code has it.  When a row of the text fails to parse, the
    read returns [false] with [invalid_candle_fields] (for trades,
    [invalid_trade_fields]), and the output vector holds the entries of the
    rows in front of the first failing row: not what it held before the call,
    and not nothing. *)
Theorem read_failure_leaves_parsed_prefix (text : list ascii) :
  (forall (prior : list candle) (ec : error),
     some_row_fails parse_candle (rows_after_header text) ->
     exists good bad rest parsed,
       rows_after_header text = good ++ bad :: rest
       /\ parsed_from parse_candle good parsed
       /\ parse_candle bad = None
       /\ read_candles text prior ec
          = Some (false, parsed, invalid_candle_fields))
  /\ (forall (prior : list trade) (ec : error),
        some_row_fails parse_trade (all_rows text) ->
        exists good bad rest parsed,
          all_rows text = good ++ bad :: rest
          /\ parsed_from parse_trade good parsed
          /\ parse_trade bad = None
          /\ read_trades text prior ec
             = Some (false, parsed, invalid_trade_fields)).
Proof.
  split; intros prior ec Hfails.
  - destruct (collect_first_failure parse_candle _ [] Hfails)
      as (good & bad & rest & parsed & Hrows & Hgood & Hbad & Hcollect).
    exists good, bad, rest, parsed. repeat split; try done.
    unfold read_candles.
    rewrite (read_rows_collect _ parse_candle_line_local).
    + fold (rows_after_header text). by rewrite Hcollect.
    + pose proof (second_to_last_rows_length text). lia.
  - destruct (collect_first_failure parse_trade _ [] Hfails)
      as (good & bad & rest & parsed & Hrows & Hgood & Hbad & Hcollect).
    exists good, bad, rest, parsed. repeat split; try done.
    unfold read_trades.
    rewrite (read_rows_collect _ parse_trade_line_local).
    + fold (all_rows text). by rewrite Hcollect.
    + unfold first_to_last_rows, make_iterator.
      pose proof (consumed_length _ _ (skip_whitespaces_consumed text)). lia.
Qed.

Lemma read_failure_leaves_parsed_prefix_witness :
  (some_row_fails parse_candle (rows_after_header text_with_bad_row)
   /\ exists good bad rest parsed,
       rows_after_header text_with_bad_row = good ++ bad :: rest
       /\ parsed_from parse_candle good parsed
       /\ parse_candle bad = None
       /\ read_candles text_with_bad_row [stale_candle] ok
          = Some (false, parsed, invalid_candle_fields))
  /\ (some_row_fails parse_trade (all_rows trades_with_bad_row)
      /\ exists good bad rest parsed,
          all_rows trades_with_bad_row = good ++ bad :: rest
          /\ parsed_from parse_trade good parsed
          /\ parse_trade bad = None
          /\ read_trades trades_with_bad_row [] ok
             = Some (false, parsed, invalid_trade_fields)).
Proof.
  assert (H : some_row_fails parse_candle
                (rows_after_header text_with_bad_row)).
  { exists (chars "12,x" ++ [LF] ++ chars "1,1,1,1,1,1,1,1,1" ++ [LF]).
    split; [|vm_compute; reflexivity].
    apply list_elem_of_In. vm_compute. right. left. reflexivity. }
  assert (H' : some_row_fails parse_trade (all_rows trades_with_bad_row)).
  { exists (chars "10;11;1" ++ [LF]).
    split; [|vm_compute; reflexivity].
    apply list_elem_of_In. vm_compute. right. left. reflexivity. }
  split; (split; [assumption|]).
  - exact (proj1 (read_failure_leaves_parsed_prefix text_with_bad_row)
             [stale_candle] ok H).
  - exact (proj2 (read_failure_leaves_parsed_prefix trades_with_bad_row)
             [] ok H').
Defined.

(** The readers return for every text: the loop is never out of fuel. *)
Lemma read_candles_returns (text : list ascii) (prior : list candle)
    (ec : error) :
  exists r, read_candles text prior ec = Some r.
Proof.
  unfold read_candles.
  rewrite (read_rows_collect _ parse_candle_line_local)
    by (pose proof (second_to_last_rows_length text); lia).
  destruct (collect _ _ _) as [[] ?]; by eexists.
Qed.

Lemma read_trades_returns (text : list ascii) (prior : list trade)
    (ec : error) :
  exists r, read_trades text prior ec = Some r.
Proof.
  unfold read_trades.
  rewrite (read_rows_collect _ parse_trade_line_local).
  - destruct (collect _ _ _) as [[] ?]; by eexists.
  - unfold first_to_last_rows, make_iterator.
    pose proof (consumed_length _ _ (skip_whitespaces_consumed text)). lia.
Qed.

(** C5 as stated fails: the second row after the header does not parse, and
    the output vector holds the candle of the first. *)
Lemma read_candles_leaves_partial_output :
  read_candles text_with_bad_row [] ok
  = Some (false, [sample_candle], invalid_candle_fields).
Proof. vm_compute. reflexivity. Qed.

(** *** Numeric fields *)

Lemma is_digit_code (a : ascii) :
  is_digit a = true -> (48 <= code a <= 57)%Z.
Proof. unfold is_digit. intros H. apply andb_true_iff in H as [? ?]. lia. Qed.

Lemma is_digit_lower (a : ascii) : is_digit a = true -> lower a = a.
Proof.
  intros H. apply is_digit_code in H. unfold lower.
  destruct (Z.leb_spec 65 (code a)); [lia|done].
Qed.

Lemma span_while_app (p : ascii -> bool) (ds junk : list ascii) :
  Forall (fun d => p d = true) ds ->
  match junk with [] => True | a :: _ => p a = false end ->
  span_while p (ds ++ junk) = (ds, junk).
Proof.
  intros Hds Hjunk. induction Hds as [|d ds Hd _ IH].
  - destruct junk as [|a junk]; [done|]. cbn. by rewrite Hjunk.
  - cbn. by rewrite Hd, IH.
Qed.

Lemma from_chars_int_digits (signed : bool) (lo hi : Z) (ds junk : list ascii) :
  is_digits ds ->
  match junk with [] => True | a :: _ => is_digit a = false end ->
  from_chars_int signed lo hi (ds ++ junk)
  = if ((lo <=? digits_value 0 ds) && (digits_value 0 ds <=? hi))%Z
    then FromChars junk errc_ok (Some (digits_value 0 ds))
    else FromChars junk result_out_of_range None.
Proof.
  intros [Hne Hds] Hjunk. unfold from_chars_int.
  destruct ds as [|d ds]; [done|].
  inversion Hds as [|? ? Hd Hds']; subst.
  assert (Hminus : Ascii.eqb d MINUS = false).
  { destruct (Ascii.eqb_spec d MINUS) as [->|]; [discriminate Hd|done]. }
  cbn [app]. rewrite Hminus, andb_false_r.
  change (d :: ds ++ junk) with ((d :: ds) ++ junk).
  unfold span_digits. by rewrite span_while_app.
Qed.

Lemma from_chars_int_whole (signed : bool) (lo hi : Z) (ds : list ascii) :
  is_digits ds ->
  from_chars_int signed lo hi ds
  = if ((lo <=? digits_value 0 ds) && (digits_value 0 ds <=? hi))%Z
    then FromChars [] errc_ok (Some (digits_value 0 ds))
    else FromChars [] result_out_of_range None.
Proof.
  intros Hds.
  pose proof (from_chars_int_digits signed lo hi ds [] Hds I) as H.
  by rewrite app_nil_r in H.
Qed.

Lemma strip_prefix_ci_mismatch (l a : ascii) (lit s : list ascii) :
  lower a <> l -> strip_prefix_ci (l :: lit) (a :: s) = None.
Proof.
  intros H. cbn. destruct (Ascii.eqb_spec l (lower a)); [congruence|done].
Qed.

Lemma lower_digit_or_point (a : ascii) :
  is_digit a = true \/ a = DOT ->
  a <> MINUS /\ lower a <> "i"%char /\ lower a <> "n"%char
  /\ lower a <> "e"%char.
Proof.
  intros [Hd| ->].
  - rewrite (is_digit_lower a Hd).
    repeat split; intros ->; discriminate Hd.
  - repeat split; discriminate.
Qed.

Lemma lex_sign_text (neg : bool) (body : list ascii) :
  peek body <> MINUS -> lex_sign (sign_text neg ++ body) = (neg, body).
Proof.
  intros Hbody. destruct neg; [done|].
  destruct body as [|a body]; [done|]. cbn in *.
  by destruct (Ascii.eqb_spec a MINUS).
Qed.

Lemma span_digits_app (ds rest : list ascii) :
  all_digits ds -> is_digit (peek rest) = false ->
  span_digits (ds ++ rest) = (ds, rest).
Proof.
  intros Hds Hrest. apply span_while_app; [done|].
  by destruct rest.
Qed.

Lemma span_digits_none (rest : list ascii) :
  is_digit (peek rest) = false -> span_digits rest = ([], rest).
Proof. intros H. apply (span_digits_app [] rest); [constructor|done]. Qed.

Lemma lex_exponent_none (junk : list ascii) :
  starts_exponent junk = false -> lex_exponent junk = (0%Z, junk).
Proof.
  destruct junk as [|a t]; [done|]. cbn [starts_exponent lex_exponent].
  destruct (Ascii.eqb (lower a) "e"); [|done]. cbn [andb].
  intros H. apply orb_false_iff in H as [Hd Hs].
  destruct t as [|b t']; [done|]. cbn [peek advance tl] in Hd, Hs.
  destruct (Ascii.eqb_spec b MINUS) as [->|_].
  { change (is_digit (peek t') = false) in Hs.
    by rewrite (span_digits_none t' Hs). }
  destruct (Ascii.eqb_spec b PLUS) as [->|_].
  { change (is_digit (peek t') = false) in Hs.
    by rewrite (span_digits_none t' Hs). }
  by rewrite (span_digits_none (b :: t') Hd).
Qed.

Lemma lex_exponent_part (e : ascii) (sg : exponent_sign)
    (ed junk : list ascii) :
  lower e = "e"%char -> is_digits ed -> is_digit (peek junk) = false ->
  lex_exponent (e :: exponent_sign_text sg ++ ed ++ junk)
  = (match sg with
     | minus_sign => - digits_value 0 ed
     | _ => digits_value 0 ed
     end%Z, junk).
Proof.
  intros He [Hne Hds] Hjunk. cbn [lex_exponent]. rewrite He.
  change (Ascii.eqb "e" "e") with true. cbn iota.
  destruct ed as [|d ed]; [done|].
  pose proof (Forall_inv Hds) as Hd. cbn beta in Hd.
  destruct sg; cbn [exponent_sign_text app].
  - destruct (Ascii.eqb_spec d MINUS) as [->|_]; [discriminate Hd|].
    destruct (Ascii.eqb_spec d PLUS) as [->|_]; [discriminate Hd|].
    change (d :: ed ++ junk) with ((d :: ed) ++ junk).
    by rewrite span_digits_app.
  - change (Ascii.eqb PLUS MINUS) with false.
    change (Ascii.eqb PLUS PLUS) with true. cbn iota.
    change (d :: ed ++ junk) with ((d :: ed) ++ junk).
    by rewrite span_digits_app.
  - change (Ascii.eqb MINUS MINUS) with true. cbn iota.
    change (d :: ed ++ junk) with ((d :: ed) ++ junk).
    by rewrite span_digits_app.
Qed.

(** The lexer takes a well-formed numeral that ends where it is said to,
    and nothing more. *)
Lemma lex_float_numeral (n : decimal_numeral) (junk : list ascii) :
  well_formed n -> numeral_ends n junk ->
  lex_float (numeral_text n ++ junk)
  = Some (LexDecimal (negative n) (numeral_mantissa n) (numeral_exponent n),
          junk).
Proof.
  destruct n as [neg ip frac ex].
  unfold well_formed, numeral_ends, numeral_text, numeral_mantissa,
    numeral_exponent, fraction_digits.
  cbn [negative integer_digits fraction exponent].
  intros (Hip & Hfp & Hne & Hex) (Hnext & Hpoint & Hexp).
  set (etext := match ex with
                | None => []
                | Some (e, sg, ed) => e :: exponent_sign_text sg ++ ed
                end).
  set (ftext := match frac with
                | None => []
                | Some fp => DOT :: fp
                end).
  (* what stands behind the fraction *)
  assert (Hafter : is_digit (peek (etext ++ junk)) = false).
  { unfold etext. destruct ex as [[[e sg] ed]|]; [|done].
    destruct Hex as [He _]. cbn [app peek].
    destruct (is_digit e) eqn:Hd; [|done].
    rewrite (is_digit_lower e Hd) in He. by subst e. }
  assert (Hlex : lex_exponent (etext ++ junk)
                 = (match ex with
                    | None => 0
                    | Some (_, minus_sign, ed) => - digits_value 0 ed
                    | Some (_, _, ed) => digits_value 0 ed
                    end%Z, junk)).
  { unfold etext. destruct ex as [[[e sg] ed]|].
    - destruct Hex as [He Hed]. cbn [app]. rewrite <- app_assoc.
      rewrite (lex_exponent_part e sg ed junk He Hed Hnext). by destruct sg.
    - cbn [app]. by apply lex_exponent_none, Hexp. }
  (* the head of the body *)
  assert (Hhead : is_digit (peek (ip ++ ftext ++ etext ++ junk)) = true
                  \/ peek (ip ++ ftext ++ etext ++ junk) = DOT).
  { destruct ip as [|d ip].
    - right. unfold ftext. destruct frac as [fp|]; [done|].
      cbn in Hne. done.
    - left. cbn [app peek]. exact (Forall_inv Hip). }
  destruct (lower_digit_or_point _ Hhead) as (Hminus & Hi & Hn & _).
  rewrite <- !app_assoc.
  unfold lex_float. rewrite (lex_sign_text neg _ Hminus).
  destruct (ip ++ ftext ++ etext ++ junk) as [|a body] eqn:Hbody.
  { destruct Hhead as [Hd|Hd]; discriminate Hd. }
  cbn [peek] in Hi, Hn.
  change (chars "inf") with ("i"%char :: chars "nf").
  change (chars "nan") with ("n"%char :: chars "an").
  rewrite !strip_prefix_ci_mismatch by done.
  rewrite <- Hbody. clear Hbody Hhead Hminus Hi Hn a body.
  unfold lex_decimal.
  assert (Hfirst : is_digit (peek (ftext ++ etext ++ junk)) = false).
  { unfold ftext. destruct frac as [fp|]; [done|]. exact Hafter. }
  rewrite (span_digits_app ip _ Hip Hfirst).
  unfold ftext. destruct frac as [fp|]; cbn [default from_option id] in *.
  - cbn [app]. change (Ascii.eqb DOT DOT) with true. cbn iota.
    rewrite (span_digits_app fp _ Hfp Hafter).
    destruct (ip ++ fp) eqn:Hm; [done|]. by rewrite Hlex.
  - cbn [app].
    assert (Hnodot : forall a t, etext ++ junk = a :: t -> Ascii.eqb a DOT = false).
    { intros a t Ht. destruct (Ascii.eqb_spec a DOT) as [->|]; [|done].
      unfold etext in Ht. destruct ex as [[[e sg] ed]|].
      - destruct Hex as [He _]. cbn in Ht. injection Ht as -> _.
        discriminate He.
      - cbn in Ht. rewrite Ht in Hpoint. by destruct (Hpoint eq_refl eq_refl). }
    destruct (etext ++ junk) as [|a t] eqn:Hrest.
    + rewrite app_nil_r in *. destruct ip; [done|]. by rewrite Hlex.
    + rewrite (Hnodot a t eq_refl).
      rewrite app_nil_r in *. destruct ip; [done|]. by rewrite Hlex.
Qed.

Lemma strip_prefix_ci_app (lit word junk : list ascii) :
  lower <$> word = lit -> strip_prefix_ci lit (word ++ junk) = Some junk.
Proof.
  intros <-. induction word as [|a word IH]; [done|].
  cbn. by rewrite Ascii.eqb_refl.
Qed.

Lemma strip_prefix_ci_take (lit s r : list ascii) :
  strip_prefix_ci lit s = Some r -> lower <$> take (length lit) s = lit.
Proof.
  revert s. induction lit as [|l lit IH]; intros s; [done|].
  destruct s as [|a s]; [done|]. cbn.
  destruct (Ascii.eqb_spec l (lower a)) as [->|]; [|done].
  intros H. f_equal. by apply IH.
Qed.

Lemma word_head (lit word : list ascii) (l : ascii) :
  lower <$> word = l :: lit ->
  exists a rest, word = a :: rest /\ lower a = l.
Proof.
  destruct word as [|a rest]; [done|]. intros H. injection H as Ha _.
  by exists a, rest.
Qed.

Lemma lex_float_inf (neg : bool) (word junk : list ascii) :
  lower <$> word = chars "inf" ->
  exists rest, lex_float (sign_text neg ++ word ++ junk)
               = Some (LexInf neg, rest).
Proof.
  intros Hword.
  destruct (word_head _ _ _ Hword) as (a & w' & Hw & Ha).
  unfold lex_float. rewrite lex_sign_text.
  - rewrite (strip_prefix_ci_app _ _ _ Hword). by eexists.
  - rewrite Hw. cbn. intros ->. discriminate Ha.
Qed.

Lemma lex_float_nan (neg : bool) (word junk : list ascii) :
  lower <$> word = chars "nan" ->
  exists rest, lex_float (sign_text neg ++ word ++ junk) = Some (LexNan, rest).
Proof.
  intros Hword.
  destruct (word_head _ _ _ Hword) as (a & w' & Hw & Ha).
  unfold lex_float. rewrite lex_sign_text.
  - assert (Hinf : strip_prefix_ci (chars "inf") (word ++ junk) = None).
    { rewrite Hw. apply strip_prefix_ci_mismatch. rewrite Ha. discriminate. }
    rewrite Hinf, (strip_prefix_ci_app _ _ _ Hword). by eexists.
  - rewrite Hw. cbn. intros ->. discriminate Ha.
Qed.

Lemma lex_float_not_started (s : list ascii) :
  ~ starts_float_numeral s -> lex_float s = None.
Proof.
  intros Hno.
  assert (Hbody : forall neg body,
            s = sign_text neg ++ body ->
            strip_prefix_ci (chars "inf") body = None
            /\ strip_prefix_ci (chars "nan") body = None
            /\ lex_decimal neg body = None).
  { intros neg body Hs.
    assert (H1 : is_digit (peek body) = false).
    { destruct (is_digit (peek body)) eqn:Hd; [|done].
      destruct Hno. exists neg, body. auto. }
    assert (H2 : forall t, body = DOT :: t -> is_digit (peek t) = false).
    { intros t ->. destruct (is_digit (peek t)) eqn:Hd; [|done].
      destruct Hno. exists neg, (DOT :: t). split; [done|].
      right. left. by exists t. }
    split; [|split].
    - destruct (strip_prefix_ci (chars "inf") body) as [r|] eqn:Hi; [|done].
      apply strip_prefix_ci_take in Hi.
      destruct Hno. exists neg, body. auto.
    - destruct (strip_prefix_ci (chars "nan") body) as [r|] eqn:Hn; [|done].
      apply strip_prefix_ci_take in Hn.
      destruct Hno. exists neg, body. auto 6.
    - unfold lex_decimal. rewrite (span_digits_none body H1).
      destruct body as [|a t]; [done|].
      destruct (Ascii.eqb_spec a DOT) as [->|_]; [|done].
      by rewrite (span_digits_none t (H2 t eq_refl)). }
  unfold lex_float, lex_sign.
  destruct s as [|a s'].
  - destruct (Hbody false [] eq_refl) as (-> & -> & ->). done.
  - destruct (Ascii.eqb_spec a MINUS) as [->|_].
    + destruct (Hbody true s' eq_refl) as (-> & -> & ->). done.
    + destruct (Hbody false (a :: s') eq_refl) as (-> & -> & ->). done.
Qed.

Lemma from_chars_int_numeral (signed : bool) (lo hi : Z) (neg : bool)
    (ds junk : list ascii) :
  is_digits ds -> (neg = true -> signed = true) ->
  is_digit (peek junk) = false ->
  from_chars_int signed lo hi (sign_text neg ++ ds ++ junk)
  = let v := (if neg then - digits_value 0 ds else digits_value 0 ds)%Z in
    if ((lo <=? v) && (v <=? hi))%Z
    then FromChars junk errc_ok (Some v)
    else FromChars junk result_out_of_range None.
Proof.
  intros Hds Hneg Hjunk.
  assert (Hjunk' : match junk with [] => True | a :: _ => is_digit a = false end)
    by (by destruct junk).
  destruct neg; cbn [sign_text app].
  - rewrite (Hneg eq_refl). unfold from_chars_int.
    change (Ascii.eqb MINUS MINUS) with true. cbn [andb].
    destruct Hds as [Hne Hds].
    unfold span_digits. rewrite span_while_app by done.
    by destruct ds.
  - by apply from_chars_int_digits.
Qed.

Lemma from_chars_int_not_started (signed : bool) (lo hi : Z) (s : list ascii) :
  ~ starts_int_numeral signed s ->
  ec (from_chars_int signed lo hi s) = invalid_argument.
Proof.
  intros Hno.
  assert (H1 : is_digit (peek s) = false).
  { destruct (is_digit (peek s)) eqn:Hd; [|done]. destruct Hno. by left. }
  unfold from_chars_int. destruct s as [|a s']; [done|].
  destruct signed; cbn [andb].
  - destruct (Ascii.eqb_spec a MINUS) as [->|_].
    + assert (H2 : is_digit (peek s') = false).
      { destruct (is_digit (peek s')) eqn:Hd; [|done].
        destruct Hno. right. split; [done|]. by exists s'. }
      by rewrite (span_digits_none s' H2).
    + by rewrite (span_digits_none (a :: s') H1).
  - by rewrite (span_digits_none (a :: s') H1).
Qed.

Lemma try_parse_not_started (k : kind) (s : list ascii) :
  is_numeric k = true -> ~ starts_numeral k s -> try_parse k s = None.
Proof.
  intros Hk Hno.
  destruct k; try discriminate Hk; unfold try_parse, from_chars;
    cbn [ec parsed starts_numeral is_signed] in *;
    try (by rewrite from_chars_int_not_started).
  - unfold from_chars_single, from_chars_float.
    by rewrite (lex_float_not_started s Hno).
  - unfold from_chars_double, from_chars_float.
    by rewrite (lex_float_not_started s Hno).
Qed.

Lemma try_parse_int_numeral (k : kind) (lo hi : Z) (neg : bool)
    (ds junk : list ascii) :
  int_range k = Some (lo, hi) ->
  is_digits ds -> (neg = true -> is_signed k = true) ->
  is_digit (peek junk) = false ->
  try_parse k (sign_text neg ++ ds ++ junk)
  = VInt <$> integer_value lo hi
               (if neg then - digits_value 0 ds else digits_value 0 ds).
Proof.
  intros Hrange Hds Hneg Hjunk. unfold integer_value.
  destruct k; try discriminate Hrange; injection Hrange as <- <-;
    unfold try_parse, from_chars; cbn [ec parsed is_signed] in *;
    rewrite from_chars_int_numeral by done; cbv zeta;
    by destruct (_ && _).
Qed.

Lemma try_parse_decimal_numeral (k : kind) (prec emax : Z)
    (n : decimal_numeral) (junk : list ascii) :
  float_format k = Some (prec, emax) ->
  well_formed n -> numeral_ends n junk ->
  try_parse k (numeral_text n ++ junk)
  = VFloat <$> decimal_value prec emax (negative n) (numeral_mantissa n)
                 (numeral_exponent n).
Proof.
  intros Hk Hn Hends. unfold decimal_value.
  destruct k; try discriminate Hk; injection Hk as <- <-;
    unfold try_parse, from_chars, from_chars_single, from_chars_double,
      from_chars_float;
    rewrite (lex_float_numeral n junk Hn Hends);
    (destruct (decimal_to_SF _ _ _ _ _); try done;
     by destruct (_ =? _)%Z).
Qed.

Lemma try_parse_inf (k : kind) (neg : bool) (word junk : list ascii) :
  float_format k <> None -> lower <$> word = chars "inf" ->
  try_parse k (sign_text neg ++ word ++ junk)
  = Some (VFloat (if neg then neg_infinity else infinity)).
Proof.
  intros Hk Hword.
  destruct (lex_float_inf neg word junk Hword) as [rest Hlex].
  destruct k; try (by destruct Hk);
    unfold try_parse, from_chars, from_chars_single, from_chars_double,
      from_chars_float;
    by rewrite Hlex.
Qed.

Lemma try_parse_nan (k : kind) (neg : bool) (word junk : list ascii) :
  float_format k <> None -> lower <$> word = chars "nan" ->
  try_parse k (sign_text neg ++ word ++ junk) = Some (VFloat nan).
Proof.
  intros Hk Hword.
  destruct (lex_float_nan neg word junk Hword) as [rest Hlex].
  destruct k; try (by destruct Hk);
    unfold try_parse, from_chars, from_chars_single, from_chars_double,
      from_chars_float;
    by rewrite Hlex.
Qed.

Lemma scan_token_bare_field (field rest : list ascii) :
  bare_field field rest -> scan_token (field ++ rest) = rest.
Proof.
  intros [Hfield Hrest]. induction Hfield as [|a field Ha _ IH].
  - destruct rest as [|a rest]; [done|]. cbn. by rewrite Hrest.
  - cbn. by rewrite Ha.
Qed.

Lemma parse_arg_empty_bare (k : kind) (c : cursor) :
  ends_token (peek c) = true -> parse_arg k c = None.
Proof.
  intros Hend. unfold parse_arg.
  destruct (Ascii.eqb_spec (peek c) DQUOTE) as [Hq|_].
  { rewrite Hq in Hend. discriminate Hend. }
  assert (Hscan : scan_token c = c).
  { destruct c as [|a c]; [done|]. cbn in *. by rewrite Hend. }
  rewrite Hscan. unfold same_position. by rewrite Nat.eqb_refl.
Qed.

Lemma parse_arg_empty_quoted (k : kind) (rest : list ascii) :
  is_numeric k = true -> peek rest <> DQUOTE ->
  parse_arg k (DQUOTE :: DQUOTE :: rest) = None.
Proof.
  intros Hk Hrest. unfold parse_arg, scan_quoted.
  cbn [peek advance tl scan_quoted_loop].
  change (Ascii.eqb DQUOTE DQUOTE) with true.
  change (Ascii.eqb DQUOTE LF || Ascii.eqb DQUOTE NUL) with false.
  cbn iota.
  assert (Hspan : span_between (DQUOTE :: rest) (DQUOTE :: rest) = [])
    by (unfold span_between; by rewrite Nat.sub_diag).
  destruct rest as [|b rest].
  - rewrite Hspan. by destruct k.
  - cbn in Hrest. destruct (Ascii.eqb_spec b DQUOTE) as [|_]; [done|].
    rewrite Hspan. by destruct k.
Qed.

(** C1, at a sequence of one valid candle whose time is [10^18]: the
    writer leaves 18 NUL characters where the 19 digits of the time belong,
    and reading the bytes back fails on that row. *)
Theorem read_write_fails_for_19_digit_time :
  valid_candle late_candle
  /\ write_candles [late_candle]
     = quoted_header_line ++ replicate 18 NUL ++ chars ",1,1,1,1,1,1,1,1" ++ [LF]
  /\ read_candles (write_candles [late_candle]) [] ok
     = Some (false, [], invalid_candle_fields).
Proof.
  split; [|split; vm_compute; reflexivity].
  unfold valid_candle. cbn. repeat split; try reflexivity; try lia.
Qed.

Lemma unescape_escape (s : list ascii) : unescape (escape s) = s.
Proof.
  induction s as [|a s IH]; [done|]. cbn [escape].
  destruct (Ascii.eqb_spec a DQUOTE) as [->|Ha].
  - cbn. by rewrite IH.
  - cbn [unescape]. destruct (Ascii.eqb_spec a DQUOTE); [done|].
    by rewrite IH.
Qed.

Lemma escape_plain (s : list ascii) : DQUOTE ∉ s -> escape s = s.
Proof.
  induction s as [|a s IH]; intros Hq; [done|]. cbn [escape].
  apply not_elem_of_cons in Hq as [Ha Hq].
  destruct (Ascii.eqb_spec a DQUOTE) as [->|_]; [done|].
  by rewrite IH.
Qed.

(** [scan_quoted] runs over doubled quotes up to the closing quote. *)
Lemma scan_quoted_loop_escape (rest : list ascii) :
  peek rest <> DQUOTE ->
  forall (s : list ascii) (b : bool),
    Forall within_line s ->
    exists b' : bool,
      scan_quoted_loop (escape s ++ DQUOTE :: rest) b
      = Some (DQUOTE :: rest, b')
      /\ (b' = false -> b = false /\ escape s = s).
Proof.
  intros Hrest. induction s as [|a s IH]; intros b Hs.
  - exists b. split; [|done]. cbn.
    destruct rest as [|r rest]; [done|]. cbn in Hrest.
    by destruct (Ascii.eqb_spec r DQUOTE).
  - apply Forall_cons in Hs as [[Hlf Hnul] Hs]. cbn [escape].
    destruct (Ascii.eqb_spec a DQUOTE) as [->|Hq].
    + destruct (IH true Hs) as (b' & Hloop & Hb').
      exists b'. split; [exact Hloop|].
      intros Hf. by destruct (Hb' Hf).
    + destruct (IH b Hs) as (b' & Hloop & Hb').
      exists b'. cbn [app scan_quoted_loop].
      destruct (Ascii.eqb_spec a LF) as [|_]; [done|].
      destruct (Ascii.eqb_spec a NUL) as [|_]; [done|].
      destruct (Ascii.eqb_spec a DQUOTE) as [|_]; [done|].
      cbn [orb]. split; [exact Hloop|].
      intros Hf. destruct (Hb' Hf) as [-> ->]. done.
Qed.

(** The field between the opening quote and the closing quote that
    [scan_quoted] stops on. *)
Lemma parse_arg_quoted_at (body rest : list ascii) (b : bool) :
  scan_quoted_loop (body ++ DQUOTE :: rest) false = Some (DQUOTE :: rest, b) ->
  parse_arg KString (DQUOTE :: body ++ DQUOTE :: rest)
  = Some (VString (if b then unescape body else body), rest).
Proof.
  intros Hscan. unfold parse_arg. cbn [peek].
  change (Ascii.eqb DQUOTE DQUOTE) with true. cbn iota.
  unfold scan_quoted. cbn [advance tl]. rewrite Hscan.
  assert (Hspan : span_between (body ++ DQUOTE :: rest) (DQUOTE :: rest)
                  = body).
  { unfold span_between. rewrite length_app.
    replace (length body + length (DQUOTE :: rest)
             - length (DQUOTE :: rest))%nat
      with (length body) by lia.
    apply take_app_length. }
  rewrite Hspan. cbn [advance tl]. by destruct b.
Qed.

(** X17.  Reading a quoted text field: for a text without newline and NUL
    characters, written between double quotes with each of its own double
    quotes doubled, and followed by anything but a further double quote,
    [parse_arg] for a [std::string] gives the text back, with the doubled
    quotes undone, and leaves the cursor behind the closing quote. *)
Theorem parse_arg_quoted_text (s rest : list ascii) :
  Forall within_line s -> peek rest <> DQUOTE ->
  parse_arg KString (DQUOTE :: escape s ++ DQUOTE :: rest)
  = Some (VString s, rest).
Proof.
  intros Hs Hrest.
  destruct (scan_quoted_loop_escape rest Hrest s false Hs)
    as (b' & Hscan & Hb').
  rewrite (parse_arg_quoted_at _ _ _ Hscan).
  destruct b'.
  - by rewrite unescape_escape.
  - destruct (Hb' eq_refl) as [_ ->]. done.
Qed.

Lemma parse_arg_quoted_text_witness :
  Forall within_line (chars "say " ++ DQUOTE :: chars "hi" ++ [DQUOTE])
  /\ peek (chars ",1") <> DQUOTE
  /\ parse_arg KString
       (DQUOTE :: escape (chars "say " ++ DQUOTE :: chars "hi" ++ [DQUOTE])
          ++ DQUOTE :: chars ",1")
     = Some (VString (chars "say " ++ DQUOTE :: chars "hi" ++ [DQUOTE]),
             chars ",1").
Proof.
  assert (H1 : Forall within_line
                 (chars "say " ++ DQUOTE :: chars "hi" ++ [DQUOTE]))
    by (repeat constructor; discriminate).
  assert (H2 : peek (chars ",1") <> DQUOTE) by discriminate.
  split; [exact H1|]. split; [exact H2|].
  exact (parse_arg_quoted_text _ _ H1 H2).
Defined.

(** X18.  What the writer makes of a text is read back only when the text
    has no double quote: [format_arg] puts the characters between two
    quotes as they are and doubles nothing.  A text without quotes, newlines
    and NUL characters is read back as it was.  With a quote inside that
    another character follows, the field read back is cut in front of
    that quote, and the cursor is left on what follows it, inside the
    text. *)
Theorem written_text_field_read_back (s post rest : list ascii) (a : ascii) :
  Forall within_line s -> DQUOTE ∉ s ->
  peek rest <> DQUOTE -> a <> DQUOTE ->
  parse_arg KString (argument_text (AText s) ++ rest)
  = Some (VString s, rest)
  /\ parse_arg KString
       (argument_text (AText (s ++ DQUOTE :: a :: post)) ++ rest)
     = Some (VString s, a :: post ++ DQUOTE :: rest).
Proof.
  intros Hs Hq Hrest Ha. cbn [argument_text]. unfold quoted.
  pose proof (escape_plain s Hq) as Hplain.
  assert (Hun : unescape s = s)
    by (rewrite <- Hplain at 1; apply unescape_escape).
  split.
  - destruct (scan_quoted_loop_escape rest Hrest s false Hs)
      as (b' & Hscan & Hb').
    rewrite Hplain in Hscan.
    cbn [app]. rewrite <- app_assoc. cbn [app].
    rewrite (parse_arg_quoted_at _ _ _ Hscan).
    destruct b'; [|done]. by rewrite Hun.
  - destruct (scan_quoted_loop_escape (a :: post ++ DQUOTE :: rest) Ha s
                false Hs) as (b' & Hscan & Hb').
    rewrite Hplain in Hscan.
    cbn [app]. rewrite <- !app_assoc. cbn [app].
    rewrite (parse_arg_quoted_at _ _ _ Hscan).
    destruct b'; [|done]. by rewrite Hun.
Qed.

Lemma written_text_field_read_back_witness :
  Forall within_line (chars "open")
  /\ (DQUOTE ∉ chars "open")
  /\ peek (chars ",1") <> DQUOTE
  /\ "x"%char <> DQUOTE
  /\ parse_arg KString (argument_text (AText (chars "open")) ++ chars ",1")
     = Some (VString (chars "open"), chars ",1")
  /\ parse_arg KString
       (argument_text (AText (chars "open" ++ DQUOTE :: "x"%char :: chars "y"))
          ++ chars ",1")
     = Some (VString (chars "open"),
             "x"%char :: chars "y" ++ DQUOTE :: chars ",1").
Proof.
  assert (H1 : Forall within_line (chars "open"))
    by (repeat constructor; discriminate).
  assert (H2 : DQUOTE ∉ chars "open").
  { intros H. cbn in H.
    repeat (apply elem_of_cons in H as [H|H]; [discriminate H|]).
    by apply elem_of_nil in H. }
  assert (H3 : peek (chars ",1") <> DQUOTE) by discriminate.
  assert (H4 : "x"%char <> DQUOTE) by discriminate.
  split; [exact H1|]. split; [exact H2|]. split; [exact H3|].
  split; [exact H4|].
  exact (written_text_field_read_back _ (chars "y") _ _ H1 H2 H3 H4).
Defined.

Lemma parse_arg_quoted_numeric_at (k : kind) (body rest : list ascii)
    (b : bool) :
  is_numeric k = true ->
  scan_quoted_loop (body ++ DQUOTE :: rest) false = Some (DQUOTE :: rest, b) ->
  parse_arg k (DQUOTE :: body ++ DQUOTE :: rest)
  = (fun v => (v, rest)) <$> try_parse k body.
Proof.
  intros Hk Hscan. unfold parse_arg. cbn [peek].
  change (Ascii.eqb DQUOTE DQUOTE) with true. cbn iota.
  unfold scan_quoted. cbn [advance tl]. rewrite Hscan.
  assert (Hspan : span_between (body ++ DQUOTE :: rest) (DQUOTE :: rest)
                  = body).
  { unfold span_between. rewrite length_app.
    replace (length body + length (DQUOTE :: rest)
             - length (DQUOTE :: rest))%nat
      with (length body) by lia.
    apply take_app_length. }
  rewrite Hspan. cbn [advance tl].
  destruct k; try discriminate Hk; by destruct (try_parse _ body).
Qed.

(** A bare field is the span up to the character that ends the token. *)
Lemma parse_arg_bare_field (k : kind) (field rest : list ascii) :
  field <> [] -> peek field <> DQUOTE -> bare_field field rest ->
  parse_arg k (field ++ rest) = (fun v => (v, rest)) <$> try_parse k field.
Proof.
  intros Hne Hq Hfield. unfold parse_arg.
  rewrite (scan_token_bare_field _ _ Hfield).
  destruct field as [|a field]; [done|]. cbn [app peek] in *.
  destruct (Ascii.eqb_spec a DQUOTE) as [|_]; [done|].
  unfold same_position, span_between. cbn [length].
  rewrite !length_app.
  destruct (Nat.eqb_spec (S (length field + length rest)) (length rest))
    as [|_]; [lia|].
  replace (S (length field + length rest) - length rest)%nat
    with (length (a :: field)) by (cbn; lia).
  change (a :: field ++ rest) with ((a :: field) ++ rest).
  rewrite take_app_length.
  by destruct (try_parse k _).
Qed.

(** C2, as the code has it.  A numeric field is converted from the span
    that was scanned for it: a bare token up to the character that ends it,
    or what stands between two quotes.  The conversion takes the longest
    numeral of the type of the field that the span starts with and ignores
    whatever stands behind it in the span.  The numerals of an integer type
    are runs of digits, behind a minus sign for a negative number of a
    signed type; those of a floating-point type are decimals with an
    optional minus sign, point and exponent, and [inf] and [nan] in letters
    of any case.  The field gets the value of the numeral when the type has
    it.  It fails for an empty span (bare, or between two quotes), for a
    span that does not start with a numeral, for an integer numeral outside
    the range of the type, and for a decimal that rounds to an infinity
    or, being other than zero, to zero. *)
Theorem numeric_field_takes_numeral_prefix (k : kind) :
  is_numeric k = true ->
  (forall field rest,
     field <> [] -> peek field <> DQUOTE -> bare_field field rest ->
     parse_arg k (field ++ rest) = (fun v => (v, rest)) <$> try_parse k field)
  /\ (forall body rest,
        Forall within_line body -> DQUOTE ∉ body -> peek rest <> DQUOTE ->
        parse_arg k (DQUOTE :: body ++ DQUOTE :: rest)
        = (fun v => (v, rest)) <$> try_parse k body)
  /\ (forall c, ends_token (peek c) = true -> parse_arg k c = None)
  /\ (forall rest,
        peek rest <> DQUOTE -> parse_arg k (DQUOTE :: DQUOTE :: rest) = None)
  /\ try_parse k [] = None
  /\ (forall s, ~ starts_numeral k s -> try_parse k s = None)
  /\ (forall lo hi neg ds junk,
        int_range k = Some (lo, hi) ->
        is_digits ds -> (neg = true -> is_signed k = true) ->
        is_digit (peek junk) = false ->
        try_parse k (sign_text neg ++ ds ++ junk)
        = VInt <$> integer_value lo hi
                     (if neg then - digits_value 0 ds
                      else digits_value 0 ds)%Z)
  /\ (forall prec emax n junk,
        float_format k = Some (prec, emax) ->
        well_formed n -> numeral_ends n junk ->
        try_parse k (numeral_text n ++ junk)
        = VFloat <$> decimal_value prec emax (negative n)
                       (numeral_mantissa n) (numeral_exponent n))
  /\ (forall neg word junk,
        float_format k <> None -> lower <$> word = chars "inf" ->
        try_parse k (sign_text neg ++ word ++ junk)
        = Some (VFloat (if neg then neg_infinity else infinity)))
  /\ (forall neg word junk,
        float_format k <> None -> lower <$> word = chars "nan" ->
        try_parse k (sign_text neg ++ word ++ junk) = Some (VFloat nan)).
Proof.
  intros Hk.
  split; [intros field rest; by apply parse_arg_bare_field|].
  split.
  { intros body rest Hbody Hq Hrest.
    destruct (scan_quoted_loop_escape rest Hrest body false Hbody)
      as (b' & Hscan & _).
    rewrite (escape_plain body Hq) in Hscan.
    by apply (parse_arg_quoted_numeric_at k body rest b'). }
  split; [intros c; by apply parse_arg_empty_bare|].
  split; [intros rest; by apply parse_arg_empty_quoted|].
  split; [by destruct k|].
  split; [intros s; by apply try_parse_not_started|].
  split; [intros lo hi neg ds junk; by apply try_parse_int_numeral|].
  split; [intros prec emax n junk; by apply try_parse_decimal_numeral|].
  split; [intros neg word junk; by apply try_parse_inf|].
  intros neg word junk; by apply try_parse_nan.
Qed.

Lemma numeric_field_takes_numeral_prefix_witness :
  let n := DecimalNumeral true (chars "1") (Some (chars "5"))
             (Some ("e"%char, no_sign, chars "3")) in
  (is_numeric KDouble = true /\ is_numeric KInt32 = true
   /\ is_numeric KUInt64 = true)
  /\ try_parse KDouble (chars "-1.5e3" ++ chars "abc")
     = VFloat <$> decimal_value 53 1024 true 15 2
  /\ decimal_value 53 1024 true 15 2 = Some (-1500)%float
  /\ parse_arg KDouble (chars "-1.5e3abc" ++ chars ",7")
     = (fun v => (v, chars ",7")) <$> try_parse KDouble (chars "-1.5e3abc")
  /\ try_parse KInt32 (chars "-" ++ chars "12" ++ chars "abc")
     = VInt <$> integer_value (- 2 ^ 31) (2 ^ 31 - 1) (- 12)
  /\ try_parse KUInt64 (chars "-12") = None.
Proof.
  intros n.
  assert (Hd : is_numeric KDouble = true) by reflexivity.
  assert (Hi : is_numeric KInt32 = true) by reflexivity.
  assert (Hu : is_numeric KUInt64 = true) by reflexivity.
  split; [by repeat split|].
  destruct (numeric_field_takes_numeral_prefix KDouble Hd)
    as (Hbare & _ & _ & _ & _ & _ & _ & Hdecimal & _).
  destruct (numeric_field_takes_numeral_prefix KInt32 Hi)
    as (_ & _ & _ & _ & _ & _ & Hint & _).
  destruct (numeric_field_takes_numeral_prefix KUInt64 Hu)
    as (_ & _ & _ & _ & _ & Hnone & _).
  split.
  { apply (Hdecimal 53 1024 n (chars "abc"))%Z; [reflexivity| |].
    - repeat split; try discriminate; by repeat constructor.
    - repeat split; try discriminate.  }
  split; [vm_compute; reflexivity|].
  split.
  { apply Hbare; [discriminate|discriminate|].
    split; [by repeat constructor|reflexivity]. }
  split.
  { apply (Hint (- 2 ^ 31) (2 ^ 31 - 1) true (chars "12") (chars "abc"))%Z;
      [reflexivity| |reflexivity|reflexivity].
    split; [discriminate|by repeat constructor]. }
  apply Hnone. intros [Hdigit|[Hsigned _]]; discriminate.
Defined.

(** C2 as stated fails: the bare token [12abc] is accepted as the value of
    an unsigned 64-bit field, and of a [double] field. *)
Lemma row_accepts_numeric_prefix :
  parse [KUInt64] (chars "12abc") = Some ([VInt 12], [])
  /\ parse [KDouble] (chars "12abc") = Some ([VFloat 12], []).
Proof. split; vm_compute; reflexivity. Qed.

(** X26.  A numeric field may stand between double quotes: for a text
    between the quotes without quote, newline and NUL characters, the field
    is converted as [try_parse] converts the text between the quotes, and
    the cursor is left behind the closing quote.  White space and commas
    between the quotes belong to the field. *)
Theorem parse_arg_quoted_number (k : kind) (body rest : list ascii) :
  is_numeric k = true ->
  Forall within_line body -> DQUOTE ∉ body -> peek rest <> DQUOTE ->
  parse_arg k (DQUOTE :: body ++ DQUOTE :: rest)
  = (fun v => (v, rest)) <$> try_parse k body.
Proof.
  intros Hk Hbody Hq Hrest.
  destruct (scan_quoted_loop_escape rest Hrest body false Hbody)
    as (b' & Hscan & _).
  rewrite (escape_plain body Hq) in Hscan.
  by apply (parse_arg_quoted_numeric_at k body rest b').
Qed.

Lemma parse_arg_quoted_number_witness :
  is_numeric KDouble = true
  /\ Forall within_line (chars "1.5, or so")
  /\ (DQUOTE ∉ chars "1.5, or so")
  /\ peek (chars ",7") <> DQUOTE
  /\ parse_arg KDouble (DQUOTE :: chars "1.5, or so" ++ DQUOTE :: chars ",7")
     = (fun v => (v, chars ",7")) <$> try_parse KDouble (chars "1.5, or so").
Proof.
  assert (H1 : is_numeric KDouble = true) by reflexivity.
  assert (H2 : Forall within_line (chars "1.5, or so"))
    by (repeat constructor; discriminate).
  assert (H3 : DQUOTE ∉ chars "1.5, or so").
  { intros H. cbn in H.
    repeat (apply elem_of_cons in H as [H|H]; [discriminate H|]).
    by apply elem_of_nil in H. }
  assert (H4 : peek (chars ",7") <> DQUOTE) by discriminate.
  split; [exact H1|]. split; [exact H2|]. split; [exact H3|].
  split; [exact H4|].
  exact (parse_arg_quoted_number KDouble _ _ H1 H2 H3 H4).
Defined.

Lemma scan_quoted_loop_open (stop : list ascii) :
  match stop with
  | [] => True
  | a :: _ => a = LF \/ a = NUL
  end ->
  forall (body : list ascii) (b : bool),
    Forall within_line body -> DQUOTE ∉ body ->
    scan_quoted_loop (body ++ stop) b = None.
Proof.
  intros Hstop. induction body as [|a body IH]; intros b Hbody Hq.
  - cbn [app]. destruct stop as [|s stop]; [done|].
    cbn. by destruct Hstop as [->| ->].
  - apply Forall_cons in Hbody as [[Hlf Hnul] Hbody].
    apply not_elem_of_cons in Hq as [Ha Hq].
    cbn [app scan_quoted_loop].
    destruct (Ascii.eqb_spec a LF) as [|_]; [done|].
    destruct (Ascii.eqb_spec a NUL) as [|_]; [done|].
    destruct (Ascii.eqb_spec a DQUOTE) as [|_]; [done|].
    cbn [orb]. by apply IH.
Qed.

(** X27.  A quoted field that is not closed on its line does not parse,
    whatever the type of the argument: after the opening quote the end of
    the buffer, a newline or a NUL character comes before a closing
    quote. *)
Theorem parse_arg_open_quote (k : kind) (body rest : list ascii) :
  Forall within_line body -> DQUOTE ∉ body ->
  parse_arg k (DQUOTE :: body) = None
  /\ parse_arg k (DQUOTE :: body ++ LF :: rest) = None
  /\ parse_arg k (DQUOTE :: body ++ NUL :: rest) = None.
Proof.
  intros Hbody Hq.
  assert (H : forall stop,
            match stop with
            | [] => True
            | a :: _ => a = LF \/ a = NUL
            end ->
            parse_arg k (DQUOTE :: body ++ stop) = None).
  { intros stop Hstop. unfold parse_arg. cbn [peek].
    change (Ascii.eqb DQUOTE DQUOTE) with true. cbn iota.
    unfold scan_quoted. cbn [advance tl].
    by rewrite (scan_quoted_loop_open stop Hstop body false Hbody Hq). }
  split; [|split].
  - rewrite <- (app_nil_r body). by apply H.
  - apply H. by left.
  - apply H. by right.
Qed.

Lemma parse_arg_open_quote_witness :
  Forall within_line (chars "12,5")
  /\ (DQUOTE ∉ chars "12,5")
  /\ parse_arg KString (DQUOTE :: chars "12,5") = None
  /\ parse_arg KString (DQUOTE :: chars "12,5" ++ LF :: chars "13") = None
  /\ parse_arg KString (DQUOTE :: chars "12,5" ++ NUL :: chars "13") = None.
Proof.
  assert (H1 : Forall within_line (chars "12,5"))
    by (repeat constructor; discriminate).
  assert (H2 : DQUOTE ∉ chars "12,5").
  { intros H. cbn in H.
    repeat (apply elem_of_cons in H as [H|H]; [discriminate H|]).
    by apply elem_of_nil in H. }
  split; [exact H1|]. split; [exact H2|].
  exact (parse_arg_open_quote KString _ (chars "13") H1 H2).
Defined.

Lemma parse_args_end :
  forall (ks : list kind) (c c' : cursor) (vs : list value),
    parse_args ks c = Some (vs, c') ->
    length vs = length ks /\ (peek c' = LF \/ peek c' = NUL).
Proof.
  induction ks as [|k ks IH]; intros c c' vs H; [done|].
  cbn [parse_args] in H.
  destruct (parse_arg k c) as [[v c1]|]; [|done].
  destruct ks as [|k2 ks].
  - destruct (Ascii.eqb_spec (peek (skip_whitespaces c1)) LF) as [Hlf|_];
      [injection H as <- <-; by split; [|left]|].
    destruct (Ascii.eqb_spec (peek (skip_whitespaces c1)) NUL) as [Hnul|_];
      [|done].
    injection H as <- <-. by split; [|right].
  - destruct (negb _); [done|].
    destruct (parse_args (k2 :: ks) _) as [[vs' c4]|] eqn:Hrec; [|done].
    injection H as <- <-.
    destruct (IH _ _ _ Hrec) as [Hlen Hend].
    split; [cbn [length] in *; lia|done].
Qed.

(** X19.  A row is parsed only as a whole line: when [row::parse]
    succeeds it gives one value for each argument, it has taken at least
    one character and no newline or NUL character, and the cursor is left
    on the newline that ends the line or on a NUL character (the end of the
    buffer). *)
Theorem parse_takes_the_line (ks : list kind) (c c' : cursor)
    (vs : list value) :
  parse ks c = Some (vs, c') ->
  length vs = length ks
  /\ exists line : list ascii,
       c = line ++ c' /\ line <> [] /\ Forall within_line line
       /\ (peek c' = LF \/ peek c' = NUL).
Proof.
  unfold parse. intros H.
  destruct (parse_args_end _ _ _ _ H) as [Hlen Hend].
  destruct (parse_args_consumed _ _ _ _ H) as [(line & -> & Hline) Hlt].
  split; [done|]. exists line. repeat split; try done.
  intros ->. cbn in Hlt. lia.
Qed.

Lemma parse_takes_the_line_witness :
  parse [KUInt64; KDouble] (chars "12, 1.5" ++ LF :: chars "13,2")
  = Some ([VInt 12; VFloat 1.5], LF :: chars "13,2")
  /\ length [VInt 12; VFloat 1.5] = length [KUInt64; KDouble]
  /\ exists line : list ascii,
       chars "12, 1.5" ++ LF :: chars "13,2" = line ++ LF :: chars "13,2"
       /\ line <> [] /\ Forall within_line line
       /\ (peek (LF :: chars "13,2") = LF \/ peek (LF :: chars "13,2") = NUL).
Proof.
  assert (H : parse [KUInt64; KDouble] (chars "12, 1.5" ++ LF :: chars "13,2")
              = Some ([VInt 12; VFloat 1.5], LF :: chars "13,2"))
    by (vm_compute; reflexivity).
  split; [exact H|].
  exact (parse_takes_the_line _ _ _ _ H).
Defined.

End ReaderFacts.


(** ** Writing, then reading *)

Module RoundTripFacts.

Import Charconv Cosevalues Swollencandle Spec.

Lemma row_text_fields (args : list argument) :
  row_text args = fields_text (argument_text <$> args).
Proof.
  induction args as [|a args IH]; [done|].
  cbn [row_text fmap list_fmap fields_text].
  destruct args as [|b args]; [done|]. by rewrite IH.
Qed.

Lemma skip_whitespaces_token (t after : list ascii) :
  is_whitespace (hd NUL t) = false -> t <> [] ->
  skip_whitespaces (t ++ after) = t ++ after.
Proof.
  intros Hws Hne. destruct t as [|a t]; [done|]. cbn in *. by rewrite Hws.
Qed.

Lemma skip_whitespaces_fields (ks : list kind) (texts : list (list ascii))
    (vs : list value) (rest : list ascii) :
  Forall3 good_field ks texts vs -> ks <> [] ->
  skip_whitespaces (fields_text texts ++ rest) = fields_text texts ++ rest.
Proof.
  intros H Hne.
  destruct H as [|k t v ks texts vs (Hws & _ & Hnet & _) Hrest]; [done|].
  assert (Htail : exists tail, fields_text (t :: texts) = t ++ tail)
    by (destruct texts; by eexists).
  destruct Htail as [tail ->]. rewrite <- !app_assoc.
  by apply skip_whitespaces_token.
Qed.

(** A good field in front of a comma or a newline is parsed as its value,
    up to the comma or newline. *)
Lemma parse_arg_good_field (k : kind) (t after : list ascii) (v : value) :
  good_field k t v ->
  ends_token (hd NUL after) = true -> after <> [] ->
  parse_arg k (t ++ after) = Some (v, after).
Proof.
  intros (_ & Hq & Hne & Htoken & Hparse) Hend Hafter.
  unfold parse_arg.
  rewrite (ReaderFacts.scan_token_bare_field t after)
    by (split; [done|by destruct after]).
  destruct t as [|a t]; [done|]. cbn [app peek hd] in *.
  destruct (Ascii.eqb_spec a DQUOTE) as [|_]; [done|].
  unfold same_position, span_between. cbn [length]. rewrite length_app.
  destruct (Nat.eqb_spec (S (length t + length after)) (length after))
    as [|_]; [lia|].
  replace (S (length t + length after) - length after)%nat
    with (length (a :: t)) by (cbn; lia).
  change (a :: t ++ after) with ((a :: t) ++ after).
  by rewrite take_app_length, Hparse.
Qed.

(** A row of good fields parses to their values and leaves the cursor on
    the newline that closes it. *)
Lemma parse_args_good_fields :
  forall (ks : list kind) (texts : list (list ascii)) (vs : list value),
    Forall3 good_field ks texts vs ->
    ks <> [] ->
    forall rest : list ascii,
      parse_args ks (fields_text texts ++ rest) = Some (vs, LF :: rest).
Proof.
  induction 1 as [|k t v ks texts vs Hgood Hrest IH]; intros Hne rest;
    [done|].
  cbn [parse_args fields_text].
  destruct Hrest as [|k2 t2 v2 ks texts vs Hgood2 Hrest].
  - rewrite <- app_assoc.
    rewrite (parse_arg_good_field k t _ v Hgood) by done.
    cbn. done.
  - rewrite <- app_assoc. cbn [app].
    rewrite (parse_arg_good_field k t _ v Hgood) by done.
    cbn [skip_whitespaces].
    change (is_whitespace COMMA) with false. cbn [peek].
    change (Ascii.eqb COMMA COMMA) with true. cbn [negb advance tl].
    specialize (IH ltac:(done) rest).
    assert (Hskip : skip_whitespaces (fields_text (t2 :: texts) ++ rest)
                    = fields_text (t2 :: texts) ++ rest).
    { destruct Hgood2 as (Hws & _ & Hne2 & _).
      cbn [fields_text]. rewrite <- app_assoc.
      by apply skip_whitespaces_token. }
    rewrite Hskip, IH. done.
Qed.

Lemma digit_is_token_char (a : ascii) :
  is_digit a = true ->
  ends_token a = false /\ is_whitespace a = false /\ a <> DQUOTE.
Proof.
  intros Hd. unfold ends_token, is_whitespace.
  repeat match goal with
         | |- context [Ascii.eqb a ?b] =>
             destruct (Ascii.eqb_spec a b) as [->|_]; [discriminate Hd|]
         end.
  repeat split. intros ->. discriminate Hd.
Qed.

(** The decimal digits of an integer are a good field of every integer
    type that holds the value. *)
Lemma good_field_decimal (k : kind) (lo hi v : Z) :
  int_range k = Some (lo, hi) -> (0 <= v)%Z -> (lo <= v <= hi)%Z ->
  good_field k (decimal v) (VInt v).
Proof.
  intros Hrange Hv Hfits.
  destruct (CharconvFacts.decimal_spec v Hv)
    as ((Hne & Hall & Hvalue & _) & _).
  assert (Hhd : is_digit (hd NUL (decimal v)) = true).
  { destruct (decimal v) as [|d ds]; [done|]. by inversion Hall. }
  destruct (digit_is_token_char _ Hhd) as (_ & Hws & Hq).
  repeat split; try done.
  - eapply Forall_impl; [exact Hall|]. intros a Ha.
    by destruct (digit_is_token_char a Ha).
  - assert (Hds : is_digits (decimal v)) by done.
    destruct k; try discriminate Hrange; injection Hrange as <- <-;
      unfold try_parse, from_chars; cbn [ec parsed];
      match goal with
      | |- context [from_chars_int ?sg ?lo ?hi (decimal v)] =>
          rewrite (ReaderFacts.from_chars_int_whole sg lo hi _ Hds)
      end;
      rewrite Hvalue;
      match goal with
      | |- context [(?a <=? v)%Z] =>
          destruct (Z.leb_spec a v); [|lia]
      end;
      match goal with
      | |- context [(v <=? ?b)%Z] =>
          destruct (Z.leb_spec v b); [|lia]
      end; done.
Qed.

Lemma number_text_fits (digits : Z) (text : list ascii) :
  (Z.of_nat (length text) <= digits)%Z -> number_text digits text = text.
Proof.
  intros H. unfold number_text.
  by destruct (Z.leb_spec (Z.of_nat (length text)) digits); [|lia].
Qed.

Lemma integer_field_decimal (digits v : Z) :
  (0 <= v)%Z -> (Z.of_nat (length (decimal v)) <= digits)%Z ->
  integer_field digits v = decimal v.
Proof.
  intros Hv H. unfold integer_field, integer_text.
  destruct (Z.ltb_spec v 0) as [|_]; [lia|].
  by destruct (Z.leb_spec (Z.of_nat (length (decimal v))) digits); [|lia].
Qed.

(** The fields of the row the writer makes of a candle. *)
Lemma candle_row_good_fields (c : candle) :
  round_trip_candle c ->
  Forall3 good_field candle_columns (argument_text <$> candle_row c)
    [VInt (time c); VInt (period c); VInt (count c);
     VFloat (volume c); VFloat (vwap_price c); VFloat (open_price c);
     VFloat (high_price c); VFloat (low_price c); VFloat (close_price c)].
Proof.
  intros (Ht & Hp & Hn & (Lv & Hv) & (Lw & Hw) & (Lo & Ho) & (Lh & Hh)
          & (Ll & Hl) & (Lc & Hc)).
  cbn [candle_row fmap list_fmap argument_text].
  pose proof (CharconvFacts.decimal_length_le (time c) 18 ltac:(lia) Ht).
  pose proof (CharconvFacts.decimal_length_le (period c) 10 ltac:(lia)
                ltac:(lia)).
  pose proof (CharconvFacts.decimal_length_le (count c) 18 ltac:(lia) Hn).
  unfold uint64_digits, uint32_digits, double_digits.
  rewrite !integer_field_decimal by lia.
  rewrite !number_text_fits by lia.
  unfold candle_columns.
  repeat match goal with
         | |- Forall3 _ (_ :: _) _ _ => apply Forall3_cons
         | |- Forall3 _ [] _ _ => apply Forall3_nil
         end; try assumption.
  - by apply (good_field_decimal KUInt64 0 (2 ^ 64 - 1))%Z; [|lia|lia].
  - by apply (good_field_decimal KUInt32 0 (2 ^ 32 - 1))%Z; [|lia|lia].
  - by apply (good_field_decimal KUInt64 0 (2 ^ 64 - 1))%Z; [|lia|lia].
Qed.

Lemma parse_candle_row (c : candle) (rest : list ascii) :
  round_trip_candle c ->
  parse_candle (row_text (candle_row c) ++ rest) = Some (c, LF :: rest).
Proof.
  intros Hc. unfold parse_candle, parse.
  rewrite row_text_fields.
  rewrite (parse_args_good_fields _ _ _ (candle_row_good_fields c Hc))
    by done.
  by destruct c.
Qed.

(** The rows of a candle file. *)
Lemma rows_start_token (candles : list candle) :
  Forall round_trip_candle candles ->
  skip_whitespaces (concat ((fun c => row_text (candle_row c)) <$> candles))
  = concat ((fun c => row_text (candle_row c)) <$> candles).
Proof.
  intros Hall. destruct Hall as [|c candles Hc _]; [done|].
  cbn [fmap list_fmap concat]. rewrite row_text_fields.
  by apply (skip_whitespaces_fields _ _ _ _ (candle_row_good_fields c Hc)).
Qed.

Lemma read_rows_of_written (candles : list candle) :
  Forall round_trip_candle candles ->
  forall (fuel : nat) (entries : list candle),
    (length (concat ((fun c => row_text (candle_row c)) <$> candles)) < fuel)%nat ->
    read_rows parse_candle fuel
      (concat ((fun c => row_text (candle_row c)) <$> candles)) entries
    = Some (true, entries ++ candles).
Proof.
  induction 1 as [|c candles Hc Hall IH]; intros fuel entries Hfuel.
  - destruct fuel; [cbn in Hfuel; lia|]. cbn. by rewrite app_nil_r.
  - destruct fuel; [lia|].
    cbn [fmap list_fmap concat] in *. cbn [read_rows].
    rewrite (parse_candle_row c _ Hc).
    assert (Hrow : (0 < length (row_text (candle_row c)))%nat).
    { unfold candle_row. cbn [row_text]. rewrite !length_app.
      cbn [length]. lia. }
    rewrite length_app in Hfuel.
    unfold at_end, same_position. rewrite length_app.
    destruct (Nat.eqb_spec
                (length (row_text (candle_row c))
                 + length (concat ((fun c => row_text (candle_row c))
                                     <$> candles)))
                (length (@nil ascii))) as [Hz|_];
      [change (length (@nil ascii)) with 0%nat in Hz; lia|].
    unfold next_row. cbn [skip_line]. change (Ascii.eqb LF LF) with true.
    cbn iota. rewrite (rows_start_token candles Hall).
    rewrite IH by lia. by rewrite <- app_assoc.
Qed.

Lemma skip_line_over_line (body rest : list ascii) :
  Forall within_line body -> skip_line (body ++ LF :: rest) = rest.
Proof.
  intros Hbody.
  rewrite (ReaderFacts.consumed_skip_line (body ++ LF :: rest) (LF :: rest))
    by (by exists body).
  done.
Qed.

(** X23.  Writing candles whose integer fields are below [10^18] and
    whose [double]s round-trip, and reading the bytes back, gives the
    candles, whatever the output vector held before; the error code is as
    it was.  (For fewer than [2^54] candles, which keeps the sizes of the
    writer below [2^63].) *)
Lemma read_write_round_trip (candles prior : list candle) (ec : error) :
  (Z.of_nat (length candles) < 2 ^ 54)%Z ->
  Forall round_trip_candle candles ->
  read_candles (write_candles candles) prior ec = Some (true, candles, ec).
Proof.
  intros Hlen Hall.
  rewrite (WriterFacts.write_candles_text candles Hlen).
  set (rows := concat ((fun c => row_text (candle_row c)) <$> candles)).
  assert (Hheader : quoted_header_line
                    = removelast quoted_header_line ++ [LF])
    by (vm_compute; reflexivity).
  assert (Hbody : Forall within_line (removelast quoted_header_line)).
  { vm_compute removelast.
    repeat (constructor; [split; discriminate|]). constructor. }
  assert (Hbegin : second_to_last_rows (quoted_header_line ++ rows) = rows).
  { unfold second_to_last_rows, make_iterator, next_row.
    assert (Hsk : skip_whitespaces (quoted_header_line ++ rows)
                  = quoted_header_line ++ rows) by done.
    rewrite Hsk. unfold same_position. rewrite length_app.
    assert (Hpos : length quoted_header_line = 99%nat) by reflexivity.
    destruct (Nat.eqb_spec (length quoted_header_line + length rows)
                (length (@nil ascii))) as [Hz|_];
      [change (length (@nil ascii)) with 0%nat in Hz; lia|].
    rewrite Hheader, <- app_assoc. cbn [app].
    rewrite (skip_line_over_line _ _ Hbody).
    by apply rows_start_token. }
  unfold read_candles. rewrite Hbegin.
  unfold rows. rewrite read_rows_of_written; [done|done|].
  rewrite length_app. lia.
Qed.

(** The sample candles satisfy the condition, so it is not void. *)
Lemma sample_candles_round_trip :
  Forall round_trip_candle [sample_candle; stale_candle].
Proof.
  constructor; [|constructor; [|constructor]];
    unfold round_trip_candle, double_round_trips, good_field;
    repeat match goal with |- _ /\ _ => split end;
    match goal with
    | |- (_ <= _)%Z => vm_compute; discriminate
    | |- (_ < _)%Z => vm_compute; reflexivity
    | |- (_ <= _)%nat => vm_compute; lia
    | |- Forall _ _ => vm_compute; repeat constructor
    | |- _ <> _ => vm_compute; discriminate
    | |- _ = _ => vm_compute; reflexivity
    end.
Qed.

Lemma read_write_round_trip_witness :
  (Z.of_nat (length [sample_candle; stale_candle]) < 2 ^ 54)%Z
  /\ Forall round_trip_candle [sample_candle; stale_candle]
  /\ read_candles (write_candles [sample_candle; stale_candle])
       [late_candle] ok
     = Some (true, [sample_candle; stale_candle], ok).
Proof.
  assert (H1 : (Z.of_nat (length [sample_candle; stale_candle]) < 2 ^ 54)%Z)
    by (vm_compute; reflexivity).
  split; [exact H1|]. split; [exact sample_candles_round_trip|].
  exact (read_write_round_trip [sample_candle; stale_candle] [late_candle] ok
           H1 sample_candles_round_trip).
Defined.

(** Reading rows that were written one after the other. *)
Lemma read_rows_written {A : Type} (parse_row : cursor -> option (A * cursor))
    (text_of : A -> list ascii) (good : A -> Prop) :
  (forall a rest, good a ->
     parse_row (text_of a ++ rest) = Some (a, LF :: rest)) ->
  (forall a rest, good a ->
     skip_whitespaces (text_of a ++ rest) = text_of a ++ rest) ->
  (forall a, good a -> text_of a <> []) ->
  forall (l : list A) (tail : list ascii) (fuel : nat) (entries : list A),
    Forall good l ->
    skip_whitespaces tail = tail ->
    (length (concat (text_of <$> l) ++ tail) < fuel)%nat ->
    exists fuel' : nat,
      (length tail < fuel')%nat
      /\ read_rows parse_row fuel (concat (text_of <$> l) ++ tail) entries
         = read_rows parse_row fuel' tail (entries ++ l).
Proof.
  intros Hparse Hstart Hne.
  induction l as [|a l IH]; intros tail fuel entries Hall Htail Hfuel.
  - exists fuel. cbn in *. by rewrite app_nil_r.
  - apply Forall_cons in Hall as [Ha Hall].
    destruct fuel as [|fuel]; [lia|].
    cbn [fmap list_fmap concat] in *. rewrite <- app_assoc in *.
    cbn [read_rows]. rewrite (Hparse a _ Ha).
    assert (Hrow : (0 < length (text_of a))%nat).
    { specialize (Hne a Ha). destruct (text_of a); [done|cbn; lia]. }
    rewrite length_app in Hfuel.
    unfold at_end, same_position. rewrite length_app.
    destruct (Nat.eqb_spec
                (length (text_of a)
                 + length (concat (text_of <$> l) ++ tail))
                (length (@nil ascii))) as [Hz|_];
      [change (length (@nil ascii)) with 0%nat in Hz; lia|].
    unfold next_row. cbn [skip_line]. change (Ascii.eqb LF LF) with true.
    cbn iota.
    assert (Hnext : skip_whitespaces (concat (text_of <$> l) ++ tail)
                    = concat (text_of <$> l) ++ tail).
    { destruct Hall as [|b l Hb _]; [done|].
      cbn [fmap list_fmap concat]. rewrite <- app_assoc. by apply Hstart. }
    rewrite Hnext.
    destruct (IH tail fuel (entries ++ [a]) Hall Htail ltac:(lia))
      as (fuel' & Hfuel' & ->).
    exists fuel'. split; [done|]. by rewrite <- app_assoc.
Qed.

Lemma candle_rows_written (candles : list candle) (tail : list ascii)
    (fuel : nat) :
  Forall round_trip_candle candles ->
  skip_whitespaces tail = tail ->
  (length (concat ((fun c => row_text (candle_row c)) <$> candles) ++ tail)
   < fuel)%nat ->
  exists fuel' : nat,
    (length tail < fuel')%nat
    /\ read_rows parse_candle fuel
         (concat ((fun c => row_text (candle_row c)) <$> candles) ++ tail) []
       = read_rows parse_candle fuel' tail candles.
Proof.
  intros Hall Htail Hfuel.
  apply (read_rows_written parse_candle (fun c => row_text (candle_row c))
           round_trip_candle); try done.
  - intros c rest Hc. by apply parse_candle_row.
  - intros c rest Hc. rewrite row_text_fields.
    by apply (skip_whitespaces_fields _ _ _ _ (candle_row_good_fields c Hc)).
  - intros c _. unfold candle_row. cbn [row_text].
    by destruct (argument_text _).
Qed.

Lemma trade_row_good_fields (t : trade) :
  round_trip_trade t ->
  Forall3 good_field trade_columns (argument_text <$> trade_row t)
    [VInt (trade_time t); VFloat (price t); VFloat (amount t)].
Proof.
  intros (Ht & (Lp & Hp) & (La & Ha)).
  cbn [trade_row fmap list_fmap argument_text].
  pose proof (CharconvFacts.decimal_length_le (trade_time t) 18 ltac:(lia) Ht).
  unfold uint64_digits, double_digits.
  rewrite !integer_field_decimal by lia.
  rewrite !number_text_fits by lia.
  unfold trade_columns.
  apply Forall3_cons; [|apply Forall3_cons; [|apply Forall3_cons;
    [|apply Forall3_nil]]]; try assumption.
  by apply (good_field_decimal KUInt64 0 (2 ^ 64 - 1))%Z; [|lia|lia].
Qed.

Lemma parse_trade_row (t : trade) (rest : list ascii) :
  round_trip_trade t ->
  parse_trade (row_text (trade_row t) ++ rest) = Some (t, LF :: rest).
Proof.
  intros Ht. unfold parse_trade, parse.
  rewrite row_text_fields.
  rewrite (parse_args_good_fields _ _ _ (trade_row_good_fields t Ht))
    by done.
  by destruct t.
Qed.

Lemma trade_rows_written (trades : list trade) (tail : list ascii)
    (fuel : nat) :
  Forall round_trip_trade trades ->
  skip_whitespaces tail = tail ->
  (length (concat ((fun t => row_text (trade_row t)) <$> trades) ++ tail)
   < fuel)%nat ->
  exists fuel' : nat,
    (length tail < fuel')%nat
    /\ read_rows parse_trade fuel
         (concat ((fun t => row_text (trade_row t)) <$> trades) ++ tail) []
       = read_rows parse_trade fuel' tail trades.
Proof.
  intros Hall Htail Hfuel.
  apply (read_rows_written parse_trade (fun t => row_text (trade_row t))
           round_trip_trade); try done.
  - intros t rest Ht. by apply parse_trade_row.
  - intros t rest Ht. rewrite row_text_fields.
    by apply (skip_whitespaces_fields _ _ _ _ (trade_row_good_fields t Ht)).
  - intros t _. unfold trade_row. cbn [row_text].
    by destruct (argument_text _).
Qed.

(** The bytes of a trade file: the rows, without a header line. *)
Lemma write_trades_text (trades : list trade) :
  (Z.of_nat (length trades) < 2 ^ 54)%Z ->
  write_trades trades
  = concat ((fun t => row_text (trade_row t)) <$> trades).
Proof.
  intros Hn. unfold write_trades, to_string.
  set (w0 := reserve _ empty_writer).
  assert (H0 : buffer_ w0 = []) by done.
  rewrite (WriterFacts.write_rows_appends trade_row 85).
  - by rewrite H0.
  - intros t. reflexivity.
  - unfold buffer_size. rewrite H0. cbn [length]. lia.
Qed.

(** X24.  Writing trades whose time is below [10^18] and whose [double]s
    round-trip, and reading the bytes back, gives the trades: the file of
    trades has no header line, [write] puts the time, the price and the
    amount of a trade in a row, and [read] takes them in this order.  (For
    fewer than [2^54] trades, which keeps the sizes of the writer below
    [2^63].) *)
Theorem read_write_trades_round_trip (trades prior : list trade)
    (ec : error) :
  (Z.of_nat (length trades) < 2 ^ 54)%Z ->
  Forall round_trip_trade trades ->
  read_trades (write_trades trades) prior ec = Some (true, trades, ec).
Proof.
  intros Hlen Hall.
  rewrite (write_trades_text trades Hlen).
  set (rows := concat ((fun t => row_text (trade_row t)) <$> trades)).
  assert (Hstart : skip_whitespaces rows = rows).
  { unfold rows. destruct Hall as [|t trades Ht _]; [done|].
    cbn [fmap list_fmap concat]. rewrite row_text_fields.
    by apply (skip_whitespaces_fields _ _ _ _ (trade_row_good_fields t Ht)). }
  unfold read_trades, first_to_last_rows, make_iterator. rewrite Hstart.
  destruct (trade_rows_written trades [] (S (length rows)) Hall eq_refl)
    as (fuel' & Hfuel' & Hread).
  { fold rows. rewrite app_nil_r. lia. }
  fold rows in Hread. rewrite app_nil_r in Hread. rewrite Hread.
  destruct fuel' as [|fuel']; [cbn in Hfuel'; lia|]. done.
Qed.

(** The sample trades satisfy the condition. *)
Lemma sample_trades_round_trip : Forall round_trip_trade sample_trades.
Proof.
  repeat (constructor;
          [unfold round_trip_trade, double_round_trips, good_field;
           repeat match goal with |- _ /\ _ => split end;
           match goal with
           | |- (_ <= _)%Z => vm_compute; discriminate
           | |- (_ < _)%Z => vm_compute; reflexivity
           | |- (_ <= _)%nat => vm_compute; lia
           | |- Forall _ _ => vm_compute; repeat constructor
           | |- _ <> _ => vm_compute; discriminate
           | |- _ = _ => vm_compute; reflexivity
           end|]).
  constructor.
Qed.

Lemma read_write_trades_round_trip_witness :
  (Z.of_nat (length sample_trades) < 2 ^ 54)%Z
  /\ Forall round_trip_trade sample_trades
  /\ read_trades (write_trades sample_trades) [] ok
     = Some (true, sample_trades, ok).
Proof.
  assert (H1 : (Z.of_nat (length sample_trades) < 2 ^ 54)%Z)
    by (vm_compute; reflexivity).
  split; [exact H1|]. split; [exact sample_trades_round_trip|].
  exact (read_write_trades_round_trip sample_trades [] ok H1
           sample_trades_round_trip).
Defined.

End RoundTripFacts.

(** ** Files as a whole *)

Module FileFacts.

Import Charconv Cosevalues Swollencandle Spec.
Import ReaderFacts RoundTripFacts.

Lemma read_rows_more_fuel {A : Type}
    (parse_row : cursor -> option (A * cursor)) :
  forall (fuel fuel' : nat) (it : cursor) (entries : list A)
         (r : bool * list A),
    read_rows parse_row fuel it entries = Some r ->
    (fuel <= fuel')%nat ->
    read_rows parse_row fuel' it entries = Some r.
Proof.
  induction fuel as [|fuel IH]; intros fuel' it entries r Hr Hle; [done|].
  destruct fuel' as [|fuel']; [lia|].
  cbn [read_rows] in *.
  destruct (at_end it); [done|].
  destruct (parse_row it) as [[entry row]|]; [|done].
  apply (IH fuel'); [done|lia].
Qed.

(** With fuel for its text the loop returns, and more fuel changes
    nothing. *)
Lemma read_rows_enough_fuel {A : Type}
    (parse_row : cursor -> option (A * cursor)) (it : cursor)
    (entries : list A) (fuel : nat) :
  line_local parse_row ->
  (length it < fuel)%nat ->
  read_rows parse_row fuel it entries
  = read_rows parse_row (S (length it)) it entries
  /\ exists r, read_rows parse_row (S (length it)) it entries = Some r.
Proof.
  intros Hlocal Hfuel.
  pose proof (read_rows_collect parse_row Hlocal (S (length it)) it entries
                ltac:(lia)) as Hr.
  split; [|by eexists].
  rewrite Hr. by apply (read_rows_more_fuel parse_row (S (length it))); [|lia].
Qed.

Lemma skip_line_within (line : list ascii) :
  Forall within_line line -> skip_line line = [].
Proof.
  induction 1 as [|a line [Hlf Hnul] _ IH]; [done|].
  cbn [skip_line].
  destruct (Ascii.eqb_spec a LF) as [|_]; [done|].
  by destruct (Ascii.eqb_spec a NUL) as [|_].
Qed.

Lemma skip_whitespaces_line (line rest : list ascii) :
  Forall within_line line ->
  exists line',
    skip_whitespaces (line ++ LF :: rest) = line' ++ LF :: rest
    /\ Forall within_line line'.
Proof.
  induction 1 as [|a line Ha Hline IH].
  - by exists [].
  - cbn [app skip_whitespaces]. destruct (is_whitespace a); [done|].
    exists (a :: line). split; [done|by constructor].
Qed.

Lemma skip_whitespaces_within (line : list ascii) :
  Forall within_line line -> Forall within_line (skip_whitespaces line).
Proof.
  induction 1 as [|a line Ha Hline IH]; [constructor|].
  cbn [skip_whitespaces]. destruct (is_whitespace a); [done|by constructor].
Qed.

(** Where the rows of a candle file start: behind the first line. *)
Lemma second_to_last_rows_line (header body : list ascii) :
  Forall within_line header ->
  second_to_last_rows (header ++ LF :: body) = skip_whitespaces body.
Proof.
  intros Hheader. unfold second_to_last_rows, make_iterator, next_row.
  destruct (skip_whitespaces_line header body Hheader) as (h & -> & Hh).
  unfold same_position. rewrite length_app. cbn [length].
  destruct (Nat.eqb_spec (length h + S (length body)) 0) as [|_]; [lia|].
  by rewrite skip_line_over_line.
Qed.

(** X21.  [read] for candles skips the first line without looking at it:
    the column names are not compared with anything, and a file whose first
    line is a data row loses that row.  Two texts that differ in their first
    line only are read to the same result, whatever the output vector held
    before. *)
Theorem read_candles_skips_first_line (header header' body : list ascii)
    (prior prior' : list candle) (ec : error) :
  Forall within_line header -> Forall within_line header' ->
  read_candles (header ++ LF :: body) prior ec
  = read_candles (header' ++ LF :: body) prior' ec.
Proof.
  intros Hh Hh'. unfold read_candles.
  rewrite !second_to_last_rows_line by done.
  pose proof (consumed_length _ _ (skip_whitespaces_consumed body)) as Hlen.
  destruct (read_rows_enough_fuel parse_candle (skip_whitespaces body) []
              (S (length (header ++ LF :: body))) parse_candle_line_local)
    as [-> _]; [rewrite length_app; cbn [length]; lia|].
  destruct (read_rows_enough_fuel parse_candle (skip_whitespaces body) []
              (S (length (header' ++ LF :: body))) parse_candle_line_local)
    as [-> _]; [rewrite length_app; cbn [length]; lia|].
  done.
Qed.

Lemma read_candles_skips_first_line_witness :
  Forall within_line (chars "time,period")
  /\ Forall within_line (chars "1,1,1,1,1,1,1,1,1")
  /\ read_candles (chars "time,period" ++ LF :: chars "0,60,2,2,10.5,10,11,10,11")
       [stale_candle] ok
     = read_candles
         (chars "1,1,1,1,1,1,1,1,1" ++ LF :: chars "0,60,2,2,10.5,10,11,10,11")
         [] ok.
Proof.
  assert (H1 : Forall within_line (chars "time,period"))
    by (repeat constructor; discriminate).
  assert (H2 : Forall within_line (chars "1,1,1,1,1,1,1,1,1"))
    by (repeat constructor; discriminate).
  split; [exact H1|]. split; [exact H2|].
  exact (read_candles_skips_first_line _ _ _ [stale_candle] [] ok H1 H2).
Defined.

(** X22.  A text of one line, closed by a newline or not, gives no candle
    and no error, also when the line is a row of candle fields. *)
Theorem read_candles_single_line (line : list ascii) (prior : list candle)
    (ec : error) :
  Forall within_line line ->
  read_candles line prior ec = Some (true, [], ec)
  /\ read_candles (line ++ [LF]) prior ec = Some (true, [], ec).
Proof.
  intros Hline. split.
  - unfold read_candles, second_to_last_rows, make_iterator, next_row.
    pose proof (skip_whitespaces_within line Hline) as Hw.
    rewrite (skip_line_within _ Hw).
    by destruct (same_position _ _).
  - unfold read_candles. by rewrite second_to_last_rows_line.
Qed.

Lemma read_candles_single_line_witness :
  Forall within_line (chars "0,60,2,2,10.5,10,11,10,11")
  /\ read_candles (chars "0,60,2,2,10.5,10,11,10,11") [] ok
     = Some (true, [], ok)
  /\ read_candles (chars "0,60,2,2,10.5,10,11,10,11" ++ [LF]) [] ok
     = Some (true, [], ok).
Proof.
  assert (H : Forall within_line (chars "0,60,2,2,10.5,10,11,10,11"))
    by (repeat constructor; discriminate).
  split; [exact H|].
  exact (read_candles_single_line _ [] ok H).
Defined.

(** X20.  The readers return on every text, also on one with NUL
    characters inside or without a newline at its end: every parsed row
    takes at least one character, and a row that does not parse ends the
    loop.  They return [true] with the error code as it was, or [false]
    with [invalid_candle_fields] (for trades, [invalid_trade_fields]); no
    other error code comes out of them. *)
Theorem read_returns (text : list ascii) :
  (forall (prior : list candle) (ec : error),
     exists (good : bool) (candles : list candle),
       read_candles text prior ec
       = Some (good, candles, if good then ec else invalid_candle_fields))
  /\ (forall (prior : list trade) (ec : error),
        exists (good : bool) (trades : list trade),
          read_trades text prior ec
          = Some (good, trades, if good then ec else invalid_trade_fields)).
Proof.
  split; intros prior ec.
  - unfold read_candles.
    rewrite (read_rows_collect _ parse_candle_line_local)
      by (pose proof (second_to_last_rows_length text); lia).
    destruct (collect _ _ _) as [[] entries];
      [by exists true, entries|by exists false, entries].
  - unfold read_trades.
    rewrite (read_rows_collect _ parse_trade_line_local).
    + destruct (collect _ _ _) as [[] entries];
        [by exists true, entries|by exists false, entries].
    + unfold first_to_last_rows, make_iterator.
      pose proof (consumed_length _ _ (skip_whitespaces_consumed text)). lia.
Qed.

Lemma parse_blank_line (ks : list kind) (rest : list ascii) :
  parse ks (LF :: rest) = None.
Proof.
  unfold parse. destruct ks as [|k ks]; [done|]. cbn [parse_args].
  by rewrite parse_arg_empty_bare.
Qed.

(** X25.  An empty line ends the read with an error: when a newline
    follows the rows that [write] made (of candles and of trades that
    round-trip), [read] returns [false] with [invalid_candle_fields] (for
    trades, [invalid_trade_fields]) whatever comes behind that newline, and
    the output vector holds the entries of the rows in front of it.  (For
    fewer than [2^54] entries, as in the round trips.) *)
Theorem read_stops_at_blank_line (candles prior : list candle)
    (trades prior' : list trade) (rest : list ascii) (ec : error) :
  (Z.of_nat (length candles) < 2 ^ 54)%Z ->
  Forall round_trip_candle candles ->
  (Z.of_nat (length trades) < 2 ^ 54)%Z ->
  Forall round_trip_trade trades ->
  read_candles (write_candles candles ++ LF :: rest) prior ec
  = Some (false, candles, invalid_candle_fields)
  /\ read_trades (write_trades trades ++ LF :: rest) prior' ec
     = Some (false, trades, invalid_trade_fields).
Proof.
  intros Hlen Hall Hlen' Hall'. split.
  - rewrite (WriterFacts.write_candles_text candles Hlen).
    set (rows := concat ((fun c => row_text (candle_row c)) <$> candles)).
    assert (Hheader : quoted_header_line
                      = removelast quoted_header_line ++ [LF])
      by (vm_compute; reflexivity).
    assert (Hbody : Forall within_line (removelast quoted_header_line)).
    { vm_compute removelast.
      repeat (constructor; [split; discriminate|]). constructor. }
    assert (Hstart : skip_whitespaces (rows ++ LF :: rest)
                     = rows ++ LF :: rest).
    { unfold rows. destruct Hall as [|c candles Hc _]; [done|].
      cbn [fmap list_fmap concat]. rewrite row_text_fields, <- app_assoc.
      by apply (skip_whitespaces_fields _ _ _ _
                  (candle_row_good_fields c Hc)). }
    assert (Htext : (quoted_header_line ++ rows) ++ LF :: rest
                    = removelast quoted_header_line
                        ++ LF :: rows ++ LF :: rest).
    { rewrite Hheader at 1. by rewrite <- !app_assoc. }
    rewrite Htext. unfold read_candles.
    rewrite (second_to_last_rows_line _ _ Hbody), Hstart.
    destruct (candle_rows_written candles (LF :: rest)
                (S (length (removelast quoted_header_line
                            ++ LF :: rows ++ LF :: rest))) Hall eq_refl)
      as (fuel' & Hfuel' & Hread).
    { fold rows. rewrite (length_app (removelast _)). cbn [length]. lia. }
    fold rows in Hread. rewrite Hread.
    destruct fuel' as [|fuel']; [cbn in Hfuel'; lia|].
    cbn [read_rows]. change (at_end (LF :: rest)) with false. cbn iota.
    unfold parse_candle. by rewrite parse_blank_line.
  - rewrite (write_trades_text trades Hlen').
    set (rows := concat ((fun t => row_text (trade_row t)) <$> trades)).
    assert (Hstart : skip_whitespaces (rows ++ LF :: rest)
                     = rows ++ LF :: rest).
    { unfold rows. destruct Hall' as [|t trades Ht _]; [done|].
      cbn [fmap list_fmap concat]. rewrite row_text_fields, <- app_assoc.
      by apply (skip_whitespaces_fields _ _ _ _
                  (trade_row_good_fields t Ht)). }
    unfold read_trades, first_to_last_rows, make_iterator. rewrite Hstart.
    destruct (trade_rows_written trades (LF :: rest)
                (S (length (rows ++ LF :: rest))) Hall' eq_refl)
      as (fuel' & Hfuel' & Hread).
    { fold rows. lia. }
    fold rows in Hread. rewrite Hread.
    destruct fuel' as [|fuel']; [cbn in Hfuel'; lia|].
    cbn [read_rows]. change (at_end (LF :: rest)) with false. cbn iota.
    unfold parse_trade. by rewrite parse_blank_line.
Qed.

Lemma read_stops_at_blank_line_witness :
  (Z.of_nat (length [sample_candle; stale_candle]) < 2 ^ 54)%Z
  /\ Forall round_trip_candle [sample_candle; stale_candle]
  /\ (Z.of_nat (length sample_trades) < 2 ^ 54)%Z
  /\ Forall round_trip_trade sample_trades
  /\ read_candles (write_candles [sample_candle; stale_candle]
                     ++ LF :: chars "0,60,1,1,9,9,9,9,9")
       [] ok
     = Some (false, [sample_candle; stale_candle], invalid_candle_fields)
  /\ read_trades (write_trades sample_trades ++ LF :: chars "200,1,9") [] ok
     = Some (false, sample_trades, invalid_trade_fields).
Proof.
  assert (H1 : (Z.of_nat (length [sample_candle; stale_candle]) < 2 ^ 54)%Z)
    by (vm_compute; reflexivity).
  assert (H3 : (Z.of_nat (length sample_trades) < 2 ^ 54)%Z)
    by (vm_compute; reflexivity).
  split; [exact H1|]. split; [exact sample_candles_round_trip|].
  split; [exact H3|]. split; [exact sample_trades_round_trip|].
  exact (read_stops_at_blank_line _ [] _ [] _ ok H1
           sample_candles_round_trip H3 sample_trades_round_trip).
Defined.

Lemma crlf_app (s t : list ascii) : crlf (s ++ t) = crlf s ++ crlf t.
Proof.
  induction s as [|a s IH]; [done|]. cbn [app crlf].
  destruct (Ascii.eqb a LF); cbn [app]; by rewrite IH.
Qed.

Lemma crlf_token (t : list ascii) :
  Forall (fun a => ends_token a = false) t -> crlf t = t.
Proof.
  induction 1 as [|a t Ha _ IH]; [done|]. cbn [crlf].
  destruct (Ascii.eqb_spec a LF) as [->|_]; [done|]. by rewrite IH.
Qed.

Lemma crlf_concat (rows : list (list ascii)) :
  crlf (concat rows) = concat (crlf <$> rows).
Proof.
  induction rows as [|r rows IH]; [done|].
  cbn [concat fmap list_fmap]. by rewrite crlf_app, IH.
Qed.

(** A row of good fields that ends in carriage return and newline. *)
Lemma parse_args_good_fields_crlf :
  forall (ks : list kind) (texts : list (list ascii)) (vs : list value),
    Forall3 good_field ks texts vs ->
    ks <> [] ->
    forall rest : list ascii,
      parse_args ks (crlf (fields_text texts) ++ rest) = Some (vs, LF :: rest).
Proof.
  induction 1 as [|k t v ks texts vs Hgood Hrest IH]; intros Hne rest;
    [done|].
  pose proof Hgood as (_ & _ & _ & Htoken & _).
  cbn [parse_args fields_text]. rewrite crlf_app, (crlf_token t Htoken).
  destruct Hrest as [|k2 t2 v2 ks texts vs Hgood2 Hrest].
  - rewrite <- app_assoc.
    rewrite (parse_arg_good_field k t _ v Hgood) by done.
    cbn. done.
  - rewrite <- app_assoc. cbn [crlf]. change (Ascii.eqb COMMA LF) with false.
    cbn iota. cbn [app].
    rewrite (parse_arg_good_field k t _ v Hgood) by done.
    cbn [skip_whitespaces].
    change (is_whitespace COMMA) with false. cbn [peek].
    change (Ascii.eqb COMMA COMMA) with true. cbn [negb advance tl].
    specialize (IH ltac:(done) rest).
    assert (Hskip : skip_whitespaces (crlf (fields_text (t2 :: texts)) ++ rest)
                    = crlf (fields_text (t2 :: texts)) ++ rest).
    { destruct Hgood2 as (Hws & _ & Hne2 & Htoken2 & _).
      cbn [fields_text]. rewrite crlf_app, (crlf_token t2 Htoken2).
      rewrite <- app_assoc.
      by apply skip_whitespaces_token. }
    rewrite Hskip, IH. done.
Qed.

Lemma crlf_rows_written {A : Type} (parse_row : cursor -> option (A * cursor))
    (columns : list kind) (row : A -> list argument)
    (values : A -> list value) (good : A -> Prop) :
  columns <> [] ->
  (forall a, good a ->
     Forall3 good_field columns (argument_text <$> row a) (values a)) ->
  (forall a rest, good a ->
     parse columns (crlf (row_text (row a)) ++ rest)
     = Some (values a, LF :: rest) ->
     parse_row (crlf (row_text (row a)) ++ rest) = Some (a, LF :: rest)) ->
  forall (l : list A) (fuel : nat),
    Forall good l ->
    (length (crlf (concat ((fun a => row_text (row a)) <$> l))) < fuel)%nat ->
    skip_whitespaces (crlf (concat ((fun a => row_text (row a)) <$> l)))
    = crlf (concat ((fun a => row_text (row a)) <$> l))
    /\ read_rows parse_row fuel
         (crlf (concat ((fun a => row_text (row a)) <$> l))) []
       = Some (true, l).
Proof.
  intros Hcols Hfields Hrow l fuel Hall Hfuel.
  assert (Hstart : forall a rest, good a ->
            skip_whitespaces (crlf (row_text (row a)) ++ rest)
            = crlf (row_text (row a)) ++ rest).
  { intros a rest Ha. specialize (Hfields a Ha).
    rewrite row_text_fields.
    destruct Hfields as [|k t v ks texts vs (Hws & _ & Hne & Htoken & _) _];
      [done|].
    cbn [fields_text]. rewrite crlf_app, (crlf_token t Htoken).
    rewrite <- app_assoc. by apply skip_whitespaces_token. }
  rewrite crlf_concat, <- list_fmap_compose in *.
  split.
  - destruct Hall as [|a l Ha _]; [done|].
    cbn [fmap list_fmap concat compose]. by apply Hstart.
  - destruct (read_rows_written parse_row
                (fun a => crlf (row_text (row a))) good) with
      (l := l) (tail := @nil ascii) (fuel := fuel) (entries := @nil A)
      as (fuel' & Hfuel' & Hread); try done.
    + intros a rest Ha. apply Hrow; [done|].
      unfold parse. rewrite row_text_fields.
      by apply parse_args_good_fields_crlf; [apply Hfields|].
    + intros a Ha Hnil. specialize (Hfields a Ha).
      rewrite row_text_fields in Hnil.
      destruct Hfields as [|k t v ks texts vs (_ & _ & Hne & Htoken & _) _];
        [done|].
      cbn [fields_text] in Hnil.
      rewrite crlf_app, (crlf_token t Htoken) in Hnil.
      by destruct t.
    + by rewrite app_nil_r.
    + rewrite app_nil_r in Hread. cbn [app] in Hread.
      unfold compose in *. rewrite Hread.
      destruct fuel' as [|fuel']; [cbn in Hfuel'; lia|]. done.
Qed.

(** X29.  Files with carriage return and newline at the end of every
    line are read like the files [write] makes: with a carriage return put
    in front of every newline of the bytes written for candles and for
    trades that round-trip, [read] gives the candles and the trades
    back.  (For fewer than [2^54] entries, as in the round trips.) *)
Theorem read_accepts_crlf (candles prior : list candle)
    (trades prior' : list trade) (ec : error) :
  (Z.of_nat (length candles) < 2 ^ 54)%Z ->
  Forall round_trip_candle candles ->
  (Z.of_nat (length trades) < 2 ^ 54)%Z ->
  Forall round_trip_trade trades ->
  read_candles (crlf (write_candles candles)) prior ec
  = Some (true, candles, ec)
  /\ read_trades (crlf (write_trades trades)) prior' ec
     = Some (true, trades, ec).
Proof.
  intros Hlen Hall Hlen' Hall'. split.
  - rewrite (WriterFacts.write_candles_text candles Hlen), crlf_app.
    set (rows := crlf (concat ((fun c => row_text (candle_row c))
                                 <$> candles))).
    assert (Hheader : crlf quoted_header_line
                      = (removelast quoted_header_line ++ [CR]) ++ [LF])
      by (vm_compute; reflexivity).
    assert (Hbody : Forall within_line (removelast quoted_header_line ++ [CR])).
    { vm_compute app.
      repeat (constructor; [split; discriminate|]). constructor. }
    destruct (crlf_rows_written parse_candle candle_columns candle_row
                (fun c => [VInt (time c); VInt (period c); VInt (count c);
                           VFloat (volume c); VFloat (vwap_price c);
                           VFloat (open_price c); VFloat (high_price c);
                           VFloat (low_price c); VFloat (close_price c)])
                round_trip_candle) with
      (l := candles)
      (fuel := S (length (crlf quoted_header_line ++ rows)))
      as [Hstart Hread]; try done.
    + intros c Hc. by apply candle_row_good_fields.
    + intros c rest Hc Hp. unfold parse_candle. rewrite Hp. by destruct c.
    + fold rows. rewrite length_app. lia.
    + fold rows in Hstart, Hread.
      assert (Hbegin : second_to_last_rows (crlf quoted_header_line ++ rows)
                       = rows).
      { rewrite Hheader, <- app_assoc. cbn [app].
        by rewrite (second_to_last_rows_line _ _ Hbody). }
      unfold read_candles. by rewrite Hbegin, Hread.
  - rewrite (write_trades_text trades Hlen').
    set (rows := crlf (concat ((fun t => row_text (trade_row t))
                                 <$> trades))).
    destruct (crlf_rows_written parse_trade trade_columns trade_row
                (fun t => [VInt (trade_time t); VFloat (price t);
                           VFloat (amount t)])
                round_trip_trade) with
      (l := trades) (fuel := S (length rows))
      as [Hstart Hread]; try done.
    + intros t Ht. by apply trade_row_good_fields.
    + intros t rest Ht Hp. unfold parse_trade. rewrite Hp. by destruct t.
    + fold rows. lia.
    + fold rows in Hstart, Hread.
      unfold read_trades, first_to_last_rows, make_iterator.
      by rewrite Hstart, Hread.
Qed.

Lemma read_accepts_crlf_witness :
  (Z.of_nat (length [sample_candle; stale_candle]) < 2 ^ 54)%Z
  /\ Forall round_trip_candle [sample_candle; stale_candle]
  /\ (Z.of_nat (length sample_trades) < 2 ^ 54)%Z
  /\ Forall round_trip_trade sample_trades
  /\ read_candles (crlf (write_candles [sample_candle; stale_candle]))
       [] ok
     = Some (true, [sample_candle; stale_candle], ok)
  /\ read_trades (crlf (write_trades sample_trades)) [] ok
     = Some (true, sample_trades, ok).
Proof.
  assert (H1 : (Z.of_nat (length [sample_candle; stale_candle]) < 2 ^ 54)%Z)
    by (vm_compute; reflexivity).
  assert (H3 : (Z.of_nat (length sample_trades) < 2 ^ 54)%Z)
    by (vm_compute; reflexivity).
  split; [exact H1|]. split; [exact sample_candles_round_trip|].
  split; [exact H3|]. split; [exact sample_trades_round_trip|].
  exact (read_accepts_crlf _ [] _ [] ok H1
           sample_candles_round_trip H3 sample_trades_round_trip).
Defined.

End FileFacts.
